(** * spotify-summary: the transcription job pipeline of [server.js]

    A shallow embedding of the server's transcription pipeline: the chunking
    arithmetic of [splitAudioIntoChunks], the overlap-dropping
    [mergeTranscriptions], the progress store written by [updateProgress],
    the job handler [POST /api/transcript] with its scratch files, and the
    result endpoint with its eviction timer.

    JavaScript strings that hold transcript text are sequences of UTF-16
    code units ([jsstring]); step names, messages, paths and URLs are
    ordinary strings.  Numbers that the source keeps as doubles are taken
    as exact integers or rationals where the arithmetic of the program on
    them is exact; the percentages are computed with the rounding of the
    doubles. *)

From Stdlib Require Import ZArith QArith Qminmax Qround Qpower Lqa SpecFloat.
From stdpp Require Import gmap strings list fin_maps pretty sorting.

Local Open Scope Z_scope.

Set Warnings "-clear-no-such-hyp".

(** ** Constants of [server.js] *)

Definition MAX_FILE_SIZE_MB : Z := 25.
Definition CHUNK_DURATION_SECONDS : Z := 600.
Definition CHUNK_OVERLAP_SECONDS : Z := 10.
Definition TEMP_DIR : string := "/tmp".

(** ** JavaScript strings *)

Module JS.

(** A string value is its sequence of UTF-16 code units. *)
Definition jsstring := list N.

(** ASCII literals, for examples. *)
Definition lit (s : string) : jsstring :=
  Ascii.N_of_ascii <$> String.list_ascii_of_string s.

Definition SPACE : N := 32%N.

(** The code units removed by [String.prototype.trim]: WhiteSpace and
    LineTerminator of ECMA-262. *)
Definition isWhiteSpace (c : N) : bool :=
  ((9 <=? c) && (c <=? 13) ||
   (c =? 32) || (c =? 160) || (c =? 5760) ||
   (8192 <=? c) && (c <=? 8202) ||
   (c =? 8232) || (c =? 8233) || (c =? 8239) || (c =? 8287) ||
   (c =? 12288) || (c =? 65279))%N.

Fixpoint trimStart (s : jsstring) : jsstring :=
  match s with
  | c :: s' => if isWhiteSpace c then trimStart s' else s
  | [] => []
  end.

Definition trimEnd (s : jsstring) : jsstring :=
  reverse (trimStart (reverse s)).

(** [s.trim()] *)
Definition trim (s : jsstring) : jsstring := trimEnd (trimStart s).

(** [s.split(' ')]: cut at every single space; empty pieces are kept. *)
Fixpoint split_space (s : jsstring) : list jsstring :=
  match s with
  | [] => [[]]
  | c :: s' =>
      if (c =? SPACE)%N then [] :: split_space s'
      else match split_space s' with
           | w :: ws => (c :: w) :: ws
           | [] => [[c]]
           end
  end.

(** [ws.join(' ')] *)
Fixpoint join_space (ws : list jsstring) : jsstring :=
  match ws with
  | [] => []
  | [w] => w
  | w :: ws' => w ++ SPACE :: join_space ws'
  end.

(** [ws.slice(k)] for [k >= 0] *)
Definition slice_from {A} (k : nat) (ws : list A) : list A := drop k ws.

End JS.

Import JS.

(** ** Transcriptions and their merge *)

(** The object returned by the speech-to-text call; the pipeline reads only
    its [text] property. *)
Record Transcription := { text : jsstring }.

(** [Math.ceil(CHUNK_OVERLAP_SECONDS * 2)] *)
Definition overlapWords : nat := Z.to_nat (CHUNK_OVERLAP_SECONDS * 2).

(** The part of a later chunk's text that the merge keeps:
    [text.split(' ').slice(overlapWords).join(' ')]. *)
Definition textWithoutOverlap (t : jsstring) : jsstring :=
  join_space (slice_from overlapWords (split_space t)).

(** The [for] loop of [mergeTranscriptions], from index [i] on, with the
    accumulator [mergedText]. *)
Fixpoint mergeLoop (i : nat) (transcriptions : list Transcription)
    (mergedText : jsstring) : jsstring :=
  match transcriptions with
  | [] => mergedText
  | t :: rest =>
      let mergedText' :=
        if (i =? 0)%nat then text t
        else mergedText ++ [SPACE] ++ textWithoutOverlap (text t) in
      mergeLoop (S i) rest mergedText'
  end.

Definition mergeTranscriptions (transcriptions : list Transcription) : jsstring :=
  match transcriptions with
  | [t] => text t
  | _ => trim (mergeLoop 0 transcriptions [])
  end.


(** ** Chunk windows of [splitAudioIntoChunks] *)

(** [Math.round(x)]: nearest integer, ties towards plus infinity. *)
Definition jsRound (x : Q) : Z := Qfloor (x + (1 # 2))%Q.

(** *** The arithmetic of doubles

    [/] and [*] of JavaScript return the double nearest to the exact
    result.  The percentages are computed with them, and the rounding can
    move a value across a half: for chunk 23 of 40 the exact value is 57.5,
    the doubles give 57.49999999999999 and [Math.round] makes 57 of it. *)

(** The integer nearest to [x]; a tie goes to the even one. *)
Definition roundHalfEven (x : Q) : Z :=
  let n := Qfloor x in
  match (x - inject_Z n ?= 1 # 2)%Q with
  | Lt => n
  | Eq => if Z.even n then n else n + 1
  | Gt => n + 1
  end.

(** For a positive [x], the exponent [e] with [2^e <= x < 2^(e+1)]. *)
Definition binade (x : Q) : Z :=
  let e := Z.log2 (Qnum x) - Z.log2 (Z.pos (Qden x)) in
  if Qle_bool (2 ^ e) x then e else e - 1.

(** The double nearest to [x] (IEEE 754 binary64: a significand of 53 bits,
    round to nearest, ties to even), as a rational.  The numbers of the
    program are far inside the range of the normal doubles, so that
    overflow and subnormal numbers are left out. *)
Definition toDouble (x : Q) : Q :=
  match Qnum x with
  | Z0 => 0
  | Zpos _ =>
      let e := binade x in
      inject_Z (roundHalfEven (x * 2 ^ (52 - e))) * 2 ^ (e - 52)
  | Zneg _ =>
      let e := binade (- x) in
      - (inject_Z (roundHalfEven (- x * 2 ^ (52 - e))) * 2 ^ (e - 52))
  end%Q.

(** [Math.ceil(duration / CHUNK_DURATION_SECONDS)] *)
Definition numChunks (duration : Q) : Z :=
  Qceiling (duration / inject_Z CHUNK_DURATION_SECONDS)%Q.

(** [Math.max(0, i * CHUNK_DURATION_SECONDS - CHUNK_OVERLAP_SECONDS)] *)
Definition startTime (i : nat) : Z :=
  Z.max 0 (Z.of_nat i * CHUNK_DURATION_SECONDS - CHUNK_OVERLAP_SECONDS).

(** The argument of [setDuration]. *)
Definition chunkSpan : Z := CHUNK_DURATION_SECONDS + CHUNK_OVERLAP_SECONDS.

(** [Math.round(((i + 1) / n) * 100)]: the quotient and the product are
    doubles. *)
Definition chunkPercentage (i : nat) (n : Z) : Z :=
  jsRound (toDouble (toDouble (inject_Z (Z.of_nat i + 1) / inject_Z n) * 100))%Q.

(** The same percentage computed with the binary64 operations of the
    standard library's specification of IEEE 754, to compare [toDouble]
    with. *)
Definition double_of_Z (k : Z) : spec_float :=
  binary_normalize 53 1024 k 0 false.

Definition rational_of_double (f : spec_float) : Q :=
  match f with
  | S754_finite s m e =>
      ((if s then -1 else 1) * inject_Z (Z.pos m) * 2 ^ e)%Q
  | _ => 0%Q
  end.

Definition chunkPercentage_binary64 (i : nat) (n : Z) : Z :=
  jsRound
    (rational_of_double
       (SFmul 53 1024
          (SFdiv 53 1024 (double_of_Z (Z.of_nat i + 1)) (double_of_Z n))
          (double_of_Z 100))).

(** ** Strings of paths and URLs *)

Definition dquote : string := String (Ascii.ascii_of_N 34) EmptyString.

Fixpoint dropString (n : nat) (s : string) : string :=
  match n, s with
  | S n', String _ s' => dropString n' s'
  | _, _ => s
  end.

(** [s.replace(pat, rep)] for a string pattern: the first occurrence only. *)
Fixpoint replaceFirst (pat rep s : string) : string :=
  if String.prefix pat s then rep +:+ dropString (String.length pat) s
  else match s with
       | EmptyString => EmptyString
       | String c s' => String c (replaceFirst pat rep s')
       end.

Definition isAlnum (c : Ascii.ascii) : bool :=
  let n := Ascii.N_of_ascii c in
  ((48 <=? n) && (n <=? 57) || (65 <=? n) && (n <=? 90) ||
   (97 <=? n) && (n <=? 122))%N.

Fixpoint takeAlnum (s : string) : string :=
  match s with
  | String c s' => if isAlnum c then String c (takeAlnum s') else EmptyString
  | EmptyString => EmptyString
  end.

(** [url.match(/episode\/([a-zA-Z0-9]+)/)]: the capture of the leftmost
    match, if any. *)
Fixpoint matchEpisode (url : string) : option string :=
  let here :=
    if String.prefix "episode/" url
    then match takeAlnum (dropString 8 url) with
         | EmptyString => None
         | id => Some id
         end
    else None in
  match here, url with
  | Some id, _ => Some id
  | None, String _ url' => matchEpisode url'
  | None, EmptyString => None
  end.

(** ** Data of a job *)

(** What the pipeline reads of the Spotify metadata. *)
Record SpotifyData := { name : string; subtitle : string }.

(** What the pipeline reads of an RSS item. *)
Record Item := {
  title : option string;
  pubDate : option string;
  itunes_duration : option string;
  enclosure_url : option string }.

(** The stored result object; [success] is always [true]. *)
Record JobResult := {
  episode_title : option string;
  episode_published : option string;
  episode_duration : option string;
  transcript : jsstring;
  summary : option jsstring }.

(** A property of a job's progress object: the entry of a step, the flag
    [complete: true], or the [result].  The step named [complete] and the
    flag [complete] share one key, as do the step [error] and the error
    read by the result endpoint. *)
Inductive PVal :=
  | PStep (percentage : Z) (message : string) (timestamp : Z)
  | PTrue
  | PResult (r : JobResult).

(** An awaited promise either fulfils or rejects with an error message. *)
Inductive Outcome (A : Type) :=
  | Ok (a : A)
  | Throw (message : string).
Arguments Ok {A} a.
Arguments Throw {A} message.

Definition failure {A} (r : Outcome A) : option string :=
  match r with Ok _ => None | Throw m => Some m end.

(** Calls that leave the process. *)
Inductive Call :=
  | CGetData (url : string)
  | CFindRssFeed (podcast : string)
  | CParseURL (url : string)
  | CAxiosGet (url : string)
  | CWriteStream (path : string)
  | CStat (path : string)
  | CUnlink (path : string)
  | CFfprobe (path : string)
  | CFfmpeg (input : string) (start duration : Z) (output : string)
  | CExecFfmpeg (input output : string)
  | CGroq (path : string)
  | CGemini
  | CWebhook (subject : string).

(** The console: the line printed by [updateProgress], and a record of each
    outside call with its failure, if it failed. *)
Inductive Event :=
  | EvProgress (jobId step : string) (percentage : Z) (message : string)
  | EvCall (c : Call) (failed : option string).

(** The outside world, as the job sees it: configuration and the answers of
    the services it calls.  The search for the feed ([findRssFeed] with its
    two directory searches) and the score of an item
    ([calculateMatchScore], on a string-similarity library) are taken as
    given: they decide which episode is transcribed, not how. *)
Record Env := {
  (** whether the environment variable is set *)
  GEMINI_API_KEY : bool;
  WEBHOOK_URL : bool;
  (** [spotifyUrlInfo.getData(url)] *)
  getData : string → Outcome (option SpotifyData);
  (** [findRssFeed(podcastName)]: a feed URL or [null] *)
  findRssFeed : string → Outcome (option string);
  (** [rssParser.parseURL(url)]: the items of the feed *)
  parseURL : string → Outcome (list Item);
  (** [calculateMatchScore(item, episodeName, 0)] *)
  calculateMatchScore : Item → string → Q;
  (** the download request: the progress events (loaded, total) it reports *)
  axiosGet : string → Outcome (list (Z * Z));
  (** the write stream: finishes with the size written, or errors *)
  writeStream : string → string → Outcome N;
  ffprobe : string → Outcome Q;
  ffmpegCut : string → Z → Z → string → Outcome N;
  execFfmpeg : string → string → Outcome N;
  groqCreate : string → Outcome Transcription;
  (** the texts of the parts of the first candidate, if any *)
  geminiGenerate : jsstring → option string → Outcome (option (list jsstring));
  webhookPost : string → Outcome unit }.

(** The state of the process and of its scratch storage. *)
Record World := {
  progressStore : gmap string (gmap string PVal);
  disk : gmap string N;
  now : Z;
  timers : list (Z * string);
  console : list Event }.

Definition setStore (f : gmap string (gmap string PVal) → gmap string (gmap string PVal))
    (w : World) : World :=
  {| progressStore := f (progressStore w); disk := disk w; now := now w;
     timers := timers w; console := console w |}.

Definition setDisk (f : gmap string N → gmap string N) (w : World) : World :=
  {| progressStore := progressStore w; disk := f (disk w); now := now w;
     timers := timers w; console := console w |}.


Definition setTimers (ts : list (Z * string)) (w : World) : World :=
  {| progressStore := progressStore w; disk := disk w; now := now w;
     timers := ts; console := console w |}.

Definition logEvent (e : Event) (w : World) : World :=
  {| progressStore := progressStore w; disk := disk w; now := now w;
     timers := timers w; console := console w ++ [e] |}.

(** ** The monad of the job: state and exceptions *)

Definition M (A : Type) : Type := World → World * Outcome A.

Global Instance M_ret : MRet M := λ A a w, (w, Ok a).

Global Instance M_bind : MBind M := λ A B f m w,
  match m w with
  | (w', Ok a) => f a w'
  | (w', Throw e) => (w', Throw e)
  end.

Definition throw {A} (message : string) : M A := λ w, (w, Throw message).

(** [try { m } catch (error) { h(error.message) }] *)
Definition tryCatch {A} (m : M A) (h : string → M A) : M A := λ w,
  match m w with
  | (w', Ok a) => (w', Ok a)
  | (w', Throw e) => h e w'
  end.

(** The settled promise of [m], without rethrowing. *)
Definition settle {A} (m : M A) : M (Outcome A) := λ w,
  match m w with (w', r) => (w', Ok r) end.

Definition modify (f : World → World) : M unit := λ w, (f w, Ok ()).

Definition gets {A} (f : World → A) : M A := λ w, (w, Ok (f w)).

(** An outside call with a given answer. *)
Definition call {A} (c : Call) (r : Outcome A) : M A := λ w,
  (logEvent (EvCall c (failure r)) w, r).

(** ** The pipeline of [server.js] *)

Definition truthy (s : option string) : bool :=
  match s with
  | Some EmptyString | None => false
  | Some _ => true
  end.

Section Pipeline.

Variable env : Env.

(** [updateProgress]: the step's entry is replaced by the new one. *)
Definition updateProgress (jobId step : string) (percentage : Z)
    (message : string) : M unit := λ w,
  let progress := default ∅ (progressStore w !! jobId) in
  let progress' := <[step := PStep percentage message (now w)]> progress in
  (logEvent (EvProgress jobId step percentage message)
     (setStore <[jobId := progress']> w), Ok ()).

(** [progressStore.get(jobId).key = v] *)
Definition setProperty (jobId key : string) (v : PVal) : M unit := λ w,
  match progressStore w !! jobId with
  | Some progress => (setStore <[jobId := <[key := v]> progress]> w, Ok ())
  | None => (w, Throw "Cannot set properties of undefined")
  end.

Definition sendWebhook (subject : string) : M unit :=
  if negb (WEBHOOK_URL env) then mret ()
  else tryCatch (call (CWebhook subject) (webhookPost env subject))
                (λ _, mret ()).

(** [fs.stat(path).size] *)
Definition stat (path : string) : M N := λ w,
  match disk w !! path with
  | Some size => call (CStat path) (Ok size) w
  | None => call (CStat path) (Throw "ENOENT: no such file or directory") w
  end.

Definition getFileSizeMB (filepath : string) : M Q :=
  size ← stat filepath;
  mret (inject_Z (Z.of_N size) / inject_Z (1024 * 1024))%Q.

(** [fs.unlink(path)] *)
Definition unlink (path : string) : M unit := λ w,
  match disk w !! path with
  | Some _ => call (CUnlink path) (Ok ()) (setDisk (delete path) w)
  | None => call (CUnlink path) (Throw "ENOENT: no such file or directory") w
  end.

Definition cleanupFile (filepath : string) : M unit :=
  tryCatch (unlink filepath) (λ _, mret ()).

Definition extractEpisodeId (url : string) : M string :=
  match matchEpisode url with
  | Some id => mret id
  | None => throw "Invalid Spotify episode URL"
  end.

(** [Math.round((loaded * 100) / total)]: the product and the quotient are
    doubles. *)
Definition downloadPercentage (loaded total : Z) : Z :=
  jsRound (toDouble (toDouble (inject_Z (loaded * 100)) / inject_Z total))%Q.

(** The [onDownloadProgress] callback, over the events of one download. *)
Fixpoint reportDownload (jobId : string) (events : list (Z * Z)) : M unit :=
  match events with
  | [] => mret ()
  | (loaded, total) :: rest =>
      (if total =? 0 then mret ()
       else let percentage := downloadPercentage loaded total in
            updateProgress jobId "download" percentage
              ("Downloading audio... " +:+ pretty percentage +:+ "%"));;
      reportDownload jobId rest
  end.

(** A write that errors is taken to leave no file behind. *)
Definition downloadAudio (audioUrl episodeId jobId : string) : M string :=
  t ← gets now;
  let filename := episodeId +:+ "_" +:+ pretty t +:+ ".mp3" in
  let filepath := TEMP_DIR +:+ "/" +:+ filename in
  updateProgress jobId "download" 0 "Starting download...";;
  events ← call (CAxiosGet audioUrl) (axiosGet env audioUrl);
  reportDownload jobId events;;
  size ← call (CWriteStream filepath) (writeStream env audioUrl filepath);
  modify (setDisk <[filepath := size]>);;
  updateProgress jobId "download" 100 "Download complete";;
  mret filepath.

Definition getAudioDuration (filepath : string) : M Q :=
  call (CFfprobe filepath) (ffprobe env filepath).

(** The [for] loop of [splitAudioIntoChunks]: [todo] iterations are left,
    that is [i < numChunks] holds exactly while [todo] is positive. *)
Fixpoint splitLoop (inputPath jobId : string) (n : Z) (todo i : nat)
    (chunks : list string) : M (list string) :=
  match todo with
  | O => mret chunks
  | S todo' =>
      let chunkPath :=
        replaceFirst ".mp3" ("_chunk_" +:+ pretty i +:+ ".mp3") inputPath in
      size ← call (CFfmpeg inputPath (startTime i) chunkSpan chunkPath)
                  (ffmpegCut env inputPath (startTime i) chunkSpan chunkPath);
      modify (setDisk <[chunkPath := size]>);;
      updateProgress jobId "splitting" (chunkPercentage i n)
        ("Created chunk " +:+ pretty (S i) +:+ "/" +:+ pretty n);;
      splitLoop inputPath jobId n todo' (S i) (chunks ++ [chunkPath])
  end.

Definition splitAudioIntoChunks (inputPath jobId : string) : M (list string) :=
  duration ← getAudioDuration inputPath;
  let n := numChunks duration in
  updateProgress jobId "splitting" 0
    ("Splitting into " +:+ pretty n +:+ " chunks...");;
  chunks ← splitLoop inputPath jobId n (Z.to_nat n) 0 [];
  updateProgress jobId "splitting" 100 "Audio splitting complete";;
  mret chunks.

Definition compressAudio (inputPath jobId : string) : M string :=
  let outputPath := replaceFirst ".mp3" "_compressed.mp3" inputPath in
  updateProgress jobId "compress" 0 "Compressing audio...";;
  tryCatch
    (size ← call (CExecFfmpeg inputPath outputPath)
                (execFfmpeg env inputPath outputPath);
     modify (setDisk <[outputPath := size]>);;
     updateProgress jobId "compress" 100 "Compression complete";;
     mret outputPath)
    (λ _, mret inputPath).

(** [chunk] is [Some (chunkIndex, totalChunks)], or [None] for the two
    [null] arguments. *)
Definition transcribeWithGroq (filepath : string) (chunk : option (nat * nat))
    (jobId : string) : M Transcription :=
  let chunkInfo :=
    match chunk with
    | Some (chunkIndex, totalChunks) =>
        " (chunk " +:+ pretty (S chunkIndex) +:+ "/" +:+ pretty totalChunks +:+ ")"
    | None => ""
    end in
  updateProgress jobId "transcribe" 0 ("Transcribing" +:+ chunkInfo +:+ "...");;
  transcription ← call (CGroq filepath) (groqCreate env filepath);
  match chunk with
  | Some (chunkIndex, totalChunks) =>
      updateProgress jobId "transcribe"
        (chunkPercentage chunkIndex (Z.of_nat totalChunks))
        ("Transcribed chunk " +:+ pretty (S chunkIndex) +:+ "/" +:+ pretty totalChunks)
  | None => updateProgress jobId "transcribe" 100 "Transcription complete"
  end;;
  mret transcription.

(** The loop over the chunks, from index [i] on: transcribe the chunk,
    push the transcription, delete the chunk file. *)
Fixpoint transcribeLoop (jobId : string) (total i : nat) (chunks : list string)
    (transcriptions : list Transcription) : M (list Transcription) :=
  match chunks with
  | [] => mret transcriptions
  | chunk :: rest =>
      transcription ← transcribeWithGroq chunk (Some (i, total)) jobId;
      cleanupFile chunk;;
      transcribeLoop jobId total (S i) rest (transcriptions ++ [transcription])
  end.

(** The two blocks that both chunked branches of [processTranscription]
    repeat: the merge with its two progress updates, and before it the
    loop that transcribes every chunk. *)
Definition mergeStep (transcriptions : list Transcription) (jobId : string)
    : M jsstring :=
  updateProgress jobId "merge" 0 "Merging transcriptions...";;
  let mergedText := mergeTranscriptions transcriptions in
  updateProgress jobId "merge" 100 "Merge complete";;
  mret mergedText.

Definition transcribeChunks (chunks : list string) (jobId : string) : M jsstring :=
  transcriptions ← transcribeLoop jobId (length chunks) 0 chunks [];
  mergeStep transcriptions jobId.

Definition exceedsLimit (sizeMB : Q) : bool :=
  negb (Qle_bool sizeMB (inject_Z MAX_FILE_SIZE_MB)).

Definition processTranscription (audioPath jobId : string) : M jsstring :=
  fileSizeMB ← getFileSizeMB audioPath;
  if exceedsLimit fileSizeMB then
    chunks ← splitAudioIntoChunks audioPath jobId;
    transcribeChunks chunks jobId
  else
    compressedPath ← compressAudio audioPath jobId;
    finalSizeMB ← getFileSizeMB compressedPath;
    if exceedsLimit finalSizeMB then
      chunks ← splitAudioIntoChunks compressedPath jobId;
      mergedText ← transcribeChunks chunks jobId;
      (if bool_decide (compressedPath ≠ audioPath)
       then cleanupFile compressedPath else mret ());;
      mret mergedText
    else
      transcription ← transcribeWithGroq compressedPath None jobId;
      (if bool_decide (compressedPath ≠ audioPath)
       then cleanupFile compressedPath else mret ());;
      mret (text transcription).

End Pipeline.

Section Handler.

Variable env : Env.

(** [summariseWithGemini]; the prompt is built from the transcript and the
    title, which are what the service is given here. *)
Definition summariseWithGemini (transcript : jsstring)
    (episodeTitle : option string) (jobId : string) : M (option jsstring) :=
  if negb (GEMINI_API_KEY env) then
    (if truthy (Some jobId) then
       updateProgress jobId "summary" 100
         "Summary skipped (Gemini API key not configured)"
     else mret ());;
    mret None
  else
    tryCatch
      (updateProgress jobId "summary" 0 "Summarising transcript with Gemini...";;
       parts ← call CGemini (geminiGenerate env transcript episodeTitle);
       match option_map (@concat N) parts with
       | None | Some [] =>
           updateProgress jobId "summary" 100
             "Summary skipped (no response from Gemini)";;
           mret None
       | Some summaryText =>
           updateProgress jobId "summary" 90 "Sending summary via email...";;
           sendWebhook env ("Summary: " +:+ default "undefined" episodeTitle);;
           updateProgress jobId "summary" 100 "Summary sent to email";;
           mret (Some (trim summaryText))
       end)
      (λ _,
         updateProgress jobId "summary" 100
           "Could not generate summary (Gemini error)";;
         sendWebhook env
           ("Error Summarising: " +:+ default "undefined" episodeTitle);;
         mret None).

(** The [forEach] over the feed items: the first item with the highest
    score above zero. *)
Definition bestMatch (items : list Item) (episodeName : string) : option Item :=
  fst (fold_left
         (λ (best : option Item * Q) item,
            let score := calculateMatchScore env item episodeName in
            if negb (Qle_bool score (snd best)) then (Some item, score)
            else best)
         items (None, 0%Q)).

(** Steps 1 to 3 of the handler.  [None] is one of its early [return]s,
    taken after the error has been published. *)
Definition resolveEpisode (jobId spotifyUrl : string)
    (providedRssUrl : option string) : M (option (Item * string)) :=
  updateProgress jobId "metadata" 0 "Fetching Spotify metadata...";;
  spotifyData ← call (CGetData spotifyUrl) (getData env spotifyUrl);
  match spotifyData with
  | None =>
      updateProgress jobId "error" 100
        "Could not fetch episode data from Spotify";;
      setProperty jobId "complete" PTrue;;
      mret None
  | Some spotifyData =>
      updateProgress jobId "metadata" 100 "Metadata fetched";;
      rssUrl ←
        (if truthy providedRssUrl then
           updateProgress jobId "rss" 100 "Using provided RSS feed";;
           mret providedRssUrl
         else
           updateProgress jobId "rss" 0 "Finding RSS feed...";;
           found ← call (CFindRssFeed (subtitle spotifyData))
                        (findRssFeed env (subtitle spotifyData));
           if truthy found then
             updateProgress jobId "rss" 100 "RSS feed found";;
             mret found
           else
             updateProgress jobId "error" 100
               ("Unable to find RSS feed for " +:+ dquote +:+
                subtitle spotifyData +:+ dquote +:+
                ". This podcast may not be available in Apple Podcasts or Podcast Index directories.");;
             setProperty jobId "complete" PTrue;;
             sendWebhook env
               ("Error: Podcast Not Found - " +:+ name spotifyData);;
             mret None);
      match rssUrl with
      | None => mret None
      | Some rssUrl =>
          updateProgress jobId "parse" 0 "Parsing RSS feed...";;
          items ← call (CParseURL rssUrl) (parseURL env rssUrl);
          match bestMatch items (name spotifyData), head items with
          | None, None =>
              throw "Cannot read properties of undefined (reading 'enclosure')"
          | Some targetEpisode, _ | None, Some targetEpisode =>
              if truthy (enclosure_url targetEpisode) then
                updateProgress jobId "parse" 100 "RSS parsed successfully";;
                mret (Some (targetEpisode, default "" (enclosure_url targetEpisode)))
              else
                updateProgress jobId "error" 100
                  "No audio URL found for this episode";;
                setProperty jobId "complete" PTrue;;
                mret None
          end
      end
  end.

(** [error.message || 'An error occurred'] *)
Definition orDefault (message : string) : string :=
  match message with
  | EmptyString => "An error occurred"
  | _ => message
  end.

(** The [catch] block of the handler.  Its last statement reads
    [spotifyData], which is declared inside the [try] block: the read
    throws, so the error webhook is never sent and the handler rejects. *)
Definition catchBlock (jobId : string) (tempFilePath : option string)
    (message : string) : M unit :=
  match tempFilePath with
  | Some p => cleanupFile p
  | None => mret ()
  end;;
  updateProgress jobId "error" 100 (orDefault message);;
  setProperty jobId "complete" PTrue;;
  throw "spotifyData is not defined".

(** [POST /api/transcript], for the job identifier drawn by
    [crypto.randomBytes].  The variable [tempFilePath] is [null] until the
    download returns and again after step 7; the three [settle]d parts of
    the [try] block are the parts between its assignments, and each is
    followed by the [catch] block with the value the variable has there. *)
Definition postTranscript (jobId : string) (spotifyUrl rssUrl : option string)
    : M unit :=
  if negb (truthy spotifyUrl) then mret ()
  else
    let url := default "" spotifyUrl in
    r1 ← settle
      (resolved ← resolveEpisode jobId url rssUrl;
       match resolved with
       | None => mret None
       | Some (targetEpisode, audioUrl) =>
           episodeId ← extractEpisodeId url;
           tempFilePath ← downloadAudio env audioUrl episodeId jobId;
           mret (Some (targetEpisode, tempFilePath))
       end);
    match r1 with
    | Throw e => catchBlock jobId None e
    | Ok None => mret ()
    | Ok (Some (targetEpisode, tempFilePath)) =>
        r2 ← settle
          (transcript ← processTranscription env tempFilePath jobId;
           summary ← tryCatch
             (summariseWithGemini transcript (title targetEpisode) jobId)
             (λ _, mret None);
           cleanupFile tempFilePath;;
           mret (transcript, summary));
        match r2 with
        | Throw e => catchBlock jobId (Some tempFilePath) e
        | Ok (transcript, summary) =>
            r3 ← settle
              (updateProgress jobId "complete" 100 "Transcription complete!";;
               setProperty jobId "result"
                 (PResult {| episode_title := title targetEpisode;
                             episode_published := pubDate targetEpisode;
                             episode_duration := itunes_duration targetEpisode;
                             transcript := transcript;
                             summary := summary |});;
               setProperty jobId "complete" PTrue);
            match r3 with
            | Throw e => catchBlock jobId None e
            | Ok _ => mret ()
            end
        end
    end.

End Handler.

(** ** The result endpoint and its eviction timer *)

Inductive Reply :=
  | R404
  | R200 (result : PVal)
  | R500 (message : option string)
  | R202.

(** [GET /api/result/:jobId] *)
Definition getResult (jobId : string) (w : World) : World * Reply :=
  match progressStore w !! jobId with
  | None => (w, R404)
  | Some progress =>
      match progress !! "result" with
      | Some v =>
          (setTimers (timers w ++ [(now w + 60000, jobId)]) w, R200 v)
      | None =>
          match progress !! "error" with
          | Some (PStep _ message _) => (w, R500 (Some message))
          | Some _ => (w, R500 None)
          | None => (w, R202)
          end
      end
  end.






(** ** The merge as the specification words it *)

(** Cut at every code unit that satisfies [p]; empty pieces are kept. *)
Fixpoint split_on (p : N → bool) (s : jsstring) : list jsstring :=
  match s with
  | [] => [[]]
  | c :: s' =>
      if p c then [] :: split_on p s'
      else match split_on p s' with
           | w :: ws => (c :: w) :: ws
           | [] => [[c]]
           end
  end.

(** The whitespace-delimited tokens of a text: its maximal runs of code
    units that are not whitespace. *)
Definition whitespaceTokens (s : jsstring) : list jsstring :=
  List.filter (λ w, negb (bool_decide (w = []))) (split_on isWhiteSpace s).

(** The specification's merge of [N > 1] transcripts: the first text, then
    for each later one a space and its text without its first [k]
    whitespace-delimited tokens, the whole trimmed. *)
Definition specMerge (transcriptions : list Transcription) : jsstring :=
  match transcriptions with
  | [] => []
  | t0 :: rest =>
      trim (text t0 ++
            concat ((λ t, SPACE :: join_space
                            (drop overlapWords (whitespaceTokens (text t))))
                      <$> rest))
  end.

(** ** Observers of the console

    An observer folds a step function [δ] over the events that a computation
    appends to the console.  [tracks δ P m Q]: run from an observer state
    and a world that satisfy [P], the computation [m] leaves the observer
    and the world in a state that satisfies [Q] for its outcome. *)

Definition tracks {S A} (δ : S → Event → S) (P : S → World → Prop) (m : M A)
    (Q : Outcome A → S → World → Prop) : Prop :=
  ∀ w, ∃ tr,
    console (m w).1 = console w ++ tr ∧
    ∀ s, P s w → Q (m w).2 (foldl δ s tr) (m w).1.

(** The same for properties of the observer alone. *)
Definition tracksS {S A} (δ : S → Event → S) (P : S → Prop) (m : M A)
    (Q : Outcome A → S → Prop) : Prop :=
  tracks δ (λ s _, P s) m (λ r s _, Q r s).

(** The observer that collects the cuts asked of ffmpeg. *)
Definition cutOf (e : Event) : option (Z * Z) :=
  match e with
  | EvCall (CFfmpeg _ start duration _) _ => Some (start, duration)
  | _ => None
  end.

Definition collectCuts (cuts : list (Z * Z)) (e : Event) : list (Z * Z) :=
  cuts ++ option_list (cutOf e).

(** ** Measures of the chunk windows *)

(** Where the source audio held by chunk [i] ends: [chunkSpan] after its
    start, or at the end of the audio. *)
Definition coveredEnd (duration : Q) (i : nat) : Q :=
  Qmin (inject_Z (startTime i + chunkSpan)) duration.

(** The seconds of source audio that chunks [i] and [i + 1] share. *)
Definition sourceOverlap (duration : Q) (i : nat) : Q :=
  (coveredEnd duration i - inject_Z (startTime (S i)))%Q.

(** The start and duration of every cut asked of ffmpeg, in order. *)
Definition ffmpegCuts (tr : list Event) : list (Z * Z) :=
  foldl collectCuts [] tr.

(** ** The specification's indexed transcripts *)



(** ** Sample worlds *)

Definition emptyWorld : World :=
  {| progressStore := ∅; disk := ∅; now := 1700000000000;
     timers := []; console := [] |}.

Definition sampleItem : Item :=
  {| title := Some "Ep"; pubDate := None; itunes_duration := None;
     enclosure_url := Some "http://cdn.example/ep.mp3" |}.

(** A world in which every lookup succeeds: the download is [size] bytes
    long and lasts 1200 seconds; the speech-to-text call and the compression
    answer as given. *)
Definition sampleEnv (size : N) (groq : Outcome Transcription)
    (compress : Outcome N) : Env :=
  {| GEMINI_API_KEY := false;
     WEBHOOK_URL := false;
     getData := λ _, Ok (Some {| name := "Ep"; subtitle := "Pod" |});
     findRssFeed := λ _, Ok (Some "http://feed.example/rss");
     parseURL := λ _, Ok [sampleItem];
     calculateMatchScore := λ _ _, 1%Q;
     axiosGet := λ _, Ok [(50, 100); (100, 100)];
     writeStream := λ _ _, Ok size;
     ffprobe := λ _, Ok 1200%Q;
     ffmpegCut := λ _ _ _ _, Ok 1000%N;
     execFfmpeg := λ _ _, compress;
     groqCreate := λ _, groq;
     geminiGenerate := λ _ _, Ok None;
     webhookPost := λ _, Ok () |}.

Definition sampleUrl : option string :=
  Some "https://open.spotify.com/episode/abc123".

(** The sample world with a download that reports the given byte counts
    (loaded, total); the file is within the size limit. *)
Definition reportingEnv (events : list (Z * Z)) : Env :=
  let env := sampleEnv 1000 (Ok {| text := lit "hi" |}) (Ok 500%N) in
  {| GEMINI_API_KEY := GEMINI_API_KEY env;
     WEBHOOK_URL := WEBHOOK_URL env;
     getData := getData env;
     findRssFeed := findRssFeed env;
     parseURL := parseURL env;
     calculateMatchScore := calculateMatchScore env;
     axiosGet := λ _, Ok events;
     writeStream := writeStream env;
     ffprobe := ffprobe env;
     ffmpegCut := ffmpegCut env;
     execFfmpeg := execFfmpeg env;
     groqCreate := groqCreate env;
     geminiGenerate := geminiGenerate env;
     webhookPost := webhookPost env |}.

(** ** What a job leaves alone *)

(** [stable R m]: every run of [m] relates the world before to the world
    after. *)
Definition stable {A} (R : World → World → Prop) (m : M A) : Prop :=
  ∀ w, R w (m w).1.

(** Timers and clock are untouched and no job leaves the job table. *)
Definition keepsJobs (w w' : World) : Prop :=
  timers w' = timers w ∧ now w' = now w ∧
  ∀ j, is_Some (progressStore w !! j) → is_Some (progressStore w' !! j).

(** The world after the sample job has completed. *)
Definition completedWorld : World :=
  (postTranscript
     (sampleEnv 1000 (Ok {| text := lit " hello world" |}) (Ok 500%N))
     "job1" sampleUrl None emptyWorld).1.

(** ** The order of the published percentages *)

(** The percentages published for a step, in order. *)
Definition percentages (step : string) (tr : list Event) : list Z :=
  omap (λ e, match e with
             | EvProgress _ s p _ => if bool_decide (s = step) then Some p else None
             | EvCall _ _ => None
             end) tr.

(** The steps in the order in which a job goes through them. *)
Definition stepOrder : list string :=
  [ "metadata"; "rss"; "parse"; "download"; "compress"; "splitting";
    "transcribe"; "merge"; "summary"; "complete"; "error" ].

Fixpoint indexOf (s : string) (l : list string) : nat :=
  match l with
  | [] => 0
  | x :: l' => if String.eqb s x then 0 else S (indexOf s l')
  end.

Definition stepRank (step : string) : nat := indexOf step stepOrder.

(** [follows a b]: the publication [b] may come after the publication [a]:
    a later step, or the same step with a percentage that is not lower;
    the step [transcribe] may also go back. *)
Definition follows (a b : string * Z) : Prop :=
  (stepRank a.1 < stepRank b.1)%nat ∨
  (a.1 = b.1 ∧ (a.2 ≤ b.2 ∨ a.1 = "transcribe")).

Global Instance follows_dec a b : Decision (follows a b).
Proof. unfold follows. apply _. Defined.

(** The observer of the order: the last publication, [Some None] before the
    first one, [None] once a publication was out of range or out of order. *)
Definition inOrder (st : option (option (string * Z))) (e : Event)
    : option (option (string * Z)) :=
  match e, st with
  | EvProgress _ s p _, Some last =>
      if bool_decide (0 ≤ p ≤ 100) &&
         match last with
         | Some k => bool_decide (follows k (s, p))
         | None => true
         end
      then Some (Some (s, p)) else None
  | _, _ => st
  end.

(** The observer is in order and its last publication may be followed
    by [k]. *)
Definition below (k : string * Z) (st : option (option (string * Z))) : Prop :=
  match st with
  | Some (Some k') => follows k' k
  | Some None => True
  | None => False
  end.

(** [mono k1 k2 m]: if what was published before may be followed by [k1],
    then all that [m] publishes is in range and in order, and may be
    followed by [k2]. *)
Definition mono {A} (k1 k2 : string * Z) (m : M A) : Prop :=
  tracksS inOrder (below k1) m (λ _, below k2).

(** The publications of a trace: step and percentage, in order. *)
Definition publications (tr : list Event) : list (string * Z) :=
  omap (λ e, match e with
             | EvProgress _ s p _ => Some (s, p)
             | EvCall _ _ => None
             end) tr.

(** The percentages of one step among publications. *)
Definition percentagesOf (step : string) (ks : list (string * Z)) : list Z :=
  omap (λ k : string * Z,
          if bool_decide (k.1 = step) then Some k.2 else None) ks.

(** The progress events that a download reports are well formed: one total,
    and byte counts that do not decrease and do not exceed it. *)
Definition downloadEventsOk (events : list (Z * Z)) : Prop :=
  ∃ total, Forall (λ e, e.2 = total ∧ 0 ≤ e.1 ≤ total) events ∧
           StronglySorted Z.le events.*1.

(** ** The course of a job *)

(** The calls whose failure ends the job.  The others are made inside a
    [try] whose [catch] goes on: the compression, the summary, the webhook
    and the deletion of a file. *)
Definition fatal (c : Call) : bool :=
  match c with
  | CExecFfmpeg _ _ | CGemini | CWebhook _ | CUnlink _ => false
  | _ => true
  end.



(** Where a job is, as seen from the console. *)
Inductive Phase :=
  | Running
  | Pending (message : string)
  | Errored (caught : bool) (message : string)
  | Violated.

(** The observer of the course of the job [jobId]:
    - while [Running], the failure of a fatal call makes the job [Pending]
      with the message of the failure, and the publication of the step
      [error], which must be at 100, makes it [Errored];
    - while [Pending], files may be deleted, and then the step [error] must
      be published at 100 with the pending message;
    - once [Errored], nothing more may happen, except the webhook after an
      error that was published without a failed call;
    - anything else is [Violated]. *)
Definition watch (jobId : string) (ph : Phase) (e : Event) : Phase :=
  match ph, e with
  | Running, EvProgress j s p m =>
      if bool_decide (j = jobId) then
        if bool_decide (s = "error") then
          if bool_decide (p = 100) then Errored false m else Violated
        else Running
      else Violated
  | Running, EvCall c (Some m) => if fatal c then Pending m else Running
  | Running, EvCall c None => Running
  | Pending m, EvCall (CUnlink _) _ => Pending m
  | Pending m, EvProgress j s p m' =>
      if bool_decide (j = jobId ∧ s = "error" ∧ p = 100 ∧ m' = orDefault m)
      then Errored true m' else Violated
  | Pending _, EvCall _ _ => Violated
  | Errored false m, EvCall (CWebhook _) _ => Errored false m
  | Errored _ _, _ => Violated
  | Violated, _ => Violated
  end.

(** [quiet jobId m]: run while the job is running, [m] leaves it running,
    whether it returns or throws. *)
Definition quiet {A} (jobId : string) (m : M A) : Prop :=
  tracksS (watch jobId) (eq Running) m (λ _, eq Running).

(** [propagates jobId m]: run while the job is running, [m] leaves it
    running, or throws the failure of a fatal call right after the call. *)
Definition propagates {A} (jobId : string) (m : M A) : Prop :=
  tracksS (watch jobId) (eq Running) m
    (λ r ph, match r with
             | Ok _ => Running = ph
             | Throw e => Running = ph ∨ Pending e = ph
             end).

(** The snapshot of a failed job: [complete: true] and the step [error] at
    100 with the message. *)
Definition failedSnapshot (jobId message : string) (w : World) : Prop :=
  ∃ progress timestamp,
    progressStore w !! jobId = Some progress ∧
    progress !! "complete" = Some PTrue ∧
    progress !! "error" = Some (PStep 100 message timestamp).

(** The snapshot of a completed job: [complete: true] and the result. *)
Definition completedSnapshot (jobId : string) (w : World) : Prop :=
  ∃ progress result,
    progressStore w !! jobId = Some progress ∧
    progress !! "complete" = Some PTrue ∧
    progress !! "result" = Some (PResult result).

(** How the [catch] block ends: the error published, and the snapshot of a
    failed job. *)
Definition failed (jobId : string) (ph : Phase) (w : World) : Prop :=
  ∃ caught message,
    Errored caught message = ph ∧ failedSnapshot jobId message w.

(** How a job that was started ends: without any error and with the
    snapshot of a completed job, or failed. *)
Definition ended (jobId : string) (ph : Phase) (w : World) : Prop :=
  (Running = ph ∧ completedSnapshot jobId w) ∨ failed jobId ph w.

(** What a step that resolves something leaves behind: the job running
    when it returns what it looked for; the error published and the snapshot
    of a failed job when it returns nothing; a thrown failure otherwise. *)
Definition resolved {X} (jobId : string) (r : Outcome (option X))
    (ph : Phase) (w : World) : Prop :=
  match r with
  | Ok (Some _) => Running = ph
  | Ok None => ∃ message,
      Errored false message = ph ∧ failedSnapshot jobId message w
  | Throw e => Running = ph ∨ Pending e = ph
  end.

(** How far the resolution of the episode gets: to the parsed feed when it
    returns an episode, and otherwise no further than the error. *)
Definition resolvedUpTo (r : Outcome (option (Item * string)))
    (st : option (option (string * Z))) : Prop :=
  match r with
  | Ok (Some _) => below ("parse", 100) st
  | _ => below ("error", 100) st
  end.

(** [Math.round((k / n) * 100)] *)
Definition ratioPercentage (k n : Z) : Z :=
  jsRound (toDouble (toDouble (inject_Z k / inject_Z n) * 100))%Q.

(** ** More samples *)

(** A later transcription of 22 space-separated pieces. *)
Definition sampleLater : Transcription :=
  {| text := lit "1 2 3 4 5 6 7 8 9 10 11 12 13 14 15 16 17 18 19 20 b c" |}.

(** ** The loop that picks the episode *)

(** One iteration of the [forEach] of the handler over the feed items, on
    its variables [bestMatch] and [bestScore]. *)
Definition pick (env : Env) (episodeName : string) (best : option Item * Q)
    (item : Item) : option Item * Q :=
  if negb (Qle_bool (calculateMatchScore env item episodeName) (snd best))
  then (Some item, calculateMatchScore env item episodeName)
  else best.

(** What the loop has established after the items [seen]: no item yet and
    no positive score, or the first of the items with the highest score. *)
Definition leads (env : Env) (episodeName : string) (seen : list Item)
    (best : option Item * Q) : Prop :=
  match best.1 with
  | None =>
      best.2 = 0%Q ∧
      ∀ item, item ∈ seen → (calculateMatchScore env item episodeName <= 0)%Q
  | Some b =>
      best.2 = calculateMatchScore env b episodeName ∧
      (0 < calculateMatchScore env b episodeName)%Q ∧
      ∃ pre post, seen = pre ++ b :: post ∧
        (∀ item, item ∈ pre →
           (calculateMatchScore env item episodeName
            < calculateMatchScore env b episodeName)%Q) ∧
        (∀ item, item ∈ post →
           (calculateMatchScore env item episodeName
            <= calculateMatchScore env b episodeName)%Q)
  end.

(** ** The page: [public/app.js] *)

Module App.

(** [/^https?:\/\/open\.spotify\.com\/episode\/[a-zA-Z0-9]+/.test(url)] *)
Definition isValidSpotifyUrl (url : string) : bool :=
  let afterScheme :=
    if String.prefix "https://" url then Some (dropString 8 url)
    else if String.prefix "http://" url then Some (dropString 7 url)
    else None in
  match afterScheme with
  | Some rest =>
      String.prefix "open.spotify.com/episode/" rest &&
      match takeAlnum (dropString 25 rest) with
      | EmptyString => false
      | _ => true
      end
  | None => false
  end.

Definition AMP : N := 38%N.
Definition LT : N := 60%N.
Definition GT : N := 62%N.
Definition NEWLINE : N := 10%N.

(** [s.replace(/c/g, rep)] for a pattern of one character [c] and a
    replacement without [$]. *)
Definition replaceAll (c : N) (rep s : jsstring) : jsstring :=
  s ≫= λ x, if (x =? c)%N then rep else [x].

Definition escapeHtml (text : jsstring) : jsstring :=
  replaceAll GT (lit "&gt;")
    (replaceAll LT (lit "&lt;")
       (replaceAll AMP (lit "&amp;") text)).

(** [s.startsWith(p)] *)
Definition startsWith (p s : jsstring) : bool :=
  bool_decide (take (length p) s = p).

(** [parts.join('\n')] *)
Fixpoint join_newline (parts : list jsstring) : jsstring :=
  match parts with
  | [] => []
  | [p] => p
  | p :: parts' => p ++ NEWLINE :: join_newline parts'
  end.

(** [if (inList) { htmlParts.push('</ul>'); inList = false; }] *)
Definition closeList (htmlParts : list jsstring) (inList : bool)
    : list jsstring :=
  if inList then htmlParts ++ [lit "</ul>"] else htmlParts.

(** The [for] loop of [renderSummaryMarkdown] over the lines, with the
    variables [htmlParts] and [inList]; the result is [htmlParts] after the
    last [if (inList)]. *)
Fixpoint renderLines (lines : list jsstring) (htmlParts : list jsstring)
    (inList : bool) : list jsstring :=
  match lines with
  | [] => closeList htmlParts inList
  | rawLine :: rest =>
      let line := trimEnd rawLine in
      if bool_decide (trim line = []) then
        renderLines rest (closeList htmlParts inList ++ [lit "<br>"]) false
      else if startsWith (lit "### ") line then
        let content := escapeHtml (trim (drop 4 line)) in
        renderLines rest
          (closeList htmlParts inList ++ [lit "<h3>" ++ content ++ lit "</h3>"])
          false
      else if startsWith (lit "## ") line then
        let content := escapeHtml (trim (drop 3 line)) in
        renderLines rest
          (closeList htmlParts inList ++ [lit "<h2>" ++ content ++ lit "</h2>"])
          false
      else if startsWith (lit "- ") line then
        let content := escapeHtml (trim (drop 2 line)) in
        renderLines rest
          ((if inList then htmlParts else htmlParts ++ [lit "<ul>"])
             ++ [lit "<li>" ++ content ++ lit "</li>"])
          true
      else
        renderLines rest
          (closeList htmlParts inList
             ++ [lit "<p>" ++ escapeHtml (trim line) ++ lit "</p>"])
          false
  end.

(** [htmlParts] at the [return] of [renderSummaryMarkdown]. *)
Definition renderedParts (markdown : jsstring) : list jsstring :=
  renderLines (split_on (λ c, (c =? NEWLINE)%N) markdown) [] false.

Definition renderSummaryMarkdown (markdown : jsstring) : jsstring :=
  if bool_decide (markdown = []) then []
  else join_newline (renderedParts markdown).

End App.

(** What [escapeHtml] makes of one code unit. *)
Definition entity (c : N) : jsstring :=
  if (c =? App.AMP)%N then lit "&amp;"
  else if (c =? App.LT)%N then lit "&lt;"
  else if (c =? App.GT)%N then lit "&gt;"
  else [c].

(** What a part of the rendered summary is: a break, the start or the end
    of a list, or a text between the tags of an element. *)
Inductive PartKind :=
  | KBreak
  | KListStart
  | KListEnd
  | KElement (tag : string) (content : jsstring).

Definition partOf (k : PartKind) : jsstring :=
  match k with
  | KBreak => lit "<br>"
  | KListStart => lit "<ul>"
  | KListEnd => lit "</ul>"
  | KElement tag content =>
      lit ("<" +:+ tag +:+ ">") ++ content ++ lit ("</" +:+ tag +:+ ">")
  end.

(** The list items of a sequence of parts are inside lists, everything else
    is outside, and the lists do not nest; [inList] tells whether a list is
    open before the parts, and the result whether one is open after them. *)
Fixpoint listsNest (inList : bool) (ks : list PartKind) : option bool :=
  match ks with
  | [] => Some inList
  | k :: ks' =>
      match k, inList with
      | KListStart, false => listsNest true ks'
      | KListEnd, true => listsNest false ks'
      | KElement tag _, _ =>
          if bool_decide (inList = bool_decide (tag = "li"))
          then listsNest inList ks' else None
      | KBreak, false => listsNest false ks'
      | _, _ => None
      end
  end.

(** The element is one of the four that the renderer writes, and its text
    holds no angle bracket. *)
Definition partOk (k : PartKind) : Prop :=
  match k with
  | KElement tag content =>
      tag ∈ ["h3"; "h2"; "li"; "p"] ∧
      (App.LT ∉ content) ∧ (App.GT ∉ content)
  | _ => True
  end.

Definition wellFormed (ks : list PartKind) : Prop :=
  listsNest false ks = Some false ∧ Forall partOk ks.

(** What the loop of the renderer keeps: the parts so far are well formed,
    and [inList] tells whether their last list is still open. *)
Definition rendered (htmlParts : list jsstring) (inList : bool) : Prop :=
  ∃ ks, htmlParts = partOf <$> ks ∧ listsNest false ks = Some inList ∧
        Forall partOk ks.

(** ** What a job does to the state of the server *)

(** Only the entry of the job [jobId] may differ. *)
Definition keepsOthers (jobId : string) (w w' : World) : Prop :=
  ∀ j, j ≠ jobId → progressStore w' !! j = progressStore w !! j.

(** What was last published for a step of a job, among some events. *)
Definition lastPublished (jobId step : string) (tr : list Event)
    : option (Z * string) :=
  last (omap (λ e, match e with
                   | EvProgress j s p m =>
                       if bool_decide (j = jobId ∧ s = step)
                       then Some (p, m) else None
                   | EvCall _ _ => None
                   end) tr).

(** The property [key] of the progress object of a job. *)
Definition property (jobId key : string) (w : World) : option PVal :=
  progressStore w !! jobId ≫= (.!! key).

(** [mirrors jobId w w']: the snapshot shows what the console says.  Of the
    events printed between [w] and [w'], the last publication for a step is
    the entry of the step in the snapshot of [w']; a step without
    publication has the entry that it had.  The keys [complete] and
    [result] are also assigned directly and are left out. *)
Definition mirrors (jobId : string) (w w' : World) : Prop :=
  now w' = now w ∧
  ∃ tr, console w' = console w ++ tr ∧
    ∀ step, step ≠ "complete" → step ≠ "result" →
      property jobId step w' =
      match lastPublished jobId step tr with
      | Some (p, m) => Some (PStep p m (now w))
      | None => property jobId step w
      end.

(** A job without a result stays without one. *)
Definition staysUnset (jobId : string) (w w' : World) : Prop :=
  property jobId "result" w = None → property jobId "result" w' = None.

(** ** Scratch files *)

(** [hoare P m Q]: run in a world that satisfies [P], the computation [m]
    leaves a world that satisfies [Q] for its outcome. *)
Definition hoare {A} (P : World → Prop) (m : M A)
    (Q : Outcome A → World → Prop) : Prop :=
  ∀ w, P w → Q (m w).2 (m w).1.

(** The disk and the clock are as before. *)
Definition keepsFiles (w w' : World) : Prop :=
  disk w' = disk w ∧ now w' = now w.

(** The path that [downloadAudio] writes to at time [t], and the same
    without its extension. *)
Definition downloadPath (episodeId : string) (t : Z) : string :=
  TEMP_DIR +:+ "/" +:+ (episodeId +:+ "_" +:+ pretty t +:+ ".mp3").

Definition stem (episodeId : string) (t : Z) : string :=
  TEMP_DIR +:+ "/" +:+ episodeId +:+ "_" +:+ pretty t.

(** The path of chunk [i] of [inputPath], as [splitAudioIntoChunks] names
    it, and the path of the compressed file, as [compressAudio] names it. *)
Definition chunkPath (inputPath : string) (i : nat) : string :=
  replaceFirst ".mp3" ("_chunk_" +:+ pretty i +:+ ".mp3") inputPath.

Definition compressedPath (inputPath : string) : string :=
  replaceFirst ".mp3" "_compressed.mp3" inputPath.

Definition DOT : Ascii.ascii := Eval cbv in Ascii.ascii_of_N 46.

(** No full stop in the string. *)
Fixpoint noDot (s : string) : bool :=
  match s with
  | EmptyString => true
  | String c s' => negb (Ascii.eqb c DOT) && noDot s'
  end.

(** ** The progress stream: [GET /api/progress/:jobId] *)

(** What is written to the response: the greeting, or the progress object
    of the job as it is when the interval fires. *)
Inductive Frame :=
  | FConnected
  | FProgress (progress : gmap string PVal).

(** The response of one request: what was written, whether the interval is
    still set, and whether the response was ended. *)
Record Stream := {
  written : list Frame;
  polling : bool;
  finished : bool }.

(** The handler: the headers, the greeting and [setInterval]. *)
Definition openStream : Stream :=
  {| written := [FConnected]; polling := true; finished := false |}.

(** The callback of the interval.  Every value that the key [complete] can
    hold is truthy. *)
Definition onInterval (jobId : string) (w : World) (s : Stream) : Stream :=
  match progressStore w !! jobId with
  | Some progress =>
      let written' := written s ++ [FProgress progress] in
      if bool_decide (is_Some (progress !! "complete"))
      then {| written := written'; polling := false; finished := true |}
      else {| written := written'; polling := polling s;
              finished := finished s |}
  | None => s
  end.

(** The timer runs the callback while the interval is set. *)
Definition tick (jobId : string) (s : Stream) (w : World) : Stream :=
  if polling s then onInterval jobId w s else s.

(** [req.on('close')] *)
Definition onClose (s : Stream) : Stream :=
  {| written := written s; polling := false; finished := true |}.

(** The stream over the worlds in which the interval fires, while the
    client stays connected. *)
Definition pollAll (jobId : string) (ws : list World) : Stream :=
  foldl (tick jobId) openStream ws.

(** What happens to an open stream: the interval fires, in some state of
    the server, or the client disconnects. *)
Inductive StreamEvent :=
  | Tick (w : World)
  | Close.

Definition streamStep (jobId : string) (s : Stream) (ev : StreamEvent)
    : Stream :=
  match ev with
  | Tick w => tick jobId s w
  | Close => onClose s
  end.

(** The response over the events of its connection. *)
Definition runStream (jobId : string) (evs : list StreamEvent) : Stream :=
  foldl (streamStep jobId) openStream evs.

(** The states of the server at the ticks before the client disconnects. *)
Fixpoint ticksBeforeClose (evs : list StreamEvent) : list World :=
  match evs with
  | Tick w :: evs' => w :: ticksBeforeClose evs'
  | _ => []
  end.

(** Whether the client disconnects. *)
Definition disconnects (evs : list StreamEvent) : bool :=
  existsb (λ ev, match ev with Close => true | Tick _ => false end) evs.

(** The snapshots up to the first one that has the key [complete], that
    one included. *)
Fixpoint untilComplete (snapshots : list (gmap string PVal))
    : list (gmap string PVal) :=
  match snapshots with
  | [] => []
  | progress :: rest =>
      if bool_decide (is_Some (progress !! "complete")) then [progress]
      else progress :: untilComplete rest
  end.

(** ** Finding the feed: [findRssFeed] and its two searches *)

Module Discovery.

(** What is read of a feed of the Podcast Index and of a podcast of the
    iTunes search. *)
Record Feed := { url : option string }.

Record Podcast := {
  collectionName : option string;
  feedUrl : option string }.

(** The two directories, as the search sees them. *)
Record Directories := {
  (** whether the environment variable is set *)
  PODCAST_INDEX_KEY : bool;
  PODCAST_INDEX_SECRET : bool;
  (** [response.data.feeds] of the Podcast Index search *)
  podcastIndexSearch : string → Outcome (option (list Feed));
  (** [searchResponse.data.results] of the iTunes search *)
  itunesSearch : string → Outcome (option (list Podcast));
  (** [stringSimilarity.compareTwoStrings(a.toLowerCase(), b.toLowerCase())] *)
  similarity : string → string → Q }.

Definition PODCAST_INDEX_URL : string :=
  "https://api.podcastindex.org/api/1.0/search/byterm".

Definition ITUNES_URL : string := "https://itunes.apple.com/search".

Section Searches.

Variable dirs : Directories.

Definition searchPodcastIndex (podcastName : string) : M (list Feed) :=
  tryCatch
    (if negb (PODCAST_INDEX_KEY dirs) || negb (PODCAST_INDEX_SECRET dirs)
     then mret []
     else
       feeds ← call (CAxiosGet PODCAST_INDEX_URL)
                    (podcastIndexSearch dirs podcastName);
       mret (default [] feeds))
    (λ _, mret []).

(** The [forEach] of [searchApplePodcasts], with its variables [bestFeed] and
    [bestScore]; a result without [collectionName] makes it throw. *)
Fixpoint bestFeedLoop (podcastName : string) (results : list Podcast)
    (bestFeed : option string) (bestScore : Q) : M (option string * Q) :=
  match results with
  | [] => mret (bestFeed, bestScore)
  | podcast :: rest =>
      match collectionName podcast with
      | None =>
          throw "Cannot read properties of undefined (reading 'toLowerCase')"
      | Some name =>
          let score := similarity dirs name podcastName in
          if negb (Qle_bool score bestScore)
          then bestFeedLoop podcastName rest (feedUrl podcast) score
          else bestFeedLoop podcastName rest bestFeed bestScore
      end
  end.

Definition searchApplePodcasts (podcastName : string) : M (option string) :=
  tryCatch
    (results ← call (CAxiosGet ITUNES_URL) (itunesSearch dirs podcastName);
     match results with
     | None | Some [] => mret None
     | Some results =>
         best ← bestFeedLoop podcastName results None 0%Q;
         if negb (Qle_bool (4 # 10) best.2) then mret None
         else mret best.1
     end)
    (λ _, mret None).

Definition findRssFeed (podcastName : string) : M (option string) :=
  podcastIndexResults ← searchPodcastIndex podcastName;
  match podcastIndexResults with
  | first :: _ => mret (url first)
  | [] =>
      applePodcastsFeed ← searchApplePodcasts podcastName;
      if truthy applePodcastsFeed then mret applePodcastsFeed else mret None
  end.

End Searches.

End Discovery.

(** What the loop over the iTunes results has established: no result seen
    so far scores above [bestScore], which is zero or the score of a result
    whose feed is [bestFeed]. *)
Definition bestSoFar (dirs : Discovery.Directories) (podcastName : string)
    (seen : list Discovery.Podcast) (bestFeed : option string) (bestScore : Q)
    : Prop :=
  (∀ podcast name, podcast ∈ seen →
     Discovery.collectionName podcast = Some name →
     (Discovery.similarity dirs name podcastName <= bestScore)%Q) ∧
  ((bestFeed = None ∧ bestScore = 0%Q) ∨
   ∃ podcast name, podcast ∈ seen ∧
     Discovery.collectionName podcast = Some name ∧
     Discovery.feedUrl podcast = bestFeed ∧
     bestScore = Discovery.similarity dirs name podcastName).

(** * Properties *)

(** ** The merge *)

Section Merge.

Implicit Types (t : Transcription) (ts rest : list Transcription).

Lemma overlapWords_eq : overlapWords = 20%nat.
Proof. reflexivity. Qed.

(** After the first iteration every iteration appends a space and the
    text without its overlap. *)
Lemma mergeLoop_later rest : ∀ i acc,
  (0 < i)%nat →
  mergeLoop i rest acc =
  acc ++ concat ((λ t, SPACE :: textWithoutOverlap (text t)) <$> rest).
Proof.
  induction rest as [|t rest IH]; intros i acc Hi; simpl.
  - by rewrite app_nil_r.
  - destruct i as [|i]; [lia|]. simpl.
    rewrite IH by lia. by rewrite <- app_assoc.
Qed.

Lemma mergeTranscriptions_many t0 t1 rest :
  mergeTranscriptions (t0 :: t1 :: rest) =
  trim (text t0 ++
        concat ((λ t, SPACE :: textWithoutOverlap (text t)) <$> (t1 :: rest))).
Proof.
  unfold mergeTranscriptions.
  change (mergeLoop 0 (t0 :: t1 :: rest) [])
    with (mergeLoop 1 (t1 :: rest) (text t0)).
  by rewrite mergeLoop_later by lia.
Qed.

Lemma split_space_nonempty s : split_space s ≠ [].
Proof.
  destruct s as [|c s]; simpl; [done|].
  destruct (c =? SPACE)%N; [done|]. by destruct (split_space s).
Qed.

Lemma textWithoutOverlap_short s :
  (length (split_space s) ≤ 20)%nat → textWithoutOverlap s = [].
Proof.
  intros H. unfold textWithoutOverlap, slice_from.
  rewrite overlapWords_eq. by rewrite drop_ge.
Qed.

Lemma textWithoutOverlap_empty : textWithoutOverlap [] = [].
Proof. reflexivity. Qed.

End Merge.

(** C7, as the code has it: a single transcript is returned verbatim, edge
    whitespace included; the result is the trimmed text exactly when the
    text has no whitespace at its edges. *)
Theorem merge_single_verbatim (t : Transcription) :
  mergeTranscriptions [t] = text t ∧
  (mergeTranscriptions [t] = trim (text t) ↔ trim (text t) = text t).
Proof.
  split; [reflexivity|]. simpl. split; intros H; by symmetry.
Qed.

(** C7 as stated fails: for the transcript [" a"] the result is the text
    unchanged, and so it is not trimmed. *)
Lemma merge_single_not_trimmed :
  ¬ (mergeTranscriptions [ {| text := lit " a" |} ] = lit " a" ∧
     mergeTranscriptions [ {| text := lit " a" |} ] = trim (lit " a")).
Proof. intros [_ H]. vm_compute in H. discriminate H. Qed.

(** C2, as the code has it: for more than one transcript the result is the
    first text followed, for each later transcript in order, by a space and
    the text cut at every single space character with its first 20 pieces
    dropped and the rest joined by single spaces; the whole is trimmed. *)
Theorem merge_drops_twenty_space_pieces (t0 : Transcription)
    (rest : list Transcription) :
  rest ≠ [] →
  mergeTranscriptions (t0 :: rest) =
  trim (text t0 ++
        concat ((λ t, SPACE :: join_space (drop 20 (split_space (text t))))
                  <$> rest)).
Proof.
  intros Hrest. destruct rest as [|t1 rest]; [done|].
  apply mergeTranscriptions_many.
Qed.

Lemma merge_drops_twenty_space_pieces_witness :
  [ {| text := lit " b" |} ] ≠ [] ∧
  mergeTranscriptions [ {| text := lit "a" |}; {| text := lit " b" |} ] =
  trim (lit "a" ++
        concat ((λ t, SPACE :: join_space (drop 20 (split_space (text t))))
                  <$> [ {| text := lit " b" |} ])).
Proof.
  split; [done|].
  apply (merge_drops_twenty_space_pieces {| text := lit "a" |}
           [ {| text := lit " b" |} ]); done.
Defined.

(** C2 as stated fails: a text that starts with a space has an empty first
    piece, so the code drops one word fewer than the 20
    whitespace-delimited tokens of the specification. *)
Lemma merge_not_whitespace_tokens :
  mergeTranscriptions
    [ {| text := lit "a" |};
      {| text := lit " 1 2 3 4 5 6 7 8 9 10 11 12 13 14 15 16 17 18 19 20 21" |} ]
  ≠ specMerge
    [ {| text := lit "a" |};
      {| text := lit " 1 2 3 4 5 6 7 8 9 10 11 12 13 14 15 16 17 18 19 20 21" |} ].
Proof. vm_compute. discriminate. Qed.

(** C10: a later transcript of at most 20 space-separated pieces is dropped
    whole: what the merge keeps of it is the empty string, and the merged
    text is the one obtained with that transcript's text emptied. *)
Theorem merge_discards_short_transcript (ts : list Transcription) (i : nat)
    (t : Transcription) :
  (0 < i)%nat →
  ts !! i = Some t →
  (length (split_space (text t)) ≤ 20)%nat →
  textWithoutOverlap (text t) = [] ∧
  mergeTranscriptions ts = mergeTranscriptions (<[i := {| text := [] |}]> ts).
Proof.
  intros Hi Ht Hshort.
  pose proof (textWithoutOverlap_short _ Hshort) as Hnil.
  split; [done|].
  destruct ts as [|t0 rest]; [done|].
  destruct i as [|i]; [lia|]. simpl in Ht.
  destruct rest as [|t1 rest]; [done|].
  change (<[S i := {| text := [] |}]> (t0 :: t1 :: rest))
    with (t0 :: <[i := {| text := [] |}]> (t1 :: rest)).
  assert (∃ t1' rest', <[i := {| text := [] |}]> (t1 :: rest) = t1' :: rest')
    as (t1' & rest' & Heq) by (destruct i; simpl; eauto).
  assert ((λ t, SPACE :: textWithoutOverlap (text t))
            <$> <[i := {| text := [] |}]> (t1 :: rest)
          = (λ t, SPACE :: textWithoutOverlap (text t)) <$> (t1 :: rest))
    as Hmap.
  { rewrite list_fmap_insert. apply list_insert_id.
    rewrite list_lookup_fmap, Ht. cbn [fmap option_fmap option_map text].
    by rewrite Hnil. }
  rewrite mergeTranscriptions_many.
  rewrite Heq, mergeTranscriptions_many, <- Heq.
  by rewrite Hmap.
Qed.

Lemma merge_discards_short_transcript_witness :
  (0 < 1)%nat ∧
  [ {| text := lit "a" |}; {| text := lit "b c" |} ] !! 1%nat
    = Some {| text := lit "b c" |} ∧
  (length (split_space (text {| text := lit "b c" |})) ≤ 20)%nat ∧
  textWithoutOverlap (text {| text := lit "b c" |}) = [] ∧
  mergeTranscriptions [ {| text := lit "a" |}; {| text := lit "b c" |} ] =
  mergeTranscriptions
    (<[1%nat := {| text := [] |}]>
       [ {| text := lit "a" |}; {| text := lit "b c" |} ]).
Proof.
  assert (H1 : (0 < 1)%nat) by lia.
  assert (H3 : (length (split_space (text {| text := lit "b c" |})) ≤ 20)%nat)
    by (vm_compute; lia).
  split; [exact H1|]. split; [reflexivity|]. split; [exact H3|].
  exact (merge_discards_short_transcript
           [ {| text := lit "a" |}; {| text := lit "b c" |} ] 1
           {| text := lit "b c" |} H1 eq_refl H3).
Defined.

(** ** Reasoning about what a computation prints *)

Section Tracking.

Context {S : Type} (δ : S → Event → S).

Local Abbreviation tracks := (tracks δ).
Local Abbreviation tracksS := (tracksS δ).

Lemma tracks_conseq {A} (P P' : S → World → Prop) (m : M A)
    (Q Q' : Outcome A → S → World → Prop) :
  tracks P' m Q' →
  (∀ s w, P s w → P' s w) →
  (∀ r s w, Q' r s w → Q r s w) →
  tracks P m Q.
Proof.
  intros Hm HP HQ w. destruct (Hm w) as (tr & Hc & H).
  exists tr. split; [done|]. intros s Hs. apply HQ, H, HP, Hs.
Qed.

Lemma tracks_silent {A} (P : S → World → Prop) (m : M A)
    (Q : Outcome A → S → World → Prop) :
  (∀ w, console (m w).1 = console w) →
  (∀ s w, P s w → Q (m w).2 s (m w).1) →
  tracks P m Q.
Proof.
  intros Hc H w. exists []. rewrite app_nil_r. split; [apply Hc|].
  intros s Hs. by apply H.
Qed.

Lemma tracks_ret {A} (P : S → World → Prop) (a : A)
    (Q : Outcome A → S → World → Prop) :
  (∀ s w, P s w → Q (Ok a) s w) → tracks P (mret a) Q.
Proof. intros H. apply tracks_silent; [done|]. intros s w. apply H. Qed.

Lemma tracks_throw {A} (P : S → World → Prop) (e : string)
    (Q : Outcome A → S → World → Prop) :
  (∀ s w, P s w → Q (Throw e) s w) → tracks P (throw e) Q.
Proof. intros H. apply tracks_silent; [done|]. intros s w. apply H. Qed.

Lemma tracks_bind {A B} (P : S → World → Prop) (m : M A) (f : A → M B)
    (Q1 : Outcome A → S → World → Prop) (Q : Outcome B → S → World → Prop) :
  tracks P m Q1 →
  (∀ a, tracks (Q1 (Ok a)) (f a) Q) →
  (∀ e s w, Q1 (Throw e) s w → Q (Throw e) s w) →
  tracks P (m ≫= f) Q.
Proof.
  intros Hm Hf Hthrow w. destruct (Hm w) as (tr1 & Hc1 & H1).
  unfold mbind, M_bind. destruct (m w) as [w1 [a|e]]; simpl in *.
  - destruct (Hf a w1) as (tr2 & Hc2 & H2). exists (tr1 ++ tr2).
    split; [by rewrite Hc2, Hc1, app_assoc|].
    intros s Hs. rewrite foldl_app. by apply H2, H1.
  - exists tr1. split; [done|]. intros s Hs. by apply Hthrow, H1.
Qed.

Lemma tracks_tryCatch {A} (P : S → World → Prop) (m : M A)
    (h : string → M A) (Q1 Q : Outcome A → S → World → Prop) :
  tracks P m Q1 →
  (∀ e, tracks (Q1 (Throw e)) (h e) Q) →
  (∀ a s w, Q1 (Ok a) s w → Q (Ok a) s w) →
  tracks P (tryCatch m h) Q.
Proof.
  intros Hm Hh Hok w. destruct (Hm w) as (tr1 & Hc1 & H1).
  unfold tryCatch. destruct (m w) as [w1 [a|e]]; simpl in *.
  - exists tr1. split; [done|]. intros s Hs. by apply Hok, H1.
  - destruct (Hh e w1) as (tr2 & Hc2 & H2). exists (tr1 ++ tr2).
    split; [by rewrite Hc2, Hc1, app_assoc|].
    intros s Hs. rewrite foldl_app. by apply H2, H1.
Qed.

Lemma tracks_settle {A} (P : S → World → Prop) (m : M A)
    (Q : Outcome (Outcome A) → S → World → Prop) :
  tracks P m (λ r, Q (Ok r)) → tracks P (settle m) Q.
Proof.
  intros Hm w. destruct (Hm w) as (tr & Hc & H). unfold settle.
  destruct (m w) as [w1 r]; simpl in *. by exists tr.
Qed.

Lemma tracks_call {A} (P : S → World → Prop) (c : Call) (r : Outcome A)
    (Q : Outcome A → S → World → Prop) :
  (∀ s w, P s w →
     Q r (δ s (EvCall c (failure r))) (logEvent (EvCall c (failure r)) w)) →
  tracks P (call c r) Q.
Proof.
  intros H w. exists [EvCall c (failure r)]. split; [done|].
  intros s Hs. by apply H.
Qed.

Lemma tracks_updateProgress (P : S → World → Prop)
    (jobId step : string) (p : Z) (msg : string)
    (Q : Outcome () → S → World → Prop) :
  (∀ s w, P s w →
     Q (Ok ()) (δ s (EvProgress jobId step p msg))
       (updateProgress jobId step p msg w).1) →
  tracks P (updateProgress jobId step p msg) Q.
Proof.
  intros H w. exists [EvProgress jobId step p msg]. split; [done|].
  intros s Hs. by apply H.
Qed.

(** The same for properties of the observer alone. *)

Lemma tracksS_conseq {A} (P P' : S → Prop) (m : M A)
    (Q Q' : Outcome A → S → Prop) :
  tracksS P' m Q' → (∀ s, P s → P' s) → (∀ r s, Q' r s → Q r s) →
  tracksS P m Q.
Proof. intros Hm HP HQ. eapply tracks_conseq; [exact Hm|..]; naive_solver. Qed.

Lemma tracksS_silent {A} (P : S → Prop) (m : M A) (Q : Outcome A → S → Prop) :
  (∀ w, console (m w).1 = console w) →
  (∀ r s, P s → Q r s) →
  tracksS P m Q.
Proof. intros Hc H. apply tracks_silent; [done|]. intros s w. apply H. Qed.

Lemma tracksS_bind {A B} (P : S → Prop) (m : M A) (f : A → M B)
    (Q1 : Outcome A → S → Prop) (Q : Outcome B → S → Prop) :
  tracksS P m Q1 →
  (∀ a, tracksS (Q1 (Ok a)) (f a) Q) →
  (∀ e s, Q1 (Throw e) s → Q (Throw e) s) →
  tracksS P (m ≫= f) Q.
Proof.
  intros Hm Hf Hthrow. eapply tracks_bind; [exact Hm|exact Hf|].
  intros e s w. apply Hthrow.
Qed.

Lemma tracksS_tryCatch {A} (P : S → Prop) (m : M A) (h : string → M A)
    (Q1 Q : Outcome A → S → Prop) :
  tracksS P m Q1 →
  (∀ e, tracksS (Q1 (Throw e)) (h e) Q) →
  (∀ a s, Q1 (Ok a) s → Q (Ok a) s) →
  tracksS P (tryCatch m h) Q.
Proof.
  intros Hm Hh Hok. eapply tracks_tryCatch; [exact Hm|exact Hh|].
  intros a s w. apply Hok.
Qed.

Lemma tracksS_call {A} (P : S → Prop) (c : Call) (r : Outcome A)
    (Q : Outcome A → S → Prop) :
  (∀ s, P s → Q r (δ s (EvCall c (failure r)))) →
  tracksS P (call c r) Q.
Proof. intros H. apply tracks_call. intros s w. apply H. Qed.

Lemma tracksS_updateProgress (P : S → Prop) (jobId step : string) (p : Z)
    (msg : string) (Q : Outcome () → S → Prop) :
  (∀ s, P s → Q (Ok ()) (δ s (EvProgress jobId step p msg))) →
  tracksS P (updateProgress jobId step p msg) Q.
Proof. intros H. apply tracks_updateProgress. intros s w. apply H. Qed.

(** Symbolic execution from a known observer state. *)

Lemma tracksS_bind_silent {A B} (P : S → Prop) (m : M A) (f : A → M B)
    (Q : Outcome B → S → Prop) :
  (∀ w, console (m w).1 = console w) →
  (∀ a, tracksS P (f a) Q) →
  (∀ e s, P s → Q (Throw e) s) →
  tracksS P (m ≫= f) Q.
Proof.
  intros Hc Hf Hthrow.
  apply tracksS_bind with (Q1 := λ _ s, P s); [|done|done].
  by apply tracksS_silent.
Qed.

Lemma tracksS_bind_modify {B} (P : S → Prop) (g : World → World)
    (f : () → M B) (Q : Outcome B → S → Prop) :
  (∀ w, console (g w) = console w) →
  tracksS P (f ()) Q →
  tracksS P (modify g ≫= f) Q.
Proof.
  intros Hc Hf w. destruct (Hf (g w)) as (tr & Hc' & H).
  exists tr. split; [|done].
  change ((modify g ≫= f) w) with (f () (g w)). by rewrite Hc', Hc.
Qed.

Lemma tracksS_bind_gets {A B} (P : S → Prop) (g : World → A)
    (f : A → M B) (Q : Outcome B → S → Prop) :
  (∀ a, tracksS P (f a) Q) →
  tracksS P (gets g ≫= f) Q.
Proof. intros Hf w. apply (Hf (g w) w). Qed.

Lemma tracksS_bind_update {B} (s0 : S) (jobId step : string) (p : Z)
    (msg : string) (f : () → M B) (Q : Outcome B → S → Prop) :
  tracksS (eq (δ s0 (EvProgress jobId step p msg))) (f ()) Q →
  tracksS (eq s0) (updateProgress jobId step p msg ≫= f) Q.
Proof.
  intros Hf.
  apply tracksS_bind
    with (Q1 := λ r s, δ s0 (EvProgress jobId step p msg) = s ∧ r = Ok ()).
  - apply tracksS_updateProgress. intros s Hs. by rewrite <- Hs.
  - intros []. eapply tracksS_conseq; [exact Hf| |done].
    intros s [Hs _]. exact Hs.
  - by intros e s [_ ?].
Qed.

Lemma tracksS_bind_call {A B} (s0 : S) (c : Call) (r : Outcome A)
    (f : A → M B) (Q : Outcome B → S → Prop) :
  (∀ a, r = Ok a → tracksS (eq (δ s0 (EvCall c None))) (f a) Q) →
  (∀ e, r = Throw e → Q (Throw e) (δ s0 (EvCall c (Some e)))) →
  tracksS (eq s0) (call c r ≫= f) Q.
Proof.
  intros Hf Hthrow. destruct r as [a|e].
  - intros w. destruct (Hf a eq_refl (logEvent (EvCall c None) w))
      as (tr & Hc & H).
    exists (EvCall c None :: tr). split.
    + change ((call c (Ok a) ≫= f) w) with (f a (logEvent (EvCall c None) w)).
      rewrite Hc. simpl. by rewrite <- app_assoc.
    + intros s <-. by apply H.
  - intros w. exists [EvCall c (Some e)]. split; [done|].
    intros s <-. by apply Hthrow.
Qed.

End Tracking.

(** Operations that print nothing. *)
Lemma modify_console f :
  (∀ w, console (f w) = console w) →
  ∀ w, console (modify f w).1 = console w.
Proof. intros H w. apply H. Qed.

Lemma setProperty_console jobId key v w :
  console (setProperty jobId key v w).1 = console w.
Proof. unfold setProperty. by destruct (progressStore w !! jobId). Qed.

(** ** The chunk windows *)

Section Split.

Variable env : Env.

Lemma Qceiling_gt (x : Q) (z : Z) : z < Qceiling x → (inject_Z z < x)%Q.
Proof.
  intros H. apply Qnot_le_lt. intros Hle.
  apply Qceiling_resp_le in Hle. rewrite Qceiling_Z in Hle. lia.
Qed.

Lemma numChunks_nonneg (D : Q) : (0 <= D)%Q → 0 ≤ numChunks D.
Proof.
  intros HD. unfold numChunks.
  assert (0 <= D / inject_Z CHUNK_DURATION_SECONDS)%Q as H.
  { apply Qle_shift_div_l; [reflexivity|]. by rewrite Qmult_0_l. }
  apply Qceiling_resp_le in H. exact H.
Qed.

(** More than [k] chunks means more than [k * 600] seconds of audio. *)
Lemma numChunks_gt (D : Q) (k : nat) :
  Z.of_nat k < numChunks D → (inject_Z (Z.of_nat k * 600) < D)%Q.
Proof.
  intros H. apply Qceiling_gt in H.
  apply Qlt_shift_div_r in H; [|reflexivity].
  by rewrite inject_Z_mult.
Qed.

End Split.

Lemma foldl_collectCuts (cuts : list (Z * Z)) (tr : list Event) :
  foldl collectCuts cuts tr = cuts ++ ffmpegCuts tr.
Proof.
  unfold ffmpegCuts. revert cuts.
  induction tr as [|e tr IH] using rev_ind; intros cuts.
  - by rewrite app_nil_r.
  - rewrite !foldl_app. simpl. rewrite (IH cuts). unfold collectCuts.
    by rewrite app_assoc.
Qed.

Section SplitLoop.

Variable env : Env.

Lemma splitLoop_cuts inputPath jobId n :
  (∀ start dur out, failure (ffmpegCut env inputPath start dur out) = None) →
  ∀ todo i chunks cuts,
    tracksS collectCuts (eq cuts)
      (splitLoop env inputPath jobId n todo i chunks)
      (λ r s, ∃ chunks', r = Ok (chunks ++ chunks') ∧ length chunks' = todo ∧
              s = cuts ++ ((λ j, (startTime j, chunkSpan)) <$> seq i todo)).
Proof.
  intros Hok. induction todo as [|todo IH]; intros i chunks cuts.
  - apply tracks_ret. intros s _ <-. exists []. by rewrite !app_nil_r.
  - cbn [splitLoop]. apply tracksS_bind_call.
    2:{ intros e He. specialize (Hok (startTime i) chunkSpan
          (replaceFirst ".mp3" ("_chunk_" +:+ pretty i +:+ ".mp3") inputPath)).
        by rewrite He in Hok. }
    intros size _. apply tracksS_bind_modify; [done|].
    apply tracksS_bind_update.
    eapply tracksS_conseq; [apply IH|done|].
    intros r s (chunks' & -> & Hlen & ->).
    exists (replaceFirst ".mp3" ("_chunk_" +:+ pretty i +:+ ".mp3") inputPath
            :: chunks').
    split_and!; [by rewrite <- app_assoc|simpl; by rewrite Hlen|].
    unfold collectCuts. simpl. by rewrite app_nil_r, <- app_assoc.
Qed.

End SplitLoop.

Section Split.

Variable env : Env.

Lemma splitAudioIntoChunks_cuts inputPath jobId D :
  ffprobe env inputPath = Ok D →
  (∀ start dur out, failure (ffmpegCut env inputPath start dur out) = None) →
  tracksS collectCuts (eq [])
    (splitAudioIntoChunks env inputPath jobId)
    (λ r s, ∃ chunks, r = Ok chunks ∧
            length chunks = Z.to_nat (numChunks D) ∧
            s = (λ j, (startTime j, chunkSpan)) <$> seq 0 (length chunks)).
Proof.
  intros HD Hok. unfold splitAudioIntoChunks, getAudioDuration.
  rewrite HD. apply tracksS_bind_call; [|done].
  intros ? [= <-]. apply tracksS_bind_update.
  eapply tracksS_bind; [by apply splitLoop_cuts| |].
  - intros chunks. simpl. intros w.
    exists [EvProgress jobId "splitting" 100 "Audio splitting complete"].
    split; [done|]. intros s (chunks' & [= ->] & Hlen & ->).
    exists chunks'. split_and!; [done|done|]. rewrite Hlen.
    unfold collectCuts. simpl. by rewrite app_nil_r.
  - by intros e s (? & ? & _).
Qed.

Lemma startTime_later (i : nat) :
  (1 ≤ i)%nat → startTime i = Z.of_nat i * 600 - 10.
Proof.
  intros Hi. unfold startTime, CHUNK_DURATION_SECONDS, CHUNK_OVERLAP_SECONDS. lia.
Qed.

(** From the second chunk on, a chunk shares exactly its first ten seconds
    with the chunk before it. *)
Lemma sourceOverlap_later (D : Q) (i : nat) :
  (1 ≤ i)%nat → Z.of_nat (S i) < numChunks D → (sourceOverlap D i == 10)%Q.
Proof.
  intros Hi Hn. apply numChunks_gt in Hn.
  unfold sourceOverlap, coveredEnd.
  rewrite !startTime_later by lia.
  replace (Z.of_nat i * 600 - 10 + chunkSpan) with (Z.of_nat (S i) * 600)
    by (unfold chunkSpan, CHUNK_DURATION_SECONDS, CHUNK_OVERLAP_SECONDS; lia).
  rewrite Q.min_l by (by apply Qlt_le_weak).
  unfold Qminus. rewrite <- inject_Z_opp, <- inject_Z_plus.
  by replace (Z.of_nat (S i) * 600 + - (Z.of_nat (S i) * 600 - 10)) with 10
    by lia.
Qed.

(** The first chunk starts at zero and still lasts [chunkSpan] seconds: it
    shares with the second chunk all it holds after second 590. *)
Lemma sourceOverlap_first (D : Q) :
  1 < numChunks D →
  (sourceOverlap D 0 == Qmin 610 D - 590)%Q ∧
  (10 < sourceOverlap D 0)%Q ∧ (sourceOverlap D 0 <= 20)%Q.
Proof.
  intros Hn. apply (numChunks_gt D 1) in Hn.
  change (inject_Z (Z.of_nat 1 * 600)) with 600%Q in Hn.
  unfold sourceOverlap, coveredEnd.
  change (inject_Z (startTime 0 + chunkSpan)) with 610%Q.
  change (inject_Z (startTime 1)) with 590%Q.
  split; [reflexivity|].
  destruct (Qlt_le_dec D 610) as [Hlt|Hge].
  - rewrite Q.min_r by (by apply Qlt_le_weak). split; lra.
  - rewrite Q.min_l by done. split; lra.
Qed.

End Split.

(** C1, as the code has it: when the cuts succeed, [splitAudioIntoChunks]
    returns [ceil(D / 600)] chunks; chunk [i] is cut from second
    [max(0, i * 600 - 10)] for 610 seconds; every chunk from the second on
    shares exactly 10 seconds of source audio with the next one; the first
    chunk, which starts at zero and also lasts 610 seconds, shares with the
    second one [min(610, D) - 590] seconds, more than 10 and at most 20. *)
Theorem split_windows (env : Env) (inputPath jobId : string) (D : Q)
    (w : World) :
  (0 <= D)%Q →
  ffprobe env inputPath = Ok D →
  (∀ start dur out, failure (ffmpegCut env inputPath start dur out) = None) →
  ∃ chunks tr,
    (splitAudioIntoChunks env inputPath jobId w).2 = Ok chunks ∧
    console (splitAudioIntoChunks env inputPath jobId w).1 = console w ++ tr ∧
    Z.of_nat (length chunks) = Qceiling (D / 600) ∧
    ffmpegCuts tr
      = (λ i, (Z.max 0 (Z.of_nat i * 600 - 10), 600 + 10))
          <$> seq 0 (length chunks) ∧
    (∀ i, (1 ≤ i)%nat → (S i < length chunks)%nat →
          (sourceOverlap D i == 10)%Q) ∧
    ((1 < length chunks)%nat →
       (sourceOverlap D 0 == Qmin 610 D - 590)%Q ∧
       (10 < sourceOverlap D 0)%Q ∧ (sourceOverlap D 0 <= 20)%Q).
Proof.
  intros HD Hprobe Hok.
  destruct (splitAudioIntoChunks_cuts env inputPath jobId D Hprobe Hok w)
    as (tr & Hcon & H).
  destruct (H [] eq_refl) as (chunks & Hr & Hlen & Hcuts).
  pose proof (numChunks_nonneg D HD) as Hnn.
  assert (Z.of_nat (length chunks) = numChunks D) as HlenZ by lia.
  exists chunks, tr. split_and!; try done.
  - intros i Hi HSi. apply sourceOverlap_later; [done|lia].
  - intros H1. apply sourceOverlap_first. lia.
Qed.

Lemma split_windows_witness :
  (0 <= 1200)%Q ∧
  ffprobe (sampleEnv 1000 (Throw "down") (Ok 500%N)) "/tmp/a.mp3" = Ok 1200%Q ∧
  (∀ start dur out,
     failure (ffmpegCut (sampleEnv 1000 (Throw "down") (Ok 500%N))
                "/tmp/a.mp3" start dur out) = None) ∧
  ∃ chunks tr,
    (splitAudioIntoChunks (sampleEnv 1000 (Throw "down") (Ok 500%N))
       "/tmp/a.mp3" "job" emptyWorld).2 = Ok chunks ∧
    console (splitAudioIntoChunks (sampleEnv 1000 (Throw "down") (Ok 500%N))
               "/tmp/a.mp3" "job" emptyWorld).1 = console emptyWorld ++ tr ∧
    Z.of_nat (length chunks) = Qceiling (1200 / 600) ∧
    ffmpegCuts tr
      = (λ i, (Z.max 0 (Z.of_nat i * 600 - 10), 600 + 10))
          <$> seq 0 (length chunks) ∧
    (∀ i, (1 ≤ i)%nat → (S i < length chunks)%nat →
          (sourceOverlap 1200 i == 10)%Q) ∧
    ((1 < length chunks)%nat →
       (sourceOverlap 1200 0 == Qmin 610 1200 - 590)%Q ∧
       (10 < sourceOverlap 1200 0)%Q ∧ (sourceOverlap 1200 0 <= 20)%Q).
Proof.
  assert (H1 : (0 <= 1200)%Q) by (intros H; discriminate H).
  split; [exact H1|]. split; [reflexivity|]. split; [reflexivity|].
  exact (split_windows (sampleEnv 1000 (Throw "down") (Ok 500%N))
           "/tmp/a.mp3" "job" 1200 emptyWorld H1 eq_refl
           (λ _ _ _, eq_refl)).
Defined.

(** C1 as stated fails: a recording of 1200 seconds is cut into the windows
    0..610 and 590..1200, which share 20 seconds, not 10. *)
Lemma first_pair_overlaps_twenty :
  ¬ (∀ i, (S i < Z.to_nat (numChunks 1200))%nat →
          (sourceOverlap 1200 i == 10)%Q).
Proof.
  intros H. specialize (H 0%nat). vm_compute in H.
  assert (2 ≤ 2)%nat as Hle by lia.
  specialize (H Hle). discriminate H.
Qed.

(** ** Outcomes of the pipeline's steps *)

Lemma bind_run {A B} (m : M A) (f : A → M B) (w : World) :
  (m ≫= f) w =
  match m w with
  | (w', Ok a) => f a w'
  | (w', Throw e) => (w', Throw e)
  end.
Proof. reflexivity. Qed.

Lemma bind_outcome {A B} (m : M A) (f : A → M B) (w : World) :
  ((m ≫= f) w).2 =
  match (m w).2 with
  | Ok a => (f a (m w).1).2
  | Throw e => Throw e
  end.
Proof. rewrite bind_run. by destruct (m w) as [w' [a|e]]. Qed.

Section Outcomes.

Variable env : Env.

Lemma updateProgress_outcome jobId step p msg w :
  (updateProgress jobId step p msg w).2 = Ok ().
Proof. reflexivity. Qed.


Lemma transcribeWithGroq_outcome filepath chunk jobId w :
  (transcribeWithGroq env filepath chunk jobId w).2 = groqCreate env filepath.
Proof.
  unfold transcribeWithGroq. rewrite !bind_outcome, updateProgress_outcome.
  unfold call at 1. cbn [snd fst].
  destruct (groqCreate env filepath) as [t|e]; [|done].
  rewrite bind_outcome. by destruct chunk as [[i total]|].
Qed.



End Outcomes.



(** ** Scratch files *)

(** C5 fails on the code: a download of 30 MB is split into two chunks, the
    speech-to-text call fails on the first one, and the job ends in its
    failed state (the error is published, [complete] is set) with the source
    file deleted and both chunk files still on disk. *)
Theorem failed_transcription_leaves_chunks :
  let w := (postTranscript
              (sampleEnv 30000000 (Throw "rate limit") (Ok 500%N))
              "job1" sampleUrl None emptyWorld).1 in
  disk w !! "/tmp/abc123_1700000000000.mp3" = None ∧
  disk w !! "/tmp/abc123_1700000000000_chunk_0.mp3" = Some 1000%N ∧
  disk w !! "/tmp/abc123_1700000000000_chunk_1.mp3" = Some 1000%N ∧
  (progressStore w !! "job1") ≫= (.!! "complete") = Some PTrue ∧
  (progressStore w !! "job1") ≫= (.!! "error")
    = Some (PStep 100 "rate limit" 1700000000000).
Proof. vm_compute. done. Qed.

(** On the same input with a working speech-to-text call the job completes
    and nothing is left on disk. *)
Example completed_job_leaves_nothing :
  let w := (postTranscript
              (sampleEnv 30000000 (Ok {| text := lit " hello world" |})
                 (Ok 500%N))
              "job1" sampleUrl None emptyWorld).1 in
  disk w = ∅ ∧
  (progressStore w !! "job1") ≫= (.!! "complete") = Some PTrue.
Proof. vm_compute. done. Qed.

(** ** Compression *)

Section Compression.

Variable env : Env.

Lemma within_limit (size : N) :
  Z.of_N size ≤ MAX_FILE_SIZE_MB * (1024 * 1024) →
  exceedsLimit (inject_Z (Z.of_N size) / inject_Z (1024 * 1024)) = false.
Proof.
  intros H. unfold exceedsLimit. apply negb_false_iff, Qle_bool_iff.
  apply Qle_shift_div_r; [reflexivity|].
  rewrite <- inject_Z_mult. by rewrite Zle_Qle in H.
Qed.

Lemma stat_run path size w :
  disk w !! path = Some size →
  stat path w = (logEvent (EvCall (CStat path) None) w, Ok size).
Proof. intros H. unfold stat. by rewrite H. Qed.

Lemma getFileSizeMB_run path size w :
  disk w !! path = Some size →
  getFileSizeMB path w =
  (logEvent (EvCall (CStat path) None) w,
   Ok (inject_Z (Z.of_N size) / inject_Z (1024 * 1024))%Q).
Proof.
  intros H. unfold getFileSizeMB. rewrite bind_run, (stat_run _ size) by done.
  reflexivity.
Qed.

Lemma compressAudio_failed inputPath jobId e w :
  execFfmpeg env inputPath (replaceFirst ".mp3" "_compressed.mp3" inputPath)
    = Throw e →
  compressAudio env inputPath jobId w =
  (logEvent
     (EvCall (CExecFfmpeg inputPath
                (replaceFirst ".mp3" "_compressed.mp3" inputPath)) (Some e))
     (updateProgress jobId "compress" 0 "Compressing audio..." w).1,
   Ok inputPath).
Proof.
  intros H. unfold compressAudio. rewrite bind_run. cbn [updateProgress].
  unfold tryCatch. rewrite bind_run. unfold call. by rewrite H.
Qed.

End Compression.

(** C6: when the compression of a file within the size limit fails,
    [compressAudio] returns the input path and publishes no error, and
    [processTranscription] goes on to transcribe the original file: from
    then on it is the single transcription call on the original path, whose
    text is the job's transcript when the call succeeds. *)
Theorem compression_failure_falls_back (env : Env) (audioPath jobId : string)
    (size : N) (e : string) (w : World) :
  disk w !! audioPath = Some size →
  Z.of_N size ≤ 25 * (1024 * 1024) →
  execFfmpeg env audioPath (replaceFirst ".mp3" "_compressed.mp3" audioPath)
    = Throw e →
  (compressAudio env audioPath jobId w).2 = Ok audioPath ∧
  ∃ w1,
    console w1 = console w ++
      [ EvCall (CStat audioPath) None;
        EvProgress jobId "compress" 0 "Compressing audio...";
        EvCall (CExecFfmpeg audioPath
                  (replaceFirst ".mp3" "_compressed.mp3" audioPath)) (Some e);
        EvCall (CStat audioPath) None ] ∧
    disk w1 = disk w ∧
    processTranscription env audioPath jobId w =
      (transcription ← transcribeWithGroq env audioPath None jobId;
       mret (text transcription)) w1 ∧
    ∀ t, groqCreate env audioPath = Ok t →
         (processTranscription env audioPath jobId w).2 = Ok (text t).
Proof.
  intros Hdisk Hsize Hexec.
  split; [by rewrite (compressAudio_failed env _ _ e)|].
  set (w1 := logEvent (EvCall (CStat audioPath) None)
               (logEvent
                  (EvCall (CExecFfmpeg audioPath
                     (replaceFirst ".mp3" "_compressed.mp3" audioPath)) (Some e))
                  (updateProgress jobId "compress" 0 "Compressing audio..."
                     (logEvent (EvCall (CStat audioPath) None) w)).1)).
  assert (processTranscription env audioPath jobId w =
          (transcription ← transcribeWithGroq env audioPath None jobId;
           mret (text transcription)) w1) as Heq.
  { unfold processTranscription.
    rewrite bind_run, (getFileSizeMB_run _ size) by done.
    rewrite within_limit by done.
    rewrite bind_run, (compressAudio_failed env _ _ e) by done.
    rewrite bind_run, (getFileSizeMB_run _ size) by done.
    rewrite within_limit by done.
    fold w1. rewrite !bind_run.
    destruct (transcribeWithGroq env audioPath None jobId w1) as [w2 [t|e']];
      [|done].
    rewrite bool_decide_eq_false_2 by (by intros H; apply H). done. }
  exists w1. split_and!.
  - subst w1. cbn. by rewrite <- !app_assoc.
  - done.
  - exact Heq.
  - intros t Ht. rewrite Heq, bind_outcome, transcribeWithGroq_outcome, Ht.
    done.
Qed.

Lemma compression_failure_falls_back_witness :
  disk (setDisk <["/tmp/a.mp3" := 1000%N]> emptyWorld) !! "/tmp/a.mp3"
    = Some 1000%N ∧
  Z.of_N 1000 ≤ 25 * (1024 * 1024) ∧
  execFfmpeg (sampleEnv 1000 (Ok {| text := lit "hi" |}) (Throw "no ffmpeg"))
    "/tmp/a.mp3" (replaceFirst ".mp3" "_compressed.mp3" "/tmp/a.mp3")
    = Throw "no ffmpeg" ∧
  (compressAudio
     (sampleEnv 1000 (Ok {| text := lit "hi" |}) (Throw "no ffmpeg"))
     "/tmp/a.mp3" "job" (setDisk <["/tmp/a.mp3" := 1000%N]> emptyWorld)).2
    = Ok "/tmp/a.mp3".
Proof.
  assert (H2 : Z.of_N 1000 ≤ 25 * (1024 * 1024)) by (intros H; discriminate H).
  split; [reflexivity|]. split; [exact H2|]. split; [reflexivity|].
  exact (proj1 (compression_failure_falls_back
                  (sampleEnv 1000 (Ok {| text := lit "hi" |}) (Throw "no ffmpeg"))
                  "/tmp/a.mp3" "job" 1000 "no ffmpeg"
                  (setDisk <["/tmp/a.mp3" := 1000%N]> emptyWorld)
                  eq_refl H2 eq_refl)).
Defined.

(** ** The job table *)

Section Stable.

Context (R : World → World → Prop) `{!PreOrder R}.

Lemma stable_ret {A} (a : A) : stable R (mret a).
Proof. intros w. reflexivity. Qed.

Lemma stable_throw {A} (e : string) : stable R (@throw A e).
Proof. intros w. reflexivity. Qed.

Lemma stable_gets {A} (f : World → A) : stable R (gets f).
Proof. intros w. reflexivity. Qed.

Lemma stable_bind {A B} (m : M A) (f : A → M B) :
  stable R m → (∀ a, stable R (f a)) → stable R (m ≫= f).
Proof.
  intros Hm Hf w. rewrite bind_run. specialize (Hm w).
  destruct (m w) as [w1 [a|e]]; [|done].
  etrans; [exact Hm|apply Hf].
Qed.

Lemma stable_tryCatch {A} (m : M A) (h : string → M A) :
  stable R m → (∀ e, stable R (h e)) → stable R (tryCatch m h).
Proof.
  intros Hm Hh w. unfold tryCatch. specialize (Hm w).
  destruct (m w) as [w1 [a|e]]; [done|].
  etrans; [exact Hm|apply Hh].
Qed.

Lemma stable_settle {A} (m : M A) : stable R m → stable R (settle m).
Proof. intros Hm w. unfold settle. specialize (Hm w). by destruct (m w). Qed.

End Stable.

Global Instance keepsJobs_preorder : PreOrder keepsJobs.
Proof.
  split.
  - by intros w.
  - intros w1 w2 w3 (Ht1 & Hn1 & H1) (Ht2 & Hn2 & H2).
    split_and!; [congruence|congruence|]. intros j Hj. by apply H2, H1.
Qed.

Create HintDb stable.

Ltac stable_step :=
  lazymatch goal with
  | |- PreOrder _ => apply _
  | |- stable _ (_ ≫= _) => apply stable_bind; [apply _| |intros]
  | |- stable _ (tryCatch _ _) => apply stable_tryCatch; [apply _| |intros]
  | |- stable _ (settle _) => apply stable_settle
  | |- stable _ (mret _) => apply stable_ret
  | |- stable _ (throw _) => apply stable_throw
  | |- stable _ (gets _) => apply stable_gets
  | |- stable _ (if ?c then _ else _) => destruct c
  | |- stable _ (match ?x with _ => _ end) => destruct x
  | |- stable _ _ => solve [auto with stable]
  end.

Ltac stable_auto := repeat stable_step.

Section KeepsJobs.

Variable env : Env.

Lemma keepsJobs_updateProgress jobId step p msg :
  stable keepsJobs (updateProgress jobId step p msg).
Proof.
  intros w. split_and!; [done|done|]. intros j Hj. simpl.
  destruct (decide (jobId = j)) as [->|Hne].
  - by rewrite lookup_insert_eq.
  - by rewrite lookup_insert_ne.
Qed.

Lemma keepsJobs_setProperty jobId key v :
  stable keepsJobs (setProperty jobId key v).
Proof.
  intros w. unfold setProperty.
  destruct (progressStore w !! jobId) eqn:Hlook; [|done].
  split_and!; [done|done|]. intros j Hj. simpl.
  destruct (decide (jobId = j)) as [->|Hne].
  - by rewrite lookup_insert_eq.
  - by rewrite lookup_insert_ne.
Qed.

Lemma keepsJobs_call {A} c (r : Outcome A) : stable keepsJobs (call c r).
Proof. by intros w. Qed.

Lemma keepsJobs_setDisk f : stable keepsJobs (modify (setDisk f)).
Proof. by intros w. Qed.

Lemma keepsJobs_stat path : stable keepsJobs (stat path).
Proof. intros w. unfold stat. by destruct (disk w !! path). Qed.

Lemma keepsJobs_unlink path : stable keepsJobs (unlink path).
Proof. intros w. unfold unlink. by destruct (disk w !! path). Qed.

#[local] Hint Resolve keepsJobs_updateProgress keepsJobs_setProperty keepsJobs_call
  keepsJobs_setDisk keepsJobs_stat keepsJobs_unlink : stable.

Lemma keepsJobs_sendWebhook subject : stable keepsJobs (sendWebhook env subject).
Proof. unfold sendWebhook. stable_auto. Qed.

Lemma keepsJobs_cleanupFile path : stable keepsJobs (cleanupFile path).
Proof. unfold cleanupFile. stable_auto. Qed.

#[local] Hint Resolve keepsJobs_sendWebhook keepsJobs_cleanupFile : stable.

Lemma keepsJobs_reportDownload jobId events :
  stable keepsJobs (reportDownload jobId events).
Proof.
  induction events as [|[loaded total] events IH]; cbn [reportDownload];
    stable_auto.
Qed.

#[local] Hint Resolve keepsJobs_reportDownload : stable.

Lemma keepsJobs_downloadAudio audioUrl episodeId jobId :
  stable keepsJobs (downloadAudio env audioUrl episodeId jobId).
Proof. unfold downloadAudio. stable_auto. Qed.

Lemma keepsJobs_splitLoop inputPath jobId n todo : ∀ i chunks,
  stable keepsJobs (splitLoop env inputPath jobId n todo i chunks).
Proof.
  induction todo as [|todo IH]; intros i chunks; cbn [splitLoop]; stable_auto.
Qed.

#[local] Hint Resolve keepsJobs_downloadAudio keepsJobs_splitLoop : stable.

Lemma keepsJobs_splitAudioIntoChunks inputPath jobId :
  stable keepsJobs (splitAudioIntoChunks env inputPath jobId).
Proof. unfold splitAudioIntoChunks, getAudioDuration. stable_auto. Qed.

Lemma keepsJobs_compressAudio inputPath jobId :
  stable keepsJobs (compressAudio env inputPath jobId).
Proof. unfold compressAudio. stable_auto. Qed.

Lemma keepsJobs_transcribeWithGroq filepath chunk jobId :
  stable keepsJobs (transcribeWithGroq env filepath chunk jobId).
Proof. unfold transcribeWithGroq. stable_auto. Qed.

#[local] Hint Resolve keepsJobs_splitAudioIntoChunks keepsJobs_compressAudio
  keepsJobs_transcribeWithGroq : stable.

Lemma keepsJobs_transcribeLoop jobId total chunks : ∀ i acc,
  stable keepsJobs (transcribeLoop env jobId total i chunks acc).
Proof.
  induction chunks as [|c chunks IH]; intros i acc; cbn [transcribeLoop];
    stable_auto.
Qed.

#[local] Hint Resolve keepsJobs_transcribeLoop : stable.

Lemma keepsJobs_transcribeChunks chunks jobId :
  stable keepsJobs (transcribeChunks env chunks jobId).
Proof. unfold transcribeChunks, mergeStep. stable_auto. Qed.

#[local] Hint Resolve keepsJobs_transcribeChunks : stable.

Lemma keepsJobs_processTranscription audioPath jobId :
  stable keepsJobs (processTranscription env audioPath jobId).
Proof. unfold processTranscription, getFileSizeMB. stable_auto. Qed.

Lemma keepsJobs_summariseWithGemini transcript episodeTitle jobId :
  stable keepsJobs (summariseWithGemini env transcript episodeTitle jobId).
Proof. unfold summariseWithGemini. stable_auto. Qed.

Lemma keepsJobs_resolveEpisode jobId spotifyUrl providedRssUrl :
  stable keepsJobs (resolveEpisode env jobId spotifyUrl providedRssUrl).
Proof. unfold resolveEpisode. stable_auto. Qed.

Lemma keepsJobs_catchBlock jobId tempFilePath message :
  stable keepsJobs (catchBlock jobId tempFilePath message).
Proof. unfold catchBlock. stable_auto. Qed.

#[local] Hint Resolve keepsJobs_processTranscription keepsJobs_summariseWithGemini
  keepsJobs_resolveEpisode keepsJobs_catchBlock : stable.

Lemma keepsJobs_postTranscript jobId spotifyUrl rssUrl :
  stable keepsJobs (postTranscript env jobId spotifyUrl rssUrl).
Proof. unfold postTranscript, extractEpisodeId. stable_auto. Qed.

End KeepsJobs.

(** ** What every step of a job preserves

    Every step of the pipeline is put together from the publication of a
    progress, the assignment of [complete], a call to the outside and a
    change of the disk.  A preorder on worlds that these respect is
    respected by the whole job. *)

#[global] Hint Extern 1 (_ ∈ stepOrder) =>
  (apply (bool_decide_unpack _); exact I) : stable.

Section Closure.

Context (R : World → World → Prop) `{!PreOrder R}.
Variable env : Env.
Variable jobId : string.

Hypothesis R_updateProgress : ∀ step p msg,
  step ∈ stepOrder → stable R (updateProgress jobId step p msg).
Hypothesis R_complete : stable R (setProperty jobId "complete" PTrue).
Hypothesis R_call : ∀ A c (r : Outcome A), stable R (call c r).

Lemma closure_stat path : stable R (stat path).
Proof. intros w. unfold stat. destruct (disk w !! path); apply R_call. Qed.

#[local] Hint Resolve closure_stat : stable.

Lemma closure_getFileSizeMB path : stable R (getFileSizeMB path).
Proof. unfold getFileSizeMB. stable_auto. Qed.

Lemma closure_sendWebhook subject : stable R (sendWebhook env subject).
Proof. unfold sendWebhook. stable_auto. Qed.

Lemma closure_extractEpisodeId url : stable R (extractEpisodeId url).
Proof. unfold extractEpisodeId. stable_auto. Qed.

#[local] Hint Resolve closure_getFileSizeMB closure_sendWebhook
  closure_extractEpisodeId : stable.

Lemma closure_reportDownload events : stable R (reportDownload jobId events).
Proof.
  induction events as [|[loaded total] events IH]; cbn [reportDownload];
    stable_auto.
Qed.

Lemma closure_transcribeWithGroq filepath chunk :
  stable R (transcribeWithGroq env filepath chunk jobId).
Proof. unfold transcribeWithGroq. stable_auto. Qed.

Lemma closure_mergeStep transcriptions :
  stable R (mergeStep transcriptions jobId).
Proof. unfold mergeStep. stable_auto. Qed.

Lemma closure_summariseWithGemini transcript episodeTitle :
  stable R (summariseWithGemini env transcript episodeTitle jobId).
Proof. unfold summariseWithGemini. stable_auto. Qed.

Lemma closure_resolveEpisode spotifyUrl providedRssUrl :
  stable R (resolveEpisode env jobId spotifyUrl providedRssUrl).
Proof. unfold resolveEpisode. stable_auto. Qed.

(** With the changes of the disk. *)

Hypothesis R_setDisk : ∀ f, stable R (modify (setDisk f)).

Lemma closure_unlink path : stable R (unlink path).
Proof.
  intros w. unfold unlink. destruct (disk w !! path); [|apply R_call].
  etrans; [apply (R_setDisk (delete path))|apply R_call].
Qed.

#[local] Hint Resolve closure_unlink closure_reportDownload
  closure_transcribeWithGroq closure_mergeStep closure_summariseWithGemini
  closure_resolveEpisode : stable.

Lemma closure_cleanupFile path : stable R (cleanupFile path).
Proof. unfold cleanupFile. stable_auto. Qed.

#[local] Hint Resolve closure_cleanupFile : stable.

Lemma closure_downloadAudio audioUrl episodeId :
  stable R (downloadAudio env audioUrl episodeId jobId).
Proof. unfold downloadAudio. stable_auto. Qed.

Lemma closure_splitLoop inputPath n todo : ∀ i chunks,
  stable R (splitLoop env inputPath jobId n todo i chunks).
Proof.
  induction todo as [|todo IH]; intros i chunks; cbn [splitLoop]; stable_auto.
Qed.

#[local] Hint Resolve closure_downloadAudio closure_splitLoop : stable.

Lemma closure_splitAudioIntoChunks inputPath :
  stable R (splitAudioIntoChunks env inputPath jobId).
Proof. unfold splitAudioIntoChunks, getAudioDuration. stable_auto. Qed.

Lemma closure_compressAudio inputPath :
  stable R (compressAudio env inputPath jobId).
Proof. unfold compressAudio. stable_auto. Qed.

Lemma closure_transcribeLoop total chunks : ∀ i acc,
  stable R (transcribeLoop env jobId total i chunks acc).
Proof.
  induction chunks as [|c chunks IH]; intros i acc; cbn [transcribeLoop];
    stable_auto.
Qed.

#[local] Hint Resolve closure_splitAudioIntoChunks closure_compressAudio
  closure_transcribeLoop : stable.

Lemma closure_transcribeChunks chunks :
  stable R (transcribeChunks env chunks jobId).
Proof. unfold transcribeChunks. stable_auto. Qed.

#[local] Hint Resolve closure_transcribeChunks : stable.

Lemma closure_processTranscription audioPath :
  stable R (processTranscription env audioPath jobId).
Proof. unfold processTranscription. stable_auto. Qed.

Lemma closure_catchBlock tempFilePath message :
  stable R (catchBlock jobId tempFilePath message).
Proof. unfold catchBlock. stable_auto. Qed.

#[local] Hint Resolve closure_processTranscription closure_catchBlock : stable.

(** With the assignment of the result. *)

Hypothesis R_result : ∀ result,
  stable R (setProperty jobId "result" (PResult result)).

Lemma closure_postTranscript spotifyUrl rssUrl :
  stable R (postTranscript env jobId spotifyUrl rssUrl).
Proof. unfold postTranscript. stable_auto. Qed.

End Closure.

(** ** Other jobs *)

Section Others.

Variable jobId : string.

Global Instance keepsOthers_preorder : PreOrder (keepsOthers jobId).
Proof.
  split; [done|]. intros w1 w2 w3 H1 H2 j Hj. by rewrite H2, H1.
Qed.

Lemma keepsOthers_updateProgress step p msg :
  stable (keepsOthers jobId) (updateProgress jobId step p msg).
Proof. intros w j Hj. simpl. by rewrite lookup_insert_ne. Qed.

Lemma keepsOthers_setProperty key v :
  stable (keepsOthers jobId) (setProperty jobId key v).
Proof.
  intros w j Hj. unfold setProperty.
  destruct (progressStore w !! jobId); [|done]. simpl.
  by rewrite lookup_insert_ne.
Qed.


End Others.

Section Eviction.

Variable env : Env.















End Eviction.




(** ** Percentages *)

Section Rounding.

Lemma jsRound_mono (x y : Q) : (x <= y)%Q → jsRound x ≤ jsRound y.
Proof.
  intros H. unfold jsRound. apply Qfloor_resp_le. by apply Qplus_le_l.
Qed.

Lemma jsRound_range (x : Q) :
  (0 <= x)%Q → (x <= 100)%Q → 0 ≤ jsRound x ≤ 100.
Proof.
  intros H0 H100. split.
  - apply (jsRound_mono 0 x H0).
  - apply (jsRound_mono x 100 H100).
Qed.

Lemma Qdiv_le_mono (a b : Q) (c : Q) :
  (0 < c)%Q → (a <= b)%Q → (a / c <= b / c)%Q.
Proof.
  intros Hc Hab. apply Qle_shift_div_l; [done|].
  unfold Qdiv. rewrite <- Qmult_assoc, (Qmult_comm (/ c)), Qmult_inv_r.
  - by rewrite Qmult_1_r.
  - intros H. rewrite H in Hc. by apply Qlt_irrefl in Hc.
Qed.

Lemma inject_Z_pos (n : Z) : 0 < n → (0 < inject_Z n)%Q.
Proof. intros H. by rewrite Zlt_Qlt in H. Qed.

(** *** Rounding to the nearest double *)

Lemma roundHalfEven_bounds (x : Q) :
  Qfloor x <= roundHalfEven x <= Qfloor x + 1.
Proof.
  unfold roundHalfEven.
  destruct (x - inject_Z (Qfloor x) ?= 1 # 2)%Q; [destruct (Z.even _)|..]; lia.
Qed.

Lemma roundHalfEven_comp (x y : Q) :
  (x == y)%Q -> roundHalfEven x = roundHalfEven y.
Proof.
  intros H. unfold roundHalfEven. rewrite (Qfloor_comp x y H).
  assert (x - inject_Z (Qfloor y) == y - inject_Z (Qfloor y))%Q as ->
    by (rewrite H; reflexivity).
  reflexivity.
Qed.

Lemma roundHalfEven_Z (k : Z) : roundHalfEven (inject_Z k) = k.
Proof.
  unfold roundHalfEven. rewrite Qfloor_Z.
  assert (inject_Z k - inject_Z k == 0)%Q as -> by ring.
  reflexivity.
Qed.

Lemma roundHalfEven_near (x : Q) :
  (x - (1 # 2) <= inject_Z (roundHalfEven x) <= x + (1 # 2))%Q.
Proof.
  unfold roundHalfEven.
  pose proof (Qfloor_le x) as Hlo. pose proof (Qlt_floor x) as Hhi.
  rewrite inject_Z_plus in Hhi. change (inject_Z 1) with 1%Q in Hhi.
  destruct (Qcompare_spec (x - inject_Z (Qfloor x)) (1 # 2)) as [H|H|H].
  - destruct (Z.even (Qfloor x)).
    + split; lra.
    + rewrite inject_Z_plus. change (inject_Z 1) with 1%Q. split; lra.
  - split; lra.
  - rewrite inject_Z_plus. change (inject_Z 1) with 1%Q. split; lra.
Qed.

Lemma roundHalfEven_mono (x y : Q) :
  (x <= y)%Q -> roundHalfEven x <= roundHalfEven y.
Proof.
  intros Hxy. pose proof (Qfloor_resp_le x y Hxy) as Hfl.
  destruct (Z.eq_dec (Qfloor x) (Qfloor y)) as [Heq|Hne].
  - unfold roundHalfEven. rewrite Heq.
    destruct (Qcompare_spec (x - inject_Z (Qfloor y)) (1 # 2)) as [H|H|H];
      destruct (Qcompare_spec (y - inject_Z (Qfloor y)) (1 # 2)) as [H'|H'|H'];
      try destruct (Z.even (Qfloor y)); try lia; exfalso; lra.
  - pose proof (roundHalfEven_bounds x). pose proof (roundHalfEven_bounds y).
    lia.
Qed.

(** Powers of two. *)

Lemma two_power_pos (e : Z) : (0 < 2 ^ e)%Q.
Proof. apply Qpower_0_lt. reflexivity. Qed.

Lemma two_power_plus (a b : Z) : (2 ^ (a + b) == 2 ^ a * 2 ^ b)%Q.
Proof. apply Qpower_plus. discriminate. Qed.

Lemma two_power_inject (n : Z) : 0 <= n -> (inject_Z (2 ^ n) == 2 ^ n)%Q.
Proof. intros H. rewrite Zpower_Qpower by exact H. reflexivity. Qed.

Lemma two_power_le (a b : Z) : a <= b -> (2 ^ a <= 2 ^ b)%Q.
Proof. intros H. apply Qpower_le_compat_l; [exact H|discriminate]. Qed.

Lemma two_power_lt_inv (a b : Z) : (2 ^ a < 2 ^ b)%Q -> a < b.
Proof. intros H. apply (Qpower_lt_compat_l_inv 2); [exact H|reflexivity]. Qed.

Lemma binade_spec (x : Q) :
  (0 < x)%Q -> (2 ^ binade x <= x /\ x < 2 ^ (binade x + 1))%Q.
Proof.
  intros Hx. unfold binade.
  destruct x as [a b]. cbn [Qnum Qden].
  assert (0 < a) as Ha.
  { unfold Qlt in Hx. cbn in Hx. lia. }
  set (la := Z.log2 a). set (lb := Z.log2 (Z.pos b)).
  pose proof (Z.log2_spec a Ha) as [Ha1 Ha2]. fold la in Ha1, Ha2.
  pose proof (Z.log2_spec (Z.pos b) eq_refl) as [Hb1 Hb2].
  fold lb in Hb1, Hb2.
  pose proof (Z.log2_nonneg a) as Hla. fold la in Hla.
  pose proof (Z.log2_nonneg (Z.pos b)) as Hlb. fold lb in Hlb.
  assert (a # b == inject_Z a / inject_Z (Z.pos b))%Q as Hab
    by apply Qmake_Qdiv.
  assert (0 < inject_Z (Z.pos b))%Q as Hbpos by reflexivity.
  rewrite Zle_Qle in Ha1, Hb1. rewrite Zlt_Qlt in Ha2, Hb2.
  rewrite two_power_inject in Ha1, Ha2, Hb1, Hb2 by lia.
  set (A := inject_Z a) in *. set (B := inject_Z (Z.pos b)) in *.
  pose proof (two_power_pos lb) as Hplb.
  assert (x_lt : (a # b < 2 ^ (la - lb + 1))%Q).
  { rewrite Hab. apply Qlt_shift_div_r; [exact Hbpos|].
    apply Qlt_le_trans with (2 ^ Z.succ la)%Q; [exact Ha2|].
    replace (Z.succ la) with ((la - lb + 1) + lb) by lia.
    rewrite two_power_plus. pose proof (two_power_pos (la - lb + 1)).
    apply Qmult_le_l; assumption. }
  assert (x_ge : (2 ^ (la - lb - 1) <= a # b)%Q).
  { rewrite Hab. apply Qle_shift_div_l; [exact Hbpos|].
    apply Qle_trans with (2 ^ la)%Q; [|exact Ha1].
    replace la with ((la - lb - 1) + Z.succ lb) at 2 by lia.
    rewrite two_power_plus. pose proof (two_power_pos (la - lb - 1)).
    apply Qmult_le_l; [assumption|]. apply Qlt_le_weak. exact Hb2. }
  destruct (Qle_bool (2 ^ (la - lb)) (a # b)) eqn:Htest.
  - apply Qle_bool_iff in Htest. split; [exact Htest|exact x_lt].
  - split; [exact x_ge|].
    replace (la - lb - 1 + 1) with (la - lb) by lia.
    apply Qnot_le_lt. intros H. apply Qle_bool_iff in H. congruence.
Qed.

Lemma binade_unique (x : Q) (e : Z) :
  (2 ^ e <= x)%Q -> (x < 2 ^ (e + 1))%Q -> binade x = e.
Proof.
  intros Hlo Hhi.
  assert (0 < x)%Q as Hx
    by (eapply Qlt_le_trans; [apply (two_power_pos e)|exact Hlo]).
  destruct (binade_spec x Hx) as [Hlo' Hhi'].
  assert (binade x < e + 1)
    by (apply two_power_lt_inv; eapply Qle_lt_trans; eassumption).
  assert (e < binade x + 1)
    by (apply two_power_lt_inv; eapply Qle_lt_trans; eassumption).
  lia.
Qed.

Lemma binade_comp (x y : Q) : (0 < x)%Q -> (x == y)%Q -> binade x = binade y.
Proof.
  intros Hx Hxy. destruct (binade_spec x Hx) as [Hlo Hhi].
  symmetry. apply binade_unique; rewrite <- Hxy; assumption.
Qed.

Lemma binade_mono (x y : Q) :
  (0 < x)%Q -> (x <= y)%Q -> binade x <= binade y.
Proof.
  intros Hx Hxy.
  assert (0 < y)%Q as Hy by (eapply Qlt_le_trans; eassumption).
  destruct (binade_spec x Hx) as [Hlo _].
  destruct (binade_spec y Hy) as [_ Hhi].
  assert (binade x < binade y + 1); [|lia].
  apply two_power_lt_inv. eapply Qle_lt_trans; [exact Hlo|].
  eapply Qle_lt_trans; eassumption.
Qed.

Lemma toDouble_pos (x : Q) :
  (0 < x)%Q ->
  toDouble x =
  (inject_Z (roundHalfEven (x * 2 ^ (52 - binade x))) * 2 ^ (binade x - 52))%Q.
Proof.
  intros Hx. unfold toDouble. destruct x as [[|a|a] b]; [| reflexivity |];
    unfold Qlt in Hx; cbn in Hx; lia.
Qed.

Lemma toDouble_zero (x : Q) : (x == 0)%Q -> toDouble x = 0%Q.
Proof.
  intros Hx. unfold toDouble. destruct x as [[|a|a] b]; [reflexivity|..];
    unfold Qeq in Hx; cbn in Hx; lia.
Qed.

(** The scaled significand of a positive number lies between [2^52] and
    [2^53]. *)
Lemma significand_range (x : Q) :
  (0 < x)%Q ->
  (2 ^ 52 <= x * 2 ^ (52 - binade x) /\ x * 2 ^ (52 - binade x) < 2 ^ 53)%Q.
Proof.
  intros Hx. destruct (binade_spec x Hx) as [Hlo Hhi].
  set (e := binade x) in *. pose proof (two_power_pos (52 - e)) as Hp.
  split.
  - replace 52 with (e + (52 - e)) at 1 by lia. rewrite two_power_plus.
    apply Qmult_le_r; assumption.
  - replace 53 with ((e + 1) + (52 - e)) by lia. rewrite two_power_plus.
    apply Qmult_lt_r; assumption.
Qed.

Lemma toDouble_bounds (x : Q) :
  (0 < x)%Q ->
  (2 ^ binade x <= toDouble x /\ toDouble x <= 2 ^ (binade x + 1))%Q.
Proof.
  intros Hx. rewrite (toDouble_pos x Hx).
  destruct (significand_range x Hx) as [Hlo Hhi].
  set (e := binade x) in *. set (s := (x * 2 ^ (52 - e))%Q) in *.
  pose proof (two_power_pos (e - 52)) as Hp.
  assert (2 ^ 52 <= roundHalfEven s <= 2 ^ 53) as [Hm1 Hm2].
  { split.
    - rewrite <- (roundHalfEven_Z (2 ^ 52)). apply roundHalfEven_mono.
      rewrite two_power_inject by lia. exact Hlo.
    - rewrite <- (roundHalfEven_Z (2 ^ 53)). apply roundHalfEven_mono.
      rewrite two_power_inject by lia. apply Qlt_le_weak. exact Hhi. }
  rewrite Zle_Qle in Hm1, Hm2. rewrite two_power_inject in Hm1, Hm2 by lia.
  split.
  - replace e with (52 + (e - 52)) at 1 by lia. rewrite two_power_plus.
    apply Qmult_le_r; assumption.
  - replace (e + 1) with (53 + (e - 52)) by lia. rewrite two_power_plus.
    apply Qmult_le_r; assumption.
Qed.

Lemma toDouble_comp (x y : Q) : (x == y)%Q -> (toDouble x == toDouble y)%Q.
Proof.
  intros Hxy. destruct (Q_dec x 0) as [[Hneg|Hpos]|Hzero].
  - assert (y < 0)%Q as Hneg' by (rewrite <- Hxy; exact Hneg).
    assert (forall z, (z < 0)%Q ->
              toDouble z =
              (- (inject_Z (roundHalfEven (- z * 2 ^ (52 - binade (- z))))
                  * 2 ^ (binade (- z) - 52)))%Q) as Hform.
    { intros [[|a|a] b] Hz; [| |reflexivity]; unfold Qlt in Hz; cbn in Hz; lia. }
    rewrite (Hform x Hneg), (Hform y Hneg').
    assert (0 < - x)%Q as Hx by lra.
    assert (- x == - y)%Q as Hxy' by (rewrite Hxy; reflexivity).
    rewrite (binade_comp (- x) (- y) Hx Hxy').
    rewrite (roundHalfEven_comp (- x * 2 ^ (52 - binade (- y)))
               (- y * 2 ^ (52 - binade (- y)))); [reflexivity|].
    rewrite Hxy'. reflexivity.
  - assert (0 < y)%Q as Hpos' by (rewrite <- Hxy; exact Hpos).
    rewrite (toDouble_pos x Hpos), (toDouble_pos y Hpos').
    rewrite (binade_comp x y Hpos Hxy).
    rewrite (roundHalfEven_comp (x * 2 ^ (52 - binade y))
               (y * 2 ^ (52 - binade y))); [reflexivity|].
    rewrite Hxy. reflexivity.
  - rewrite (toDouble_zero x Hzero), (toDouble_zero y); [reflexivity|].
    rewrite <- Hxy. exact Hzero.
Qed.

Global Instance toDouble_Proper : Proper (Qeq ==> Qeq) toDouble.
Proof. intros x y H. apply toDouble_comp, H. Qed.

Lemma toDouble_nonneg (x : Q) : (0 <= x)%Q -> (0 <= toDouble x)%Q.
Proof.
  intros Hx. destruct (Qle_lt_or_eq _ _ Hx) as [Hpos|Hzero].
  - destruct (toDouble_bounds x Hpos) as [Hlo _].
    apply Qlt_le_weak. eapply Qlt_le_trans; [apply two_power_pos|exact Hlo].
  - rewrite (toDouble_zero x); [apply Qle_refl|]. symmetry. exact Hzero.
Qed.

(** Rounding keeps the order. *)
Lemma toDouble_mono (x y : Q) :
  (0 <= x)%Q -> (x <= y)%Q -> (toDouble x <= toDouble y)%Q.
Proof.
  intros H0 Hxy. destruct (Qle_lt_or_eq _ _ H0) as [Hx|Hzero].
  2:{ rewrite (toDouble_zero x) by (symmetry; exact Hzero).
      apply toDouble_nonneg. eapply Qle_trans; eassumption. }
  assert (0 < y)%Q as Hy by (eapply Qlt_le_trans; eassumption).
  pose proof (binade_mono x y Hx Hxy) as He.
  destruct (Z.eq_dec (binade x) (binade y)) as [Heq|Hne].
  - rewrite (toDouble_pos x Hx), (toDouble_pos y Hy), Heq.
    apply Qmult_le_r; [apply two_power_pos|]. rewrite <- Zle_Qle.
    apply roundHalfEven_mono. apply Qmult_le_r; [apply two_power_pos|exact Hxy].
  - destruct (toDouble_bounds x Hx) as [_ Hhi].
    destruct (toDouble_bounds y Hy) as [Hlo _].
    eapply Qle_trans; [exact Hhi|]. eapply Qle_trans; [|exact Hlo].
    apply two_power_le. lia.
Qed.

(** The rounding error is at most half a unit in the last place. *)
Lemma toDouble_upper (x : Q) :
  (0 < x)%Q -> (toDouble x <= x + x * 2 ^ (-53))%Q.
Proof.
  intros Hx. rewrite (toDouble_pos x Hx).
  destruct (binade_spec x Hx) as [Hlo _].
  set (e := binade x) in *. set (s := (x * 2 ^ (52 - e))%Q).
  destruct (roundHalfEven_near s) as [_ Hnear].
  pose proof (two_power_pos (e - 52)) as Hp.
  apply Qle_trans with ((s + (1 # 2)) * 2 ^ (e - 52))%Q;
    [apply Qmult_le_r; assumption|].
  assert (s * 2 ^ (e - 52) == x)%Q as Hback.
  { unfold s. rewrite <- Qmult_assoc, <- two_power_plus.
    replace (52 - e + (e - 52)) with 0 by lia. change (2 ^ 0)%Q with 1%Q. ring. }
  assert ((1 # 2) * 2 ^ (e - 52) == 2 ^ e * 2 ^ (-53))%Q as Hhalf.
  { replace (e - 52) with (e + -53 + 1) by lia.
    rewrite !two_power_plus. change (2 ^ 1)%Q with 2%Q. ring. }
  rewrite Qmult_plus_distr_l, Hback, Hhalf.
  apply Qplus_le_r. apply Qmult_le_r; [apply two_power_pos|exact Hlo].
Qed.

Lemma toDouble_1 : (toDouble 1 == 1)%Q.
Proof. reflexivity. Qed.

Lemma toDouble_100 : (toDouble 100 == 100)%Q.
Proof. reflexivity. Qed.

(** On the chunks of every split into at most 48 chunks, [toDouble] gives
    the percentage that the binary64 division and multiplication give. *)
Lemma chunkPercentage_is_binary64 (i n : nat) :
  (i < n ≤ 48)%nat →
  chunkPercentage i (Z.of_nat n) = chunkPercentage_binary64 i (Z.of_nat n).
Proof.
  intros [Hi Hn].
  assert (forallb (λ n, forallb (λ i,
            chunkPercentage i (Z.of_nat n)
            =? chunkPercentage_binary64 i (Z.of_nat n))
            (seq 0 n)) (seq 0 49) = true) as Hall
    by (vm_compute; reflexivity).
  rewrite forallb_forall in Hall.
  specialize (Hall n). rewrite forallb_forall in Hall.
  apply Z.eqb_eq, Hall; apply in_seq; lia.
Qed.

(** Chunk 23 of 40: the exact value 57.5 would give 58. *)
Lemma chunkPercentage_23_of_40 : chunkPercentage 22 40 = 57.
Proof. vm_compute. reflexivity. Qed.

(** *** The percentages *)

Lemma downloadPercentage_mono (l1 l2 total : Z) :
  0 < total → 0 ≤ l1 → l1 ≤ l2 →
  downloadPercentage l1 total ≤ downloadPercentage l2 total.
Proof.
  intros Ht H0 Hl. pose proof (inject_Z_pos total Ht) as Hpos.
  assert (0 <= inject_Z (l1 * 100))%Q as H1 by (rewrite <- (Zle_Qle 0); lia).
  assert (inject_Z (l1 * 100) <= inject_Z (l2 * 100))%Q as H12
    by (rewrite <- Zle_Qle; lia).
  apply jsRound_mono, toDouble_mono.
  - apply Qle_shift_div_l; [done|]. rewrite Qmult_0_l.
    by apply toDouble_nonneg.
  - apply Qdiv_le_mono; [done|]. by apply toDouble_mono.
Qed.

Lemma downloadPercentage_range (l total : Z) :
  0 < total → 0 ≤ l ≤ total → 0 ≤ downloadPercentage l total ≤ 100.
Proof.
  intros Ht [Hl0 Hl]. pose proof (inject_Z_pos total Ht) as Hpos.
  assert (0 <= inject_Z (l * 100))%Q as H1 by (rewrite <- (Zle_Qle 0); lia).
  split.
  - apply (jsRound_mono 0). apply toDouble_nonneg.
    apply Qle_shift_div_l; [done|]. rewrite Qmult_0_l.
    by apply toDouble_nonneg.
  - apply Z.le_trans with (jsRound (401 # 4)); [|by vm_compute].
    apply jsRound_mono.
    assert (toDouble (401 # 4) == 401 # 4)%Q as <- by reflexivity.
    apply toDouble_mono.
    { apply Qle_shift_div_l; [done|]. rewrite Qmult_0_l.
      by apply toDouble_nonneg. }
    apply Qle_shift_div_r; [done|].
    assert (0 < inject_Z (total * 100))%Q as Hfull
      by (apply inject_Z_pos; lia).
    eapply Qle_trans;
      [apply (toDouble_mono _ (inject_Z (total * 100)));
         [done|rewrite <- Zle_Qle; lia]|].
    eapply Qle_trans; [by apply toDouble_upper|].
    rewrite inject_Z_mult. change (inject_Z 100) with 100%Q.
    assert (2 ^ (-53) <= 1 # 400)%Q as Hsmall by (by vm_compute).
    set (t := inject_Z total) in *. nra.
Qed.

Lemma chunkPercentage_ratio (i : nat) (n : Z) :
  chunkPercentage i n = ratioPercentage (Z.of_nat i + 1) n.
Proof. reflexivity. Qed.

Lemma ratioPercentage_mono (k1 k2 n : Z) :
  0 < n → 0 ≤ k1 → k1 ≤ k2 → ratioPercentage k1 n ≤ ratioPercentage k2 n.
Proof.
  intros Hn H0 Hk. pose proof (inject_Z_pos n Hn) as Hpos.
  assert (0 <= inject_Z k1 / inject_Z n)%Q as Hq.
  { apply Qle_shift_div_l; [done|]. by rewrite Qmult_0_l, <- (Zle_Qle 0). }
  apply jsRound_mono, toDouble_mono.
  - apply Qmult_le_0_compat; [by apply toDouble_nonneg|done].
  - apply Qmult_le_compat_r; [|done]. apply toDouble_mono; [done|].
    apply Qdiv_le_mono; [done|]. by rewrite <- Zle_Qle.
Qed.

Lemma ratioPercentage_range (k n : Z) :
  0 < n → 0 ≤ k ≤ n → 0 ≤ ratioPercentage k n ≤ 100.
Proof.
  intros Hn [Hk0 Hk]. pose proof (inject_Z_pos n Hn) as Hpos.
  assert (0 <= inject_Z k / inject_Z n)%Q as Hq.
  { apply Qle_shift_div_l; [done|]. by rewrite Qmult_0_l, <- (Zle_Qle 0). }
  assert (toDouble (inject_Z k / inject_Z n) <= 1)%Q as Hone.
  { assert (toDouble 1 == 1)%Q as <- by reflexivity.
    apply toDouble_mono; [done|].
    apply Qle_shift_div_r; [done|]. by rewrite Qmult_1_l, <- Zle_Qle. }
  pose proof (toDouble_nonneg _ Hq) as Hnonneg.
  apply jsRound_range.
  - apply toDouble_nonneg. by apply Qmult_le_0_compat.
  - apply Qle_trans with (toDouble 100); [|by vm_compute].
    apply toDouble_mono; [by apply Qmult_le_0_compat|].
    rewrite <- (Qmult_1_l 100) at 2. by apply Qmult_le_compat_r.
Qed.

(** The last of [n] chunks is at 100 per cent. *)
Lemma chunkPercentage_last (i : nat) :
  chunkPercentage i (Z.of_nat (S i)) = 100.
Proof.
  unfold chunkPercentage.
  assert (inject_Z (Z.of_nat i + 1) / inject_Z (Z.of_nat (S i)) == 1)%Q as Hq.
  { replace (Z.of_nat (S i)) with (Z.of_nat i + 1) by lia.
    apply Qmult_inv_r. change 0%Q with (inject_Z 0).
    rewrite inject_Z_injective. lia. }
  assert (toDouble (toDouble (inject_Z (Z.of_nat i + 1)
                              / inject_Z (Z.of_nat (S i))) * 100)
          == 100)%Q as Hd.
  { rewrite Hq. reflexivity. }
  unfold jsRound. by rewrite Hd.
Qed.

End Rounding.

Section Order.

Lemma follows_refl k : follows k k.
Proof. right. split; [done|]. left. lia. Qed.

Lemma follows_trans a b c : follows a b → follows b c → follows a c.
Proof.
  unfold follows. intros [H1|[E1 H1]] [H2|[E2 H2]].
  - left. lia.
  - left. by rewrite <- E2.
  - left. by rewrite E1.
  - right. split; [congruence|].
    destruct H1 as [H1|H1]; [|by right].
    destruct H2 as [H2|H2]; [left; lia|right; congruence].
Qed.

Lemma below_follows k k' st : follows k k' → below k st → below k' st.
Proof.
  intros Hk. destruct st as [[k0|]|]; simpl; [|done..].
  intros H0. by apply (follows_trans _ k).
Qed.

Lemma below_inOrder k s p jobId msg st :
  follows k (s, p) → 0 ≤ p ≤ 100 → below k st →
  below (s, p) (inOrder st (EvProgress jobId s p msg)).
Proof.
  intros Hk Hp Hst. destruct st as [[k0|]|]; simpl in *; [| |done].
  - rewrite !bool_decide_eq_true_2; [|by apply (follows_trans _ k)|done].
    simpl. apply follows_refl.
  - rewrite bool_decide_eq_true_2 by done. simpl. apply follows_refl.
Qed.

Lemma mono_weaken {A} k1 k1' k2 k2' (m : M A) :
  follows k1' k1 → follows k2 k2' → mono k1 k2 m → mono k1' k2' m.
Proof.
  intros H1 H2 Hm.
  apply (tracksS_conseq inOrder _ (below k1) m _ (λ _, below k2) Hm).
  - intros st. by apply below_follows.
  - intros _ st. by apply below_follows.
Qed.

Lemma mono_silent {A} k (m : M A) :
  (∀ w, console (m w).1 = console w) → mono k k m.
Proof. intros Hc. by apply tracksS_silent. Qed.

Lemma mono_ret {A} k1 k2 (a : A) : follows k1 k2 → mono k1 k2 (mret a).
Proof.
  intros H. apply (mono_weaken k1 k1 k1 k2); [apply follows_refl|done|].
  by apply mono_silent.
Qed.

Lemma mono_throw {A} k1 k2 e : follows k1 k2 → mono k1 k2 (@throw A e).
Proof.
  intros H. apply (mono_weaken k1 k1 k1 k2); [apply follows_refl|done|].
  by apply mono_silent.
Qed.

Lemma mono_gets {A} k (f : World → A) : mono k k (gets f).
Proof. by apply mono_silent. Qed.

Lemma mono_modify k f :
  (∀ w, console (f w) = console w) → mono k k (modify f).
Proof. intros H. by apply mono_silent. Qed.

Lemma mono_setProperty k jobId key v : mono k k (setProperty jobId key v).
Proof. apply mono_silent. intros w. apply setProperty_console. Qed.

Lemma mono_call {A} k c (r : Outcome A) : mono k k (call c r).
Proof. apply tracksS_call. by intros st. Qed.

Lemma mono_update k jobId s p msg :
  follows k (s, p) → 0 ≤ p ≤ 100 →
  mono k (s, p) (updateProgress jobId s p msg).
Proof.
  intros Hk Hp. apply tracksS_updateProgress. intros st.
  by apply below_inOrder.
Qed.

Lemma mono_bind {A B} k1 k2 k3 (m : M A) (f : A → M B) :
  mono k1 k2 m → (∀ a, mono k2 k3 (f a)) → follows k2 k3 →
  mono k1 k3 (m ≫= f).
Proof.
  intros Hm Hf Hk.
  apply (tracksS_bind inOrder _ m f (λ _, below k2) _ Hm Hf).
  intros _ st. by apply below_follows.
Qed.

(** After a call, the rest runs on what the call returned. *)
Lemma mono_bind_call {A B} k1 k3 c (r : Outcome A) (f : A → M B) :
  (∀ a, r = Ok a → mono k1 k3 (f a)) → follows k1 k3 →
  mono k1 k3 (call c r ≫= f).
Proof.
  intros Hf Hk w. destruct r as [a|e].
  - destruct (Hf a eq_refl (logEvent (EvCall c None) w)) as (tr & Hc & H).
    exists (EvCall c None :: tr). split.
    + change ((call c (Ok a) ≫= f) w) with (f a (logEvent (EvCall c None) w)).
      rewrite Hc. simpl. by rewrite <- app_assoc.
    + intros st Hst. by apply H.
  - exists [EvCall c (Some e)]. split; [done|].
    intros st Hst. by apply (below_follows k1).
Qed.

Lemma mono_tryCatch {A} k1 k2 k3 (m : M A) (h : string → M A) :
  mono k1 k2 m → (∀ e, mono k2 k3 (h e)) → follows k2 k3 →
  mono k1 k3 (tryCatch m h).
Proof.
  intros Hm Hh Hk.
  apply (tracksS_tryCatch inOrder _ m h (λ _, below k2) _ Hm Hh).
  intros _ st. by apply below_follows.
Qed.

Lemma mono_settle {A} k1 k2 (m : M A) : mono k1 k2 m → mono k1 k2 (settle m).
Proof. intros Hm. by apply tracks_settle. Qed.

End Order.

Create HintDb mono.

Ltac follows_tac :=
  first [ apply follows_refl
        | apply (bool_decide_unpack _); vm_compute; exact I ].

#[global] Hint Extern 1 (follows _ _) => follows_tac : mono.

Ltac mono_atom :=
  first
    [ apply mono_update; [follows_tac|lia]
    | apply mono_call
    | apply mono_gets
    | apply mono_setProperty
    | apply mono_modify; done
    | solve [eauto with mono] ].

Ltac mono_step :=
  lazymatch goal with
  | |- mono _ _ ((if ?c then _ else _) ≫= _) => destruct c
  | |- mono _ _ ((match ?x with _ => _ end) ≫= _) => destruct x
  | |- mono _ _ (call _ _ ≫= _) =>
      apply mono_bind_call; [intros ? ?|follows_tac]
  | |- mono _ _ (_ ≫= _) => eapply mono_bind; [mono_atom|intros|follows_tac]
  | |- mono _ _ (settle _) => apply mono_settle
  | |- mono _ _ (mret _) => apply mono_ret; follows_tac
  | |- mono _ _ (throw _) => apply mono_throw; follows_tac
  | |- mono _ _ (if ?c then _ else _) => destruct c
  | |- mono _ _ (match ?x with _ => _ end) => destruct x
  | |- mono _ _ _ =>
      eapply mono_weaken; [| |mono_atom]; follows_tac
  end.

Ltac mono_auto := repeat mono_step.

Section Monotone.

Variable env : Env.

Hypothesis download_ok :
  ∀ url events, axiosGet env url = Ok events → downloadEventsOk events.

Lemma mono_stat k path : mono k k (stat path).
Proof.
  intros w. unfold stat. destruct (disk w !! path).
  - exists [EvCall (CStat path) None]. by split.
  - exists [EvCall (CStat path)
              (Some "ENOENT: no such file or directory")]. by split.
Qed.

Lemma mono_unlink k path : mono k k (unlink path).
Proof.
  intros w. unfold unlink. destruct (disk w !! path).
  - exists [EvCall (CUnlink path) None]. by split.
  - exists [EvCall (CUnlink path)
              (Some "ENOENT: no such file or directory")]. by split.
Qed.

Lemma mono_cleanupFile k path : mono k k (cleanupFile path).
Proof.
  unfold cleanupFile.
  apply (mono_tryCatch k k k); [apply mono_unlink| |apply follows_refl].
  intros e. apply mono_ret, follows_refl.
Qed.

Lemma mono_sendWebhook k subject : mono k k (sendWebhook env subject).
Proof.
  unfold sendWebhook. destruct (negb (WEBHOOK_URL env)).
  - apply mono_ret, follows_refl.
  - apply (mono_tryCatch k k k); [apply mono_call| |apply follows_refl].
    intros e. apply mono_ret, follows_refl.
Qed.

Lemma mono_extractEpisodeId k url : mono k k (extractEpisodeId url).
Proof.
  unfold extractEpisodeId. destruct (matchEpisode url).
  - apply mono_ret, follows_refl.
  - apply mono_throw, follows_refl.
Qed.

#[local] Hint Resolve mono_stat mono_unlink mono_cleanupFile mono_sendWebhook
  mono_extractEpisodeId : mono.

(** The download percentages go up from the percentage [p0] reached so
    far. *)
Lemma mono_reportDownload jobId total events : ∀ p0,
  0 ≤ p0 ≤ 100 →
  Forall (λ e, e.2 = total ∧ 0 ≤ e.1 ≤ total ∧
               (total ≠ 0 → p0 ≤ downloadPercentage e.1 total)) events →
  StronglySorted Z.le events.*1 →
  mono ("download", p0) ("download", 100) (reportDownload jobId events).
Proof.
  induction events as [|[l t] events IH]; intros p0 Hp0 Hall Hsorted.
  - apply mono_ret. right. split; [done|]. left. simpl. lia.
  - apply Forall_cons in Hall as [(Ht & Hl & Hp) Hall]. simpl in Ht, Hl, Hp.
    rewrite fmap_cons in Hsorted.
    apply StronglySorted_inv in Hsorted as [Hsorted Hle].
    subst t. cbn [reportDownload]. destruct (total =? 0) eqn:Hz.
    + eapply mono_bind; [apply mono_ret, follows_refl|intros _|].
      * by apply IH.
      * right. split; [done|]. left. simpl. lia.
    + apply Z.eqb_neq in Hz. assert (0 < total) as Hpos by lia.
      pose proof (downloadPercentage_range l total Hpos Hl) as Hrange.
      eapply mono_bind; [apply mono_update|intros _|].
      * right. split; [done|]. left. simpl. by apply Hp.
      * done.
      * apply IH; [done| |done].
        rewrite Forall_forall in Hall. rewrite Forall_forall in Hle.
        apply Forall_forall.
        intros [l' t'] Hin. destruct (Hall _ Hin) as (Ht' & Hl' & _).
        cbn [fst snd] in *. split; [done|]. split; [done|]. intros _.
        apply downloadPercentage_mono; [done|lia|].
        apply Hle, list_elem_of_fmap. by exists (l', t').
      * right. split; [done|]. left. simpl. lia.
Qed.

Lemma mono_downloadAudio k audioUrl episodeId jobId :
  follows k ("download", 0) →
  mono k ("download", 100) (downloadAudio env audioUrl episodeId jobId).
Proof.
  intros Hk. unfold downloadAudio.
  apply (mono_weaken ("download", 0) k ("download", 100) ("download", 100));
    [done|apply follows_refl|].
  eapply mono_bind; [apply mono_gets|intros t|follows_tac].
  eapply mono_bind; [mono_atom|intros _|follows_tac].
  apply mono_bind_call; [intros events Hev|follows_tac].
  destruct (download_ok _ _ Hev) as (total & Hall & Hsorted).
  eapply mono_bind; [|intros _|apply follows_refl].
  { apply (mono_reportDownload jobId total); [done| |done].
    eapply Forall_impl; [exact Hall|]. intros [l t'] [Ht Hl].
    cbn [fst snd] in *.
    split; [done|]. split; [done|]. intros Hne.
    apply downloadPercentage_range; lia. }
  mono_auto.
Qed.

#[local] Hint Resolve mono_downloadAudio : mono.

(** The splitting percentages go up from the percentage [p0] reached so
    far, as long as the loop stays within the [n] chunks. *)
Lemma mono_splitLoop inputPath jobId n todo : ∀ i chunks p0,
  0 ≤ p0 ≤ 100 →
  (todo ≠ 0%nat →
   0 < n ∧ Z.of_nat (i + todo) ≤ n ∧ p0 ≤ chunkPercentage i n) →
  mono ("splitting", p0) ("splitting", 100)
    (splitLoop env inputPath jobId n todo i chunks).
Proof.
  induction todo as [|todo IH]; intros i chunks p0 Hp0 Hn.
  - apply mono_ret. right. split; [done|]. left. simpl. lia.
  - destruct Hn as (Hpos & Hin & Hp); [done|].
    assert (0 ≤ chunkPercentage i n ≤ 100) as Hrange.
    { rewrite chunkPercentage_ratio. apply ratioPercentage_range; lia. }
    cbn [splitLoop]. apply mono_bind_call; [intros size _|].
    2:{ right. split; [done|]. left. simpl. lia. }
    eapply mono_bind; [by apply mono_modify|intros _|].
    2:{ right. split; [done|]. left. simpl. lia. }
    eapply mono_bind; [apply mono_update|intros _|].
    + right. split; [done|]. by left.
    + done.
    + apply IH; [done|]. intros Htodo. split_and!; [done|lia|].
      rewrite !chunkPercentage_ratio. apply ratioPercentage_mono; lia.
    + right. split; [done|]. left. simpl. lia.
Qed.

Lemma mono_splitAudioIntoChunks k inputPath jobId :
  follows k ("splitting", 0) →
  mono k ("splitting", 100) (splitAudioIntoChunks env inputPath jobId).
Proof.
  intros Hk. unfold splitAudioIntoChunks, getAudioDuration.
  apply (mono_weaken ("splitting", 0) k ("splitting", 100) ("splitting", 100));
    [done|apply follows_refl|].
  apply mono_bind_call; [intros duration _|follows_tac].
  eapply mono_bind; [mono_atom|intros _|follows_tac].
  eapply mono_bind; [|intros chunks|apply follows_refl].
  { apply mono_splitLoop; [lia|]. intros Htodo.
    assert (0 < numChunks duration) as Hpos by lia.
    split_and!; [done|lia|].
    rewrite chunkPercentage_ratio. apply ratioPercentage_range; lia. }
  mono_auto.
Qed.

Lemma mono_compressAudio k inputPath jobId :
  follows k ("compress", 0) →
  mono k ("compress", 100) (compressAudio env inputPath jobId).
Proof.
  intros Hk. unfold compressAudio.
  apply (mono_weaken ("compress", 0) k ("compress", 100) ("compress", 100));
    [done|apply follows_refl|].
  eapply mono_bind; [mono_atom|intros _|follows_tac].
  apply (mono_tryCatch _ ("compress", 100)); [|intros e|follows_tac];
    mono_auto.
Qed.

Lemma mono_transcribeWithGroq k filepath chunk jobId :
  follows k ("transcribe", 0) →
  match chunk with
  | Some (i, total) => (i < total)%nat
  | None => True
  end →
  mono k ("transcribe", 100) (transcribeWithGroq env filepath chunk jobId).
Proof.
  intros Hk Hchunk. unfold transcribeWithGroq.
  apply (mono_weaken ("transcribe", 0) k ("transcribe", 100) ("transcribe", 100));
    [done|apply follows_refl|].
  eapply mono_bind; [mono_atom|intros _|follows_tac].
  apply mono_bind_call; [intros t _|follows_tac].
  destruct chunk as [[i total]|]; [|mono_auto].
  assert (0 ≤ chunkPercentage i (Z.of_nat total) ≤ 100) as Hrange.
  { rewrite chunkPercentage_ratio. apply ratioPercentage_range; lia. }
  eapply mono_bind; [apply mono_update|intros _|].
  - right. split; [done|]. by right.
  - done.
  - apply mono_ret. right. split; [done|]. by right.
  - right. split; [done|]. by right.
Qed.

Lemma mono_transcribeLoop jobId total chunks : ∀ i acc,
  (i + length chunks = total)%nat →
  mono ("transcribe", 100) ("transcribe", 100)
    (transcribeLoop env jobId total i chunks acc).
Proof.
  induction chunks as [|c chunks IH]; intros i acc Hlen.
  - apply mono_ret, follows_refl.
  - cbn [transcribeLoop]. simpl in Hlen.
    eapply mono_bind; [|intros t|apply follows_refl].
    { apply mono_transcribeWithGroq; [follows_tac|lia]. }
    eapply mono_bind; [apply mono_cleanupFile|intros _|apply follows_refl].
    apply IH. lia.
Qed.

Lemma mono_mergeStep k transcriptions jobId :
  follows k ("merge", 0) →
  mono k ("merge", 100) (mergeStep transcriptions jobId).
Proof.
  intros Hk. unfold mergeStep.
  apply (mono_weaken ("merge", 0) k ("merge", 100) ("merge", 100));
    [done|apply follows_refl|].
  mono_auto.
Qed.

Lemma mono_transcribeChunks k chunks jobId :
  follows k ("transcribe", 0) →
  mono k ("merge", 100) (transcribeChunks env chunks jobId).
Proof.
  intros Hk. unfold transcribeChunks.
  apply (mono_weaken ("transcribe", 0) k ("merge", 100) ("merge", 100));
    [done|apply follows_refl|].
  eapply mono_bind; [|intros ts|].
  - apply (mono_weaken ("transcribe", 100) _ ("transcribe", 100)
             ("transcribe", 100)); [follows_tac|apply follows_refl|].
    by apply mono_transcribeLoop.
  - apply mono_mergeStep. follows_tac.
  - follows_tac.
Qed.

#[local] Hint Resolve mono_splitAudioIntoChunks mono_compressAudio
  mono_transcribeChunks : mono.

Lemma mono_getFileSizeMB k path : mono k k (getFileSizeMB path).
Proof.
  unfold getFileSizeMB.
  eapply mono_bind; [apply mono_stat|intros size|apply follows_refl].
  apply mono_ret, follows_refl.
Qed.

#[local] Hint Resolve mono_getFileSizeMB : mono.

Lemma mono_processTranscription k audioPath jobId :
  follows k ("compress", 0) →
  mono k ("merge", 100) (processTranscription env audioPath jobId).
Proof.
  intros Hk. unfold processTranscription.
  apply (mono_weaken ("compress", 0) k ("merge", 100) ("merge", 100));
    [done|apply follows_refl|].
  eapply mono_bind; [mono_atom|intros size|follows_tac].
  destruct (exceedsLimit size).
  - mono_auto.
  - eapply mono_bind; [mono_atom|intros compressedPath|follows_tac].
    eapply mono_bind; [mono_atom|intros finalSize|follows_tac].
    destruct (exceedsLimit finalSize).
    + mono_auto.
    + eapply mono_bind; [|intros t|].
      * apply (mono_transcribeWithGroq _ _ None); [follows_tac|done].
      * mono_auto.
      * follows_tac.
Qed.

Lemma mono_summariseWithGemini k transcript episodeTitle jobId :
  follows k ("summary", 0) →
  mono k ("summary", 100)
    (summariseWithGemini env transcript episodeTitle jobId).
Proof.
  intros Hk. unfold summariseWithGemini.
  apply (mono_weaken ("summary", 0) k ("summary", 100) ("summary", 100));
    [done|apply follows_refl|].
  destruct (negb (GEMINI_API_KEY env)); [mono_auto|].
  apply (mono_tryCatch _ ("summary", 100)); [|intros e|follows_tac].
  - eapply mono_bind; [mono_atom|intros _|follows_tac].
    apply mono_bind_call; [intros parts _|follows_tac].
    destruct (option_map (@concat N) parts) as [[|c summaryText]|];
      mono_auto.
  - mono_auto.
Qed.

Lemma mono_catchBlock k jobId tempFilePath message :
  follows k ("error", 100) →
  mono k ("error", 100) (catchBlock jobId tempFilePath message).
Proof.
  intros Hk. unfold catchBlock.
  eapply mono_bind; [|intros _|exact Hk].
  { destruct tempFilePath; [apply mono_cleanupFile|].
    apply mono_ret, follows_refl. }
  eapply mono_bind; [apply mono_update; [exact Hk|lia]|intros _|
                     apply follows_refl].
  mono_auto.
Qed.

End Monotone.

Section OrderOfJob.

Variable env : Env.

Hypothesis download_ok :
  ∀ url events, axiosGet env url = Ok events → downloadEventsOk events.

Lemma order_ret {A} k (a : A) (Q : Outcome A → _ → Prop) :
  (∀ st, below k st → Q (Ok a) st) → tracksS inOrder (below k) (mret a) Q.
Proof. intros H. apply tracks_ret. intros st _. apply H. Qed.

Lemma order_throw {A} k e (Q : Outcome A → _ → Prop) :
  (∀ st, below k st → Q (Throw e) st) →
  tracksS inOrder (below k) (throw e) Q.
Proof. intros H. apply tracks_throw. intros st _. apply H. Qed.

Lemma order_bind_mono {A B} k1 k2 (m : M A) (f : A → M B)
    (Q : Outcome B → _ → Prop) :
  mono k1 k2 m →
  (∀ a, tracksS inOrder (below k2) (f a) Q) →
  (∀ e st, below k2 st → Q (Throw e) st) →
  tracksS inOrder (below k1) (m ≫= f) Q.
Proof.
  intros Hm Hf Hthrow.
  by apply (tracksS_bind inOrder _ m f (λ _, below k2) _ Hm Hf).
Qed.

Lemma order_bind_update {B} k jobId s p msg (f : () → M B)
    (Q : Outcome B → _ → Prop) :
  follows k (s, p) → 0 ≤ p ≤ 100 →
  tracksS inOrder (below (s, p)) (f ()) Q →
  tracksS inOrder (below k) (updateProgress jobId s p msg ≫= f) Q.
Proof.
  intros Hk Hp Hf.
  apply (tracksS_bind inOrder _ _ f (λ r st, r = Ok () ∧ below (s, p) st)).
  - apply tracksS_updateProgress. intros st Hst. split; [done|].
    by apply (below_inOrder k).
  - intros []. apply (tracksS_conseq inOrder _ (below (s, p)) _ _ Q Hf);
      [by intros st [_ ?]|done].
  - by intros e st [? _].
Qed.

Lemma order_bind_call {A B} k c (r : Outcome A) (f : A → M B)
    (Q : Outcome B → _ → Prop) :
  (∀ a, r = Ok a → tracksS inOrder (below k) (f a) Q) →
  (∀ e st, r = Throw e → below k st → Q (Throw e) st) →
  tracksS inOrder (below k) (call c r ≫= f) Q.
Proof.
  intros Hf Hthrow w. destruct r as [a|e].
  - destruct (Hf a eq_refl (logEvent (EvCall c None) w)) as (tr & Hc & H).
    exists (EvCall c None :: tr). split.
    + change ((call c (Ok a) ≫= f) w) with (f a (logEvent (EvCall c None) w)).
      rewrite Hc. simpl. by rewrite <- app_assoc.
    + intros st Hst. by apply H.
  - exists [EvCall c (Some e)]. split; [done|].
    intros st Hst. by apply Hthrow.
Qed.

Ltac order_side :=
  intros; (eapply below_follows; [|eassumption]); follows_tac.

Lemma order_resolveEpisode jobId spotifyUrl providedRssUrl :
  tracksS inOrder (below ("metadata", 0))
    (resolveEpisode env jobId spotifyUrl providedRssUrl) resolvedUpTo.
Proof.
  unfold resolveEpisode.
  apply order_bind_update; [follows_tac|lia|].
  apply order_bind_call; [intros [spotifyData|] _|intros; simpl; order_side].
  2:{ apply order_bind_update; [follows_tac|lia|].
      apply order_bind_mono with (k2 := ("error", 100));
        [apply mono_setProperty|intros _|done].
      by apply order_ret. }
  apply order_bind_update; [follows_tac|lia|].
  apply (tracksS_bind inOrder _ _ _
           (λ r st, match r with
                    | Ok (Some _) => below ("rss", 100) st
                    | _ => below ("error", 100) st
                    end)).
  - destruct (truthy providedRssUrl) eqn:Hprov.
    + apply order_bind_update; [follows_tac|lia|].
      apply order_ret. intros st Hst.
      destruct providedRssUrl; [done|order_side].
    + apply order_bind_update; [follows_tac|lia|].
      apply order_bind_call; [intros found _|intros; simpl; order_side].
      destruct (truthy found) eqn:Hfound.
      * apply order_bind_update; [follows_tac|lia|].
        apply order_ret. intros st Hst. destruct found; [done|order_side].
      * apply order_bind_update; [follows_tac|lia|].
        apply order_bind_mono with (k2 := ("error", 100));
          [apply mono_setProperty|intros _|done].
        apply order_bind_mono with (k2 := ("error", 100));
          [apply mono_sendWebhook|intros _|done].
        by apply order_ret.
  - intros [rssUrl|]; [|by apply tracks_ret].
    apply order_bind_update; [follows_tac|lia|].
    apply order_bind_call; [intros items _|intros; simpl; order_side].
    assert (∀ targetEpisode,
      tracksS inOrder (below ("parse", 0))
        (if truthy (enclosure_url targetEpisode)
         then updateProgress jobId "parse" 100 "RSS parsed successfully"
              ≫= λ _, mret (Some (targetEpisode,
                                  default "" (enclosure_url targetEpisode)))
         else updateProgress jobId "error" 100
                "No audio URL found for this episode"
              ≫= λ _, setProperty jobId "complete" PTrue
              ≫= λ _, mret None) resolvedUpTo) as Htarget.
    { intros targetEpisode. destruct (truthy (enclosure_url targetEpisode)).
      - apply order_bind_update; [follows_tac|lia|]. by apply order_ret.
      - apply order_bind_update; [follows_tac|lia|].
        apply order_bind_mono with (k2 := ("error", 100));
          [apply mono_setProperty|intros _|done].
        by apply order_ret. }
    destruct (bestMatch env items (name spotifyData)) as [best|];
      [apply Htarget|].
    destruct (head items) as [first|]; [apply Htarget|].
    apply order_throw. simpl. order_side.
  - by intros e st.
Qed.

Lemma order_postTranscript jobId spotifyUrl rssUrl :
  tracksS inOrder (below ("metadata", 0))
    (postTranscript env jobId spotifyUrl rssUrl)
    (λ _, below ("error", 100)).
Proof.
  unfold postTranscript. destruct (negb (truthy spotifyUrl)).
  { apply order_ret. order_side. }
  apply (tracksS_bind inOrder _ _ _
           (λ r st, match r with
                    | Ok (Ok (Some _)) => below ("download", 100) st
                    | _ => below ("error", 100) st
                    end)).
  - apply tracks_settle.
    apply (tracksS_bind inOrder _ _ _ resolvedUpTo);
      [apply order_resolveEpisode| |by intros e st].
    intros [[targetEpisode audioUrl]|]; [|by apply tracks_ret].
    apply order_bind_mono with (k2 := ("parse", 100));
      [apply mono_extractEpisodeId|intros episodeId|simpl; order_side].
    apply order_bind_mono with (k2 := ("download", 100));
      [apply mono_downloadAudio; [done|follows_tac]|intros tempFilePath|
       simpl; order_side].
    by apply order_ret.
  - intros [[[targetEpisode tempFilePath]|]|e].
    + apply (mono_bind _ ("summary", 100)); [|intros r2|follows_tac].
      * apply mono_settle.
        eapply mono_bind;
          [apply mono_processTranscription; follows_tac
          |intros transcript|follows_tac].
        eapply mono_bind; [|intros summary|apply follows_refl].
        { apply (mono_tryCatch _ ("summary", 100));
            [apply mono_summariseWithGemini; follows_tac
            |intros e; apply mono_ret, follows_refl|apply follows_refl]. }
        eapply mono_bind;
          [apply mono_cleanupFile|intros _|apply follows_refl].
        apply mono_ret, follows_refl.
      * destruct r2 as [[transcript summary]|e].
        -- apply (mono_bind _ ("complete", 100)); [|intros r3|follows_tac].
           ++ apply mono_settle. mono_auto.
           ++ destruct r3 as [[]|e];
                [apply mono_ret; follows_tac
                |apply mono_catchBlock; follows_tac].
        -- apply mono_catchBlock. follows_tac.
    + by apply order_ret.
    + by apply mono_catchBlock, follows_refl.
  - by intros e st.
Qed.

End OrderOfJob.

Section OrderSound.

Global Instance follows_transitive : Transitive follows.
Proof. intros a b c. apply follows_trans. Qed.

Lemma foldl_inOrder_None tr : foldl inOrder None tr = None.
Proof. induction tr as [|[] tr IH]; simpl; done. Qed.

(** An observer that ends in order has seen publications in range, each of
    which may follow the one before it. *)
Lemma inOrder_sound tr : ∀ st,
  foldl inOrder st tr ≠ None →
  Forall (λ k, 0 ≤ k.2 ≤ 100) (publications tr) ∧
  Sorted follows (publications tr) ∧
  ∀ k, st = Some (Some k) → HdRel follows k (publications tr).
Proof.
  induction tr as [|e tr IH]; intros st Hrun.
  - split_and!; constructor.
  - destruct e as [j s p msg|c failed].
    2:{ destruct (IH st) as (Hall & Hsorted & Hhd); [|done].
        simpl in Hrun. by destruct st. }
    destruct st as [last|]; [|by rewrite foldl_inOrder_None in Hrun].
    cbn [foldl inOrder] in Hrun.
    destruct (bool_decide (0 ≤ p ≤ 100)) eqn:Hp;
      [|by rewrite foldl_inOrder_None in Hrun].
    apply bool_decide_eq_true in Hp.
    assert (match last with
            | Some k => follows k (s, p)
            | None => True
            end) as Hlast.
    { destruct last as [k|]; [|done].
      destruct (bool_decide (follows k (s, p))) eqn:Hf;
        [by apply bool_decide_eq_true in Hf|].
      by rewrite foldl_inOrder_None in Hrun. }
    assert (foldl inOrder (Some (Some (s, p))) tr ≠ None) as Hrun'.
    { destruct last as [k|]; simpl in Hrun; [|done].
      by rewrite (bool_decide_eq_true_2 _ Hlast) in Hrun. }
    destruct (IH _ Hrun') as (Hall & Hsorted & Hhd).
    change (publications (EvProgress j s p msg :: tr))
      with ((s, p) :: publications tr).
    split_and!.
    + by constructor.
    + constructor; [done|]. by apply Hhd.
    + intros k [= ->]. by constructor.
Qed.

Lemma percentages_publications step tr :
  percentages step tr = percentagesOf step (publications tr).
Proof.
  unfold percentages, percentagesOf, publications.
  induction tr as [|[j s p msg|c failed] tr IH]; simpl; [done| |done].
  destruct (bool_decide (s = step)); simpl; [f_equal|]; exact IH.
Qed.

Lemma percentagesOf_range step ks :
  Forall (λ k, 0 ≤ k.2 ≤ 100) ks →
  Forall (λ p, 0 ≤ p ≤ 100) (percentagesOf step ks).
Proof.
  intros H. apply Forall_forall. intros p Hp.
  apply list_elem_of_omap in Hp as ([s p'] & Hin & Heq).
  rewrite Forall_forall in H. specialize (H _ Hin).
  simpl in *. by case_bool_decide; simplify_eq.
Qed.

Lemma percentagesOf_sorted step ks :
  step ≠ "transcribe" →
  StronglySorted follows ks →
  StronglySorted Z.le (percentagesOf step ks).
Proof.
  intros Hstep. induction 1 as [|[s p] ks Hsorted IH Hall]; [constructor|].
  cbn. case_bool_decide as Hs; [|done]. simpl in Hs. subst s.
  constructor; [done|].
  apply Forall_forall. intros p' Hp'.
  apply list_elem_of_omap in Hp' as ([s' q] & Hin & Heq).
  simpl in Heq. case_bool_decide as Hs'; [|done]. simplify_eq.
  rewrite Forall_forall in Hall. destruct (Hall _ Hin) as [Hlt|[_ [Hle|Ht]]].
  - simpl in Hlt. lia.
  - done.
  - done.
Qed.

End OrderSound.

Lemma sample_download_ok size groq compress url events :
  axiosGet (sampleEnv size groq compress) url = Ok events →
  downloadEventsOk events.
Proof.
  intros [= <-]. exists 100. split.
  - repeat (apply Forall_cons; split; [simpl; lia|]). by apply Forall_nil.
  - simpl. repeat (constructor; [|repeat constructor; lia]). constructor.
Qed.

(** C8, as the code has it: if the download reports byte counts that do not
    decrease and do not exceed the declared total, every percentage that a
    job publishes is within 0..100, and for every step other than
    [transcribe] the percentages published for the step never decrease.
    (The step [transcribe] starts again from 0 at every chunk.) *)
Theorem percentages_in_range_and_order (env : Env) (jobId : string)
    (spotifyUrl rssUrl : option string) (w : World) :
  (∀ url events, axiosGet env url = Ok events → downloadEventsOk events) →
  ∃ tr,
    console (postTranscript env jobId spotifyUrl rssUrl w).1
      = console w ++ tr ∧
    ∀ step,
      Forall (λ p, 0 ≤ p ≤ 100) (percentages step tr) ∧
      (step ≠ "transcribe" → Sorted Z.le (percentages step tr)).
Proof.
  intros Hdl.
  destruct (order_postTranscript env Hdl jobId spotifyUrl rssUrl w)
    as (tr & Hcon & H).
  exists tr. split; [done|]. intros step.
  specialize (H (Some None) I).
  destruct (inOrder_sound tr (Some None)) as (Hall & Hsorted & _).
  { intros Hnone. by rewrite Hnone in H. }
  rewrite percentages_publications. split.
  - by apply percentagesOf_range.
  - intros Hstep. apply StronglySorted_Sorted, percentagesOf_sorted; [done|].
    apply Sorted_StronglySorted; [apply follows_transitive|done].
Qed.

Lemma percentages_in_range_and_order_witness :
  (∀ url events,
     axiosGet (sampleEnv 30000000 (Ok {| text := lit "hi" |}) (Ok 500%N)) url
       = Ok events → downloadEventsOk events) ∧
  ∃ tr,
    console (postTranscript
               (sampleEnv 30000000 (Ok {| text := lit "hi" |}) (Ok 500%N))
               "job1" sampleUrl None emptyWorld).1
      = console emptyWorld ++ tr ∧
    ∀ step,
      Forall (λ p, 0 ≤ p ≤ 100) (percentages step tr) ∧
      (step ≠ "transcribe" → Sorted Z.le (percentages step tr)).
Proof.
  split; [apply sample_download_ok|].
  apply (percentages_in_range_and_order
           (sampleEnv 30000000 (Ok {| text := lit "hi" |}) (Ok 500%N))
           "job1" sampleUrl None emptyWorld).
  apply sample_download_ok.
Defined.

(** C8 as stated fails, in three ways.  For a job of two chunks the step
    [transcribe] publishes 0, 50, 0, 100.  The percentages of [download] are
    computed from the byte counts that the download reports, as they come:
    counts that go back give percentages that go back, and a count above
    the declared total gives a percentage above 100. *)
Lemma percentages_go_back_and_above_100 :
  (percentages "transcribe"
     (console (postTranscript
                 (sampleEnv 30000000 (Ok {| text := lit "hi" |}) (Ok 500%N))
                 "job1" sampleUrl None emptyWorld).1)
     = [0; 50; 0; 100] ∧
   ¬ Sorted Z.le
       (percentages "transcribe"
          (console (postTranscript
                      (sampleEnv 30000000 (Ok {| text := lit "hi" |})
                         (Ok 500%N))
                      "job1" sampleUrl None emptyWorld).1))) ∧
  (percentages "download"
     (console (postTranscript (reportingEnv [(80, 100); (40, 100)])
                 "job1" sampleUrl None emptyWorld).1)
     = [0; 80; 40; 100] ∧
   ¬ Sorted Z.le
       (percentages "download"
          (console (postTranscript (reportingEnv [(80, 100); (40, 100)])
                      "job1" sampleUrl None emptyWorld).1))) ∧
  (percentages "download"
     (console (postTranscript (reportingEnv [(300, 100)])
                 "job1" sampleUrl None emptyWorld).1)
     = [0; 300; 100] ∧
   ¬ Forall (λ p, 0 ≤ p ≤ 100)
       (percentages "download"
          (console (postTranscript (reportingEnv [(300, 100)])
                      "job1" sampleUrl None emptyWorld).1))).
Proof.
  assert (percentages "transcribe"
    (console (postTranscript
                (sampleEnv 30000000 (Ok {| text := lit "hi" |}) (Ok 500%N))
                "job1" sampleUrl None emptyWorld).1)
    = [0; 50; 0; 100]) as Heq1 by (vm_compute; reflexivity).
  assert (percentages "download"
    (console (postTranscript (reportingEnv [(80, 100); (40, 100)])
                "job1" sampleUrl None emptyWorld).1)
    = [0; 80; 40; 100]) as Heq2 by (vm_compute; reflexivity).
  assert (percentages "download"
    (console (postTranscript (reportingEnv [(300, 100)])
                "job1" sampleUrl None emptyWorld).1)
    = [0; 300; 100]) as Heq3 by (vm_compute; reflexivity).
  split_and!; [exact Heq1| |exact Heq2| |exact Heq3|].
  - rewrite Heq1. intros H.
    apply Sorted_inv in H as [H _]. apply Sorted_inv in H as [_ H].
    apply HdRel_inv in H. lia.
  - rewrite Heq2. intros H.
    apply Sorted_inv in H as [H _]. apply Sorted_inv in H as [_ H].
    apply HdRel_inv in H. lia.
  - rewrite Heq3. intros H.
    apply Forall_cons in H as [_ H]. apply Forall_cons in H as [H _]. lia.
Qed.

(** ** The course of a job *)

Section Course.

Variable jobId : string.

Local Abbreviation running := (tracksS (watch jobId) (eq Running)).

Lemma watch_running_progress s p msg :
  s ≠ "error" → watch jobId Running (EvProgress jobId s p msg) = Running.
Proof.
  intros Hs. simpl.
  by rewrite bool_decide_eq_true_2, bool_decide_eq_false_2.
Qed.

Lemma watch_running_error msg :
  watch jobId Running (EvProgress jobId "error" 100 msg) = Errored false msg.
Proof. simpl. by rewrite bool_decide_eq_true_2. Qed.

Lemma watch_pending_error e :
  watch jobId (Pending e) (EvProgress jobId "error" 100 (orDefault e))
  = Errored true (orDefault e).
Proof. simpl. by rewrite bool_decide_eq_true_2. Qed.

Lemma run_ret {A} (a : A) (Q : Outcome A → Phase → Prop) :
  Q (Ok a) Running → running (mret a) Q.
Proof. intros H. apply tracks_ret. by intros ph w <-. Qed.

Lemma run_throw {A} e (Q : Outcome A → Phase → Prop) :
  Q (Throw e) Running → running (throw e) Q.
Proof. intros H. apply tracks_throw. by intros ph w <-. Qed.

Lemma run_bind_update {B} s p msg (f : () → M B) (Q : Outcome B → Phase → Prop) :
  s ≠ "error" →
  running (f ()) Q →
  running (updateProgress jobId s p msg ≫= f) Q.
Proof.
  intros Hs Hf. apply tracksS_bind_update.
  by rewrite watch_running_progress.
Qed.

Lemma run_update s p msg (Q : Outcome () → Phase → Prop) :
  s ≠ "error" → Q (Ok ()) Running →
  running (updateProgress jobId s p msg) Q.
Proof.
  intros Hs HQ. apply tracksS_updateProgress. intros ph <-.
  by rewrite watch_running_progress.
Qed.

Lemma run_bind_call {A B} c (r : Outcome A) (f : A → M B)
    (Q : Outcome B → Phase → Prop) :
  (∀ a, r = Ok a → running (f a) Q) →
  (∀ e, r = Throw e → Q (Throw e) (if fatal c then Pending e else Running)) →
  running (call c r ≫= f) Q.
Proof. intros Hf Hthrow. by apply tracksS_bind_call. Qed.

Lemma run_call {A} c (r : Outcome A) (Q : Outcome A → Phase → Prop) :
  (∀ a, r = Ok a → Q (Ok a) Running) →
  (∀ e, r = Throw e → Q (Throw e) (if fatal c then Pending e else Running)) →
  running (call c r) Q.
Proof.
  intros Hok Hthrow. apply tracksS_call. intros ph <-.
  destruct r as [a|e]; simpl; [by apply Hok|by apply Hthrow].
Qed.

Lemma run_bind_quiet {A B} (m : M A) (f : A → M B)
    (Q : Outcome B → Phase → Prop) :
  quiet jobId m →
  (∀ a, running (f a) Q) →
  (∀ e, Q (Throw e) Running) →
  running (m ≫= f) Q.
Proof.
  intros Hm Hf Hthrow.
  apply (tracksS_bind (watch jobId) _ m f (λ _, eq Running) _ Hm Hf).
  by intros e ph <-.
Qed.

Lemma run_bind_propagates {A B} (m : M A) (f : A → M B)
    (Q : Outcome B → Phase → Prop) :
  propagates jobId m →
  (∀ a, running (f a) Q) →
  (∀ e, Q (Throw e) Running) →
  (∀ e, Q (Throw e) (Pending e)) →
  running (m ≫= f) Q.
Proof.
  intros Hm Hf Hthrow Hpending.
  apply (tracksS_bind (watch jobId) _ m f
           (λ r ph, match r with
                    | Ok _ => Running = ph
                    | Throw e => Running = ph ∨ Pending e = ph
                    end) _ Hm Hf).
  by intros e ph [<-|<-].
Qed.

Lemma run_tryCatch {A} (m : M A) (h : string → M A)
    (Q : Outcome A → Phase → Prop) :
  quiet jobId m →
  (∀ e, running (h e) Q) →
  (∀ a, Q (Ok a) Running) →
  running (tryCatch m h) Q.
Proof.
  intros Hm Hh Hok.
  apply (tracksS_tryCatch (watch jobId) _ m h (λ _, eq Running) _ Hm Hh).
  by intros a ph <-.
Qed.

Lemma run_bind_setProperty {B} key v (f : () → M B)
    (Q : Outcome B → Phase → Prop) :
  running (f ()) Q →
  (∀ e, Q (Throw e) Running) →
  running (setProperty jobId key v ≫= f) Q.
Proof.
  intros Hf Hthrow. apply tracksS_bind_silent.
  - intros w. apply setProperty_console.
  - by intros [].
  - by intros e ph <-.
Qed.

Lemma quiet_propagates {A} (m : M A) : quiet jobId m → propagates jobId m.
Proof.
  intros Hm.
  apply (tracksS_conseq (watch jobId) _ (eq Running) m _ (λ _, eq Running) Hm);
    [done|].
  intros [a|e] ph <-; [done|by left].
Qed.

Lemma quiet_ret {A} (a : A) : quiet jobId (mret a).
Proof. by apply run_ret. Qed.

Lemma quiet_setProperty key v : quiet jobId (setProperty jobId key v).
Proof.
  apply tracksS_silent; [|done]. intros w. apply setProperty_console.
Qed.

End Course.

Create HintDb course.

#[global] Hint Resolve quiet_ret quiet_setProperty : course.

Ltac run_side := intros; simpl; first [done | by left | by right].

Ltac run_step :=
  lazymatch goal with
  | |- tracksS _ _ ((if ?c then _ else _) ≫= _) _ => destruct c
  | |- tracksS _ _ ((match ?x with _ => _ end) ≫= _) _ => destruct x
  | |- tracksS _ _ (updateProgress _ _ _ _ ≫= _) _ =>
      apply run_bind_update; [done|]
  | |- tracksS _ _ (call _ _ ≫= _) _ =>
      apply run_bind_call; [intros ? ?|run_side]
  | |- tracksS _ _ (modify _ ≫= _) _ => apply tracksS_bind_modify; [done|]
  | |- tracksS _ _ (gets _ ≫= _) _ => apply tracksS_bind_gets; intros
  | |- tracksS _ _ (setProperty _ _ _ ≫= _) _ =>
      apply run_bind_setProperty; [|run_side]
  | |- tracksS _ _ (_ ≫= _) _ =>
      first [ apply run_bind_quiet; [solve [auto with course]|intros|run_side]
            | apply run_bind_propagates;
                [solve [auto with course]|intros|run_side|run_side] ]
  | |- tracksS _ _ (tryCatch _ _) _ => apply run_tryCatch; [|intros|run_side]
  | |- tracksS _ _ (mret _) _ => apply run_ret; run_side
  | |- tracksS _ _ (throw _) _ => apply run_throw; run_side
  | |- tracksS _ _ (updateProgress _ _ _ _) _ => apply run_update; [done|run_side]
  | |- tracksS _ _ (call _ _) _ => apply run_call; run_side
  | |- tracksS _ _ (if ?c then _ else _) _ => destruct c
  | |- tracksS _ _ (match ?x with _ => _ end) _ => destruct x
  | |- quiet _ _ => unfold quiet
  | |- propagates _ _ => unfold propagates
  | |- tracksS (watch ?j) (eq Running) ?m _ =>
      first [ solve [change (propagates j m); auto with course]
            | solve [change (quiet j m); auto with course]
            | solve [change (propagates j m); apply quiet_propagates;
                     auto with course] ]
  end.

Ltac run_auto := repeat run_step.

Section CourseOfSteps.

Variable env : Env.
Variable jobId : string.

Lemma propagates_stat path : propagates jobId (stat path).
Proof.
  intros w. unfold stat. destruct (disk w !! path).
  - exists [EvCall (CStat path) None]. split; [done|]. by intros ph <-.
  - exists [EvCall (CStat path) (Some "ENOENT: no such file or directory")].
    split; [done|]. intros ph <-. by right.
Qed.

Lemma quiet_unlink path : quiet jobId (unlink path).
Proof.
  intros w. unfold unlink. destruct (disk w !! path).
  - exists [EvCall (CUnlink path) None]. split; [done|]. by intros ph <-.
  - exists [EvCall (CUnlink path) (Some "ENOENT: no such file or directory")].
    split; [done|]. by intros ph <-.
Qed.

#[local] Hint Resolve propagates_stat quiet_unlink : course.

Lemma quiet_cleanupFile path : quiet jobId (cleanupFile path).
Proof. unfold cleanupFile. run_auto. Qed.

Lemma quiet_sendWebhook subject : quiet jobId (sendWebhook env subject).
Proof. unfold sendWebhook. run_auto. Qed.

Lemma propagates_extractEpisodeId url : propagates jobId (extractEpisodeId url).
Proof. unfold extractEpisodeId. run_auto. Qed.

#[local] Hint Resolve quiet_cleanupFile quiet_sendWebhook
  propagates_extractEpisodeId : course.

Lemma quiet_reportDownload events : quiet jobId (reportDownload jobId events).
Proof.
  induction events as [|[loaded total] events IH]; cbn [reportDownload].
  - run_auto.
  - destruct (total =? 0).
    + apply run_bind_quiet; [run_auto|intros _; exact IH|done].
    + apply run_bind_update; [done|exact IH].
Qed.

#[local] Hint Resolve quiet_reportDownload : course.

Lemma propagates_downloadAudio audioUrl episodeId :
  propagates jobId (downloadAudio env audioUrl episodeId jobId).
Proof. unfold downloadAudio. run_auto. Qed.

Lemma propagates_splitLoop inputPath n todo : ∀ i chunks,
  propagates jobId (splitLoop env inputPath jobId n todo i chunks).
Proof.
  induction todo as [|todo IH]; intros i chunks; cbn [splitLoop].
  - run_auto.
  - unfold propagates. run_step. run_step. run_step. apply IH.
Qed.

#[local] Hint Resolve propagates_downloadAudio propagates_splitLoop : course.

Lemma propagates_splitAudioIntoChunks inputPath :
  propagates jobId (splitAudioIntoChunks env inputPath jobId).
Proof. unfold splitAudioIntoChunks, getAudioDuration. run_auto. Qed.

Lemma quiet_compressAudio inputPath :
  quiet jobId (compressAudio env inputPath jobId).
Proof. unfold compressAudio. run_auto. Qed.

Lemma propagates_transcribeWithGroq filepath chunk :
  propagates jobId (transcribeWithGroq env filepath chunk jobId).
Proof. unfold transcribeWithGroq. run_auto. Qed.

#[local] Hint Resolve propagates_splitAudioIntoChunks quiet_compressAudio
  propagates_transcribeWithGroq : course.

Lemma propagates_transcribeLoop total chunks : ∀ i acc,
  propagates jobId (transcribeLoop env jobId total i chunks acc).
Proof.
  induction chunks as [|c chunks IH]; intros i acc; cbn [transcribeLoop].
  - run_auto.
  - unfold propagates. run_step. run_step. apply IH.
Qed.

Lemma quiet_mergeStep transcriptions :
  quiet jobId (mergeStep transcriptions jobId).
Proof. unfold mergeStep. run_auto. Qed.

#[local] Hint Resolve propagates_transcribeLoop quiet_mergeStep : course.

Lemma propagates_transcribeChunks chunks :
  propagates jobId (transcribeChunks env chunks jobId).
Proof. unfold transcribeChunks. run_auto. Qed.

Lemma propagates_getFileSizeMB path : propagates jobId (getFileSizeMB path).
Proof. unfold getFileSizeMB. run_auto. Qed.

#[local] Hint Resolve propagates_transcribeChunks propagates_getFileSizeMB
  : course.

Lemma propagates_processTranscription audioPath :
  propagates jobId (processTranscription env audioPath jobId).
Proof. unfold processTranscription. run_auto. Qed.

Lemma quiet_summariseWithGemini transcript episodeTitle :
  quiet jobId (summariseWithGemini env transcript episodeTitle jobId).
Proof. unfold summariseWithGemini. run_auto. Qed.

End CourseOfSteps.

Section CourseOfJob.

Variable env : Env.
Variable jobId : string.

Local Abbreviation runningW := (tracks (watch jobId) (λ ph _, Running = ph)).

Lemma runW_ret {A} (a : A) (Q : Outcome A → Phase → World → Prop) :
  (∀ w, Q (Ok a) Running w) → runningW (mret a) Q.
Proof. intros H. apply tracks_ret. intros ph w <-. apply H. Qed.

Lemma runW_throw {A} e (Q : Outcome A → Phase → World → Prop) :
  (∀ w, Q (Throw e) Running w) → runningW (throw e) Q.
Proof. intros H. apply tracks_throw. intros ph w <-. apply H. Qed.

Lemma runW_bind_update {B} s p msg (f : () → M B)
    (Q : Outcome B → Phase → World → Prop) :
  s ≠ "error" →
  runningW (f ()) Q →
  runningW (updateProgress jobId s p msg ≫= f) Q.
Proof.
  intros Hs Hf w.
  destruct (Hf (updateProgress jobId s p msg w).1) as (tr & Hc & H).
  exists (EvProgress jobId s p msg :: tr). split.
  - change ((updateProgress jobId s p msg ≫= f) w)
      with (f () (updateProgress jobId s p msg w).1).
    rewrite Hc. simpl. by rewrite <- app_assoc.
  - intros ph <-. cbn [foldl]. rewrite watch_running_progress by done.
    by apply H.
Qed.

Lemma runW_bind_call {A B} c (r : Outcome A) (f : A → M B)
    (Q : Outcome B → Phase → World → Prop) :
  (∀ a, r = Ok a → runningW (f a) Q) →
  (∀ e w, r = Throw e →
          Q (Throw e) (if fatal c then Pending e else Running) w) →
  runningW (call c r ≫= f) Q.
Proof.
  intros Hf Hthrow w. destruct r as [a|e].
  - destruct (Hf a eq_refl (logEvent (EvCall c None) w)) as (tr & Hc & H).
    exists (EvCall c None :: tr). split.
    + change ((call c (Ok a) ≫= f) w) with (f a (logEvent (EvCall c None) w)).
      rewrite Hc. simpl. by rewrite <- app_assoc.
    + intros ph <-. by apply H.
  - exists [EvCall c (Some e)]. split; [done|].
    intros ph <-. by apply Hthrow.
Qed.

(** The publication of an error, followed by [complete = true]. *)
Lemma setProperty_after_update key v s p msg w :
  setProperty jobId key v (updateProgress jobId s p msg w).1 =
  (setStore
     <[jobId := <[key := v]>
                  (<[s := PStep p msg (now w)]>
                     (default ∅ (progressStore w !! jobId)))]>
     (updateProgress jobId s p msg w).1, Ok ()).
Proof. unfold setProperty. simpl. by rewrite lookup_insert_eq. Qed.

Lemma failedSnapshot_after_error msg w :
  failedSnapshot jobId msg
    (setProperty jobId "complete" PTrue
       (updateProgress jobId "error" 100 msg w).1).1.
Proof.
  rewrite setProperty_after_update. unfold failedSnapshot. simpl.
  eexists _, _. rewrite lookup_insert_eq. split; [done|].
  rewrite lookup_insert_eq. split; [done|].
  by rewrite lookup_insert_ne, lookup_insert_eq.
Qed.

Lemma error_block_run {B} msg (rest : M B) w :
  (updateProgress jobId "error" 100 msg ≫= λ _,
     setProperty jobId "complete" PTrue ≫= λ _, rest) w =
  rest (setProperty jobId "complete" PTrue
          (updateProgress jobId "error" 100 msg w).1).1.
Proof.
  rewrite bind_run.
  change (updateProgress jobId "error" 100 msg w)
    with ((updateProgress jobId "error" 100 msg w).1, Ok ()) at 1.
  cbv beta iota. by rewrite bind_run, setProperty_after_update.
Qed.

Lemma runW_bind_error {B} msg (rest : M B)
    (Q : Outcome B → Phase → World → Prop) :
  tracks (watch jobId)
    (λ ph w, Errored false msg = ph ∧ failedSnapshot jobId msg w) rest Q →
  runningW
    (updateProgress jobId "error" 100 msg ≫= λ _,
       setProperty jobId "complete" PTrue ≫= λ _, rest) Q.
Proof.
  intros Hrest w.
  set (w2 := (setProperty jobId "complete" PTrue
                (updateProgress jobId "error" 100 msg w).1).1).
  assert ((updateProgress jobId "error" 100 msg ≫= λ _,
             setProperty jobId "complete" PTrue ≫= λ _, rest) w = rest w2)
    as Hrun by apply error_block_run.
  destruct (Hrest w2) as (tr & Hc & H).
  exists (EvProgress jobId "error" 100 msg :: tr). split.
  - rewrite Hrun, Hc. subst w2. rewrite setProperty_console. simpl.
    by rewrite <- app_assoc.
  - intros ph <-. cbn [foldl]. rewrite watch_running_error, Hrun.
    apply H. split; [done|]. apply failedSnapshot_after_error.
Qed.

Lemma failedSnapshot_logEvent msg e w :
  failedSnapshot jobId msg w → failedSnapshot jobId msg (logEvent e w).
Proof. done. Qed.

(** The webhook that follows an error published without a failed call. *)
Lemma errored_sendWebhook {X} msg subject
    (Q : Outcome (option X) → Phase → World → Prop) :
  (∀ ph w, Errored false msg = ph ∧ failedSnapshot jobId msg w →
           Q (Ok None) ph w) →
  tracks (watch jobId)
    (λ ph w, Errored false msg = ph ∧ failedSnapshot jobId msg w)
    (sendWebhook env subject ≫= λ _, mret None) Q.
Proof.
  intros HQ w. unfold sendWebhook. destruct (negb (WEBHOOK_URL env)).
  - exists []. rewrite app_nil_r. split; [done|]. intros ph Hph. by apply HQ.
  - exists [EvCall (CWebhook subject) (failure (webhookPost env subject))].
    rewrite bind_run. unfold tryCatch, call.
    destruct (webhookPost env subject) as [[]|e]; (split; [done|]);
      intros ph [<- Hsnap]; by apply HQ.
Qed.

Lemma course_resolveEpisode spotifyUrl providedRssUrl :
  runningW (resolveEpisode env jobId spotifyUrl providedRssUrl)
    (resolved jobId).
Proof.
  unfold resolveEpisode.
  apply runW_bind_update; [done|].
  apply runW_bind_call; [intros [spotifyData|] _|intros; by right].
  2:{ apply runW_bind_error, tracks_ret. intros ph w H. eexists. exact H. }
  apply runW_bind_update; [done|].
  apply (tracks_bind (watch jobId) _ _ _ (resolved jobId)).
  - destruct (truthy providedRssUrl) eqn:Hprov.
    + apply runW_bind_update; [done|]. apply runW_ret. intros w.
      by destruct providedRssUrl.
    + apply runW_bind_update; [done|].
      apply runW_bind_call; [intros found _|intros; by right].
      destruct (truthy found) eqn:Hfound.
      * apply runW_bind_update; [done|]. apply runW_ret. intros w.
        by destruct found.
      * apply runW_bind_error, errored_sendWebhook.
        intros ph w H. eexists. exact H.
  - intros [rssUrl|]; [|by apply tracks_ret].
    apply runW_bind_update; [done|].
    apply runW_bind_call; [intros items _|intros; by right].
    assert (∀ targetEpisode,
      runningW
        (if truthy (enclosure_url targetEpisode)
         then updateProgress jobId "parse" 100 "RSS parsed successfully"
              ≫= λ _, mret (Some (targetEpisode,
                                  default "" (enclosure_url targetEpisode)))
         else updateProgress jobId "error" 100
                "No audio URL found for this episode"
              ≫= λ _, setProperty jobId "complete" PTrue
              ≫= λ _, mret None) (resolved jobId)) as Htarget.
    { intros targetEpisode. destruct (truthy (enclosure_url targetEpisode)).
      - apply runW_bind_update; [done|]. by apply runW_ret.
      - apply runW_bind_error, tracks_ret. intros ph w H. eexists. exact H. }
    destruct (bestMatch env items (name spotifyData)) as [best|];
      [apply Htarget|].
    destruct (head items) as [first|]; [apply Htarget|].
    apply runW_throw. intros w. by left.
  - by intros e ph w.
Qed.

(** The deletion of the download in the [catch] block changes nothing to
    the course of the job. *)
Lemma caught_cleanup e (tempFilePath : option string) :
  tracks (watch jobId) (λ ph _, Running = ph ∨ Pending e = ph)
    (match tempFilePath with
     | Some p => cleanupFile p
     | None => mret ()
     end)
    (λ r ph _, r = Ok () ∧ (Running = ph ∨ Pending e = ph)).
Proof.
  intros w. destruct tempFilePath as [p|].
  - unfold cleanupFile, tryCatch, unlink. destruct (disk w !! p).
    + exists [EvCall (CUnlink p) None]. split; [done|].
      by intros ph [<-|<-]; (split; [done|]); [left|right].
    + exists [EvCall (CUnlink p) (Some "ENOENT: no such file or directory")].
      split; [done|].
      by intros ph [<-|<-]; (split; [done|]); [left|right].
  - exists []. rewrite app_nil_r. by split.
Qed.

Lemma course_catchBlock e tempFilePath :
  tracks (watch jobId) (λ ph _, Running = ph ∨ Pending e = ph)
    (catchBlock jobId tempFilePath e)
    (λ _ ph w, failed jobId ph w).
Proof.
  unfold catchBlock.
  apply (tracks_bind (watch jobId) _ _ _ _ _ (caught_cleanup e tempFilePath)).
  2:{ by intros e' ph w [? _]. }
  intros [] w.
  set (msg := orDefault e).
  set (w2 := (setProperty jobId "complete" PTrue
                (updateProgress jobId "error" 100 msg w).1).1).
  exists [EvProgress jobId "error" 100 msg].
  rewrite error_block_run. fold w2. split.
  - subst w2. cbn [throw fst]. by rewrite setProperty_console.
  - cbn [throw fst snd]. intros ph [_ [<-|<-]]; cbn [foldl].
    + exists false, msg. rewrite watch_running_error. split; [done|].
      apply failedSnapshot_after_error.
    + exists true, msg. subst w2 msg. rewrite watch_pending_error.
      split; [done|]. apply failedSnapshot_after_error.
Qed.

Lemma lift_propagates {A} (m : M A) (Q : Outcome A → Phase → World → Prop) :
  propagates jobId m →
  (∀ a w, Q (Ok a) Running w) →
  (∀ e w, Q (Throw e) Running w) →
  (∀ e w, Q (Throw e) (Pending e) w) →
  runningW m Q.
Proof.
  intros Hm Hok Hthrow Hpending.
  apply (tracks_conseq (watch jobId) _ _ _ _ _ Hm); [done|].
  intros [a|e] ph w; [by intros <-|by intros [<-|<-]].
Qed.

Lemma lift_running {A} (m : M A) (Q' : Outcome A → Phase → Prop)
    (Q : Outcome A → Phase → World → Prop) :
  tracksS (watch jobId) (eq Running) m Q' →
  (∀ r ph w, Q' r ph → Q r ph w) →
  runningW m Q.
Proof.
  intros Hm HQ. by apply (tracks_conseq (watch jobId) _ _ _ _ _ Hm).
Qed.

Lemma lift_quiet {A} (m : M A) (Q : Outcome A → Phase → World → Prop) :
  quiet jobId m →
  (∀ r w, Q r Running w) →
  runningW m Q.
Proof.
  intros Hm HQ.
  apply (tracks_conseq (watch jobId) _ _ _ _ _ Hm); [done|].
  by intros r ph w <-.
Qed.

Lemma tracks_vacuous {A} (P P' : Phase → World → Prop) (m : M A)
    (Q : Outcome A → Phase → World → Prop)
    (Q' : Outcome A → Phase → World → Prop) :
  tracks (watch jobId) P' m Q' → (∀ ph w, ¬ P ph w) →
  tracks (watch jobId) P m Q.
Proof.
  intros Hm HP w. destruct (Hm w) as (tr & Hc & _).
  exists tr. split; [done|]. intros ph Hph. by destruct (HP ph w).
Qed.

(** Step 8: the step [complete] is published, the result is stored and
    [complete] is set. *)
Lemma course_storeResult result msg :
  runningW
    (updateProgress jobId "complete" 100 msg ≫= λ _,
       setProperty jobId "result" (PResult result) ≫= λ _,
       setProperty jobId "complete" PTrue)
    (λ r ph w, r = Ok () ∧ Running = ph ∧ completedSnapshot jobId w).
Proof.
  intros w.
  assert (∃ w3,
    (updateProgress jobId "complete" 100 msg ≫= λ _,
       setProperty jobId "result" (PResult result) ≫= λ _,
       setProperty jobId "complete" PTrue) w = (w3, Ok ()) ∧
    console w3 = console w ++ [EvProgress jobId "complete" 100 msg] ∧
    completedSnapshot jobId w3) as (w3 & Hrun & Hc & Hsnap).
  { unfold mbind, M_bind, setProperty, updateProgress.
    cbn [fst snd setStore progressStore console logEvent].
    rewrite lookup_insert_eq.
    cbn [fst snd setStore progressStore console logEvent].
    rewrite lookup_insert_eq. eexists. split; [reflexivity|].
    split; [done|]. unfold completedSnapshot.
    cbn [fst progressStore setStore].
    eexists _, result. rewrite lookup_insert_eq. split; [done|].
    rewrite lookup_insert_eq. split; [done|].
    by rewrite lookup_insert_ne, lookup_insert_eq. }
  exists [EvProgress jobId "complete" 100 msg]. rewrite Hrun.
  split; [done|]. intros ph <-. split; [done|]. cbn [foldl].
  by rewrite watch_running_progress.
Qed.

Lemma course_postTranscript spotifyUrl rssUrl :
  truthy spotifyUrl = true →
  runningW (postTranscript env jobId spotifyUrl rssUrl)
    (λ _ ph w, ended jobId ph w).
Proof.
  intros Hurl. unfold postTranscript. rewrite Hurl. cbn [negb].
  apply (tracks_bind (watch jobId) _ _ _
           (λ r ph w, match r with
                      | Ok r1 => resolved jobId r1 ph w
                      | Throw _ => False
                      end)).
  - apply tracks_settle.
    apply (tracks_bind (watch jobId) _ _ _ (resolved jobId));
      [apply course_resolveEpisode| |by intros e ph w].
    intros [[targetEpisode audioUrl]|]; [|by apply tracks_ret].
    apply (lift_running _
             (λ r ph, match r with
                      | Ok (Some _) => Running = ph
                      | Ok None => False
                      | Throw e => Running = ph ∨ Pending e = ph
                      end)); [|by intros [[]|]].
    apply run_bind_propagates;
      [apply propagates_extractEpisodeId|intros episodeId|run_side|run_side].
    apply run_bind_propagates;
      [apply propagates_downloadAudio|intros tempFilePath|run_side|run_side].
    by apply run_ret.
  - intros [[[targetEpisode tempFilePath]|]|e].
    + apply (tracks_bind (watch jobId) _ _ _
               (λ r ph _, match r with
                          | Ok (Ok _) => Running = ph
                          | Ok (Throw e) => Running = ph ∨ Pending e = ph
                          | Throw _ => False
                          end)).
      * apply tracks_settle.
        apply lift_propagates; [|done|by left|by right].
        unfold propagates. apply run_bind_propagates;
          [apply propagates_processTranscription|intros transcript|
           run_side|run_side].
        apply run_bind_quiet; [|intros summary|run_side].
        { unfold quiet. apply run_tryCatch;
            [apply quiet_summariseWithGemini|intros; run_auto|run_side]. }
        apply run_bind_quiet; [apply quiet_cleanupFile|intros _|run_side].
        run_auto.
      * intros [[transcript summary]|e].
        2:{ apply (tracks_conseq (watch jobId) _ _ _ _ _
                     (course_catchBlock e (Some tempFilePath))); [done|].
            intros r ph w H. by right. }
        apply (tracks_bind (watch jobId) _ _ _
                 (λ r ph w, r = Ok (Ok ()) ∧ Running = ph ∧
                            completedSnapshot jobId w)).
        -- apply tracks_settle.
           apply (tracks_conseq (watch jobId) _ _ _ _ _
                    (course_storeResult _ _)); [done|].
           by intros r ph w (-> & ? & ?).
        -- intros [[]|e].
           ++ apply tracks_ret. intros ph w (_ & <- & Hsnap). by left.
           ++ apply (tracks_vacuous _ _ _ _ _ (course_catchBlock e None)).
              by intros ph w [? _].
        -- by intros e ph w [? _].
      * by intros e ph w.
    + apply tracks_ret. intros ph w (message & <- & Hsnap).
      right. by exists false, message.
    + apply (tracks_conseq (watch jobId) _ _ _ _ _
               (course_catchBlock e None)); [done|].
      intros r ph w H. by right.
  - by intros e ph w.
Qed.

End CourseOfJob.

Section WatchRuns.

Variable jobId : string.

Local Abbreviation run := (foldl (watch jobId)).








End WatchRuns.




(** * Further properties *)

Import App.

(** ** The chunks cover the audio *)

Lemma Qfloor_lt_Qceiling (x y : Q) : (x < y)%Q → Qfloor x < Qceiling y.
Proof.
  intros H. rewrite Zlt_Qlt.
  eapply Qle_lt_trans; [apply Qfloor_le|].
  eapply Qlt_le_trans; [exact H|apply Qle_ceiling].
Qed.

Lemma window_of_instant (D t : Q) :
  (0 <= t)%Q → (t < D)%Q →
  ∃ i : nat, Z.of_nat i < numChunks D ∧
    (inject_Z (startTime i) <= t)%Q ∧ (t < inject_Z (startTime i + chunkSpan))%Q.
Proof.
  intros H0 HD.
  assert (0 <= t / 600)%Q as Hq0.
  { apply Qle_shift_div_l; [reflexivity|]. by rewrite Qmult_0_l. }
  assert (0 ≤ Qfloor (t / 600)) as Hf0.
  { apply Qfloor_resp_le in Hq0. exact Hq0. }
  pose proof (Qfloor_le (t / 600)) as Hle.
  pose proof (Qlt_floor (t / 600)) as Hlt.
  assert (Qfloor (t / 600) < numChunks D) as Hn.
  { unfold numChunks. apply Qfloor_lt_Qceiling.
    change (inject_Z CHUNK_DURATION_SECONDS) with 600%Q.
    apply Qmult_lt_compat_r; [reflexivity|done]. }
  assert (t == t / 600 * 600)%Q as Ht by field.
  revert Hf0 Hle Hlt Hn Ht. generalize (t / 600)%Q. intros q.
  generalize (Qfloor q). intros k Hk Hle Hlt Hn Ht.
  rewrite inject_Z_plus in Hlt.
  exists (Z.to_nat k). rewrite Z2Nat.id by done.
  split; [done|].
  unfold startTime, chunkSpan, CHUNK_DURATION_SECONDS, CHUNK_OVERLAP_SECONDS.
  rewrite Z2Nat.id by done.
  destruct (Z.max_spec 0 (k * 600 - 10)) as [[Hm ->]|[Hm ->]].
  - replace (k * 600 - 10 + (600 + 10)) with (k * 600 + 600) by lia.
    replace (k * 600 - 10) with (k * 600 + -10) by lia.
    rewrite !inject_Z_plus, !inject_Z_mult.
    change (inject_Z 600) with 600%Q. change (inject_Z (-10)) with (-10)%Q.
    change (inject_Z 1) with 1%Q in Hlt. split; lra.
  - assert (k = 0) as Hk0 by lia. split; [change (inject_Z 0) with 0%Q; lra|].
    change (inject_Z (0 + (600 + 10))) with 610%Q.
    subst k. change (inject_Z 1) with 1%Q in Hlt.
    change (inject_Z 0) with 0%Q in *. lra.
Qed.

(** X1, [splitAudioIntoChunks]: when the cuts succeed, every instant of the
    audio lies in the window of one of the cuts asked of ffmpeg, so that no
    part of the recording is left out of the chunks. *)
Theorem chunks_cover_the_audio (env : Env) (inputPath jobId : string) (D : Q)
    (w : World) :
  ffprobe env inputPath = Ok D →
  (∀ start dur out, failure (ffmpegCut env inputPath start dur out) = None) →
  ∃ tr,
    console (splitAudioIntoChunks env inputPath jobId w).1 = console w ++ tr ∧
    ∀ t : Q, (0 <= t)%Q → (t < D)%Q →
      ∃ start dur, (start, dur) ∈ ffmpegCuts tr ∧
        (inject_Z start <= t)%Q ∧ (t < inject_Z (start + dur))%Q.
Proof.
  intros Hprobe Hok.
  destruct (splitAudioIntoChunks_cuts env inputPath jobId D Hprobe Hok w)
    as (tr & Hcon & H).
  destruct (H [] eq_refl) as (chunks & _ & Hlen & Hcuts).
  exists tr. split; [done|]. intros t H0 HD.
  destruct (window_of_instant D t H0 HD) as (i & Hi & Hstart & Hend).
  exists (startTime i), chunkSpan. split; [|done].
  unfold ffmpegCuts. rewrite Hcuts. apply list_elem_of_fmap.
  exists i. split; [done|]. apply elem_of_seq. lia.
Qed.

Lemma chunks_cover_the_audio_witness :
  ffprobe (sampleEnv 1000 (Throw "down") (Ok 500%N)) "/tmp/a.mp3" = Ok 1200%Q ∧
  (∀ start dur out,
     failure (ffmpegCut (sampleEnv 1000 (Throw "down") (Ok 500%N))
                "/tmp/a.mp3" start dur out) = None) ∧
  ∃ tr,
    console (splitAudioIntoChunks (sampleEnv 1000 (Throw "down") (Ok 500%N))
               "/tmp/a.mp3" "job" emptyWorld).1 = console emptyWorld ++ tr ∧
    ∀ t : Q, (0 <= t)%Q → (t < 1200)%Q →
      ∃ start dur, (start, dur) ∈ ffmpegCuts tr ∧
        (inject_Z start <= t)%Q ∧ (t < inject_Z (start + dur))%Q.
Proof.
  split; [reflexivity|]. split; [reflexivity|].
  exact (chunks_cover_the_audio (sampleEnv 1000 (Throw "down") (Ok 500%N))
           "/tmp/a.mp3" "job" 1200 emptyWorld eq_refl (λ _ _ _, eq_refl)).
Defined.

(** ** The episode that is picked *)

Section BestMatch.

Variable env : Env.
Variable episodeName : string.

Local Abbreviation score :=
  (λ item, calculateMatchScore env item episodeName).

Lemma leads_step seen best item :
  leads env episodeName seen best →
  leads env episodeName (seen ++ [item]) (pick env episodeName best item).
Proof.
  destruct best as [[b|] s]; unfold leads, pick; cbn [fst snd].
  - intros (-> & Hpos & pre & post & -> & Hpre & Hpost).
    destruct (Qle_bool (score item) (score b)) eqn:Hle; cbn [negb fst snd].
    + apply Qle_bool_iff in Hle. split_and!; [done|done|].
      exists pre, (post ++ [item]). split_and!; [by rewrite <- app_assoc|done|].
      intros it [Hit|Hit%list_elem_of_singleton]%elem_of_app; [by apply Hpost|].
      by subst.
    + assert (score b < score item)%Q as Hlt.
      { apply Qnot_le_lt. intros Hle'. apply Qle_bool_iff in Hle'. congruence. }
      split_and!; [done|by etrans|].
      exists (pre ++ b :: post), []. split_and!; [done| |by intros ? ?%elem_of_nil].
      intros it [Hit|[->|Hit]%elem_of_cons]%elem_of_app.
      * by etrans; [apply Hpre|].
      * done.
      * eapply Qle_lt_trans; [by apply Hpost|done].
  - intros (-> & Hall).
    destruct (Qle_bool (score item) 0) eqn:Hle; cbn [negb fst snd].
    + apply Qle_bool_iff in Hle. split; [done|].
      intros it [Hit|Hit%list_elem_of_singleton]%elem_of_app; [by apply Hall|].
      by subst.
    + assert (0 < score item)%Q as Hlt.
      { apply Qnot_le_lt. intros Hle'. apply Qle_bool_iff in Hle'. congruence. }
      split_and!; [done|done|].
      exists seen, []. split_and!; [done| |by intros ? ?%elem_of_nil].
      intros it Hit. eapply Qle_lt_trans; [by apply Hall|done].
Qed.

Lemma leads_fold items : ∀ seen best,
  leads env episodeName seen best →
  leads env episodeName (seen ++ items)
    (fold_left (pick env episodeName) items best).
Proof.
  induction items as [|item items IH]; intros seen best H; simpl.
  - by rewrite app_nil_r.
  - rewrite cons_middle, (assoc_L (++)). apply IH. by apply leads_step.
Qed.

End BestMatch.

(** X2, the [forEach] of the handler over the items of the feed: the episode
    that is picked is the first of the items with the highest score, and
    that score is positive; no episode is picked exactly when no item
    scores above zero. *)
Theorem best_match_is_first_maximum (env : Env) (items : list Item)
    (episodeName : string) :
  match bestMatch env items episodeName with
  | None =>
      ∀ item, item ∈ items →
        (calculateMatchScore env item episodeName <= 0)%Q
  | Some best =>
      (0 < calculateMatchScore env best episodeName)%Q ∧
      ∃ pre post, items = pre ++ best :: post ∧
        (∀ item, item ∈ pre →
           (calculateMatchScore env item episodeName
            < calculateMatchScore env best episodeName)%Q) ∧
        (∀ item, item ∈ post →
           (calculateMatchScore env item episodeName
            <= calculateMatchScore env best episodeName)%Q)
  end.
Proof.
  assert (leads env episodeName [] (None, 0%Q)) as H0.
  { split; [done|]. by intros item ?%elem_of_nil. }
  apply (leads_fold env episodeName items) in H0.
  unfold bestMatch. fold (pick env episodeName).
  unfold leads in H0. cbn [app] in H0.
  destruct (fold_left (pick env episodeName) items (None, 0%Q)).1 as [b|].
  - by destruct H0 as (_ & Hpos & Hsplit).
  - by destruct H0 as [_ H].
Qed.

(** ** Episode identifiers *)

Section Urls.

Lemma append_cons (a : Ascii.ascii) (s t : string) :
  String a s +:+ t = String a (s +:+ t).
Proof. reflexivity. Qed.

Lemma prefix_split (p s : string) :
  String.prefix p s = true → s = p +:+ dropString (String.length p) s.
Proof.
  revert s. induction p as [|a p IH]; intros s H; [done|].
  destruct s as [|b s]; [done|]. simpl in H.
  destruct (Ascii.ascii_dec a b) as [->|]; [|done].
  rewrite append_cons. cbn [String.length dropString]. f_equal. by apply IH.
Qed.

Lemma takeAlnum_spec (s : string) :
  ∃ post, s = takeAlnum s +:+ post ∧ takeAlnum post = "" ∧
          takeAlnum (takeAlnum s) = takeAlnum s.
Proof.
  induction s as [|c s (post & Hs & Hpost & Hid)]; [by exists ""|].
  simpl. destruct (isAlnum c) eqn:Hc.
  - exists post. rewrite append_cons. cbn [takeAlnum]. rewrite Hc.
    split_and!; [by f_equal|done|by f_equal].
  - exists (String c s). cbn [takeAlnum]. by rewrite Hc.
Qed.

Lemma matchEpisode_eq (url : string) :
  matchEpisode url =
  match (if String.prefix "episode/" url
         then match takeAlnum (dropString 8 url) with
              | EmptyString => None
              | id => Some id
              end
         else None), url with
  | Some id, _ => Some id
  | None, String _ url' => matchEpisode url'
  | None, EmptyString => None
  end.
Proof. by destruct url. Qed.

Lemma matchEpisode_here (rest : string) :
  takeAlnum rest ≠ "" →
  matchEpisode ("episode/" +:+ rest) = Some (takeAlnum rest).
Proof.
  intros H. rewrite matchEpisode_eq.
  change (String.prefix "episode/" ("episode/" +:+ rest))
    with (String.prefix "" rest).
  change (dropString 8 ("episode/" +:+ rest)) with rest.
  assert (String.prefix "" rest = true) as -> by (by destruct rest).
  by destruct (takeAlnum rest).
Qed.

Lemma matchEpisode_skip (c : Ascii.ascii) (url : string) :
  String.prefix "episode/" (String c url) = false →
  matchEpisode (String c url) = matchEpisode url.
Proof. intros H. by rewrite matchEpisode_eq, H. Qed.

(** The match at the start of the URL, if any. *)
Lemma matchHere_Some (url id : string) :
  (if String.prefix "episode/" url
   then match takeAlnum (dropString 8 url) with
        | EmptyString => None
        | id => Some id
        end
   else None) = Some id →
  id ≠ "" ∧ url = "episode/" +:+ dropString 8 url ∧
  takeAlnum (dropString 8 url) = id.
Proof.
  destruct (String.prefix "episode/" url) eqn:Hp; [|done].
  apply prefix_split in Hp.
  destruct (takeAlnum (dropString 8 url)) as [|a s]; [done|].
  by intros [= <-].
Qed.

Lemma matchHere_None (url rest : string) :
  (if String.prefix "episode/" url
   then match takeAlnum (dropString 8 url) with
        | EmptyString => None
        | id => Some id
        end
   else None) = None →
  url = "episode/" +:+ rest → takeAlnum rest = "".
Proof.
  intros H ->.
  change (String.prefix "episode/" ("episode/" +:+ rest))
    with (String.prefix "" rest) in H.
  change (dropString 8 ("episode/" +:+ rest)) with rest in H.
  assert (String.prefix "" rest = true) as Hp by (by destruct rest).
  rewrite Hp in H. by destruct (takeAlnum rest).
Qed.

Lemma matchEpisode_Some (url id : string) :
  matchEpisode url = Some id →
  id ≠ "" ∧ takeAlnum id = id ∧
  ∃ pre post,
    url = pre +:+ "episode/" +:+ id +:+ post ∧ takeAlnum post = "" ∧
    ∀ pre1 rest1,
      url = pre1 +:+ "episode/" +:+ rest1 →
      (String.length pre1 < String.length pre)%nat → takeAlnum rest1 = "".
Proof.
  induction url as [|c url IH]; rewrite matchEpisode_eq; [done|].
  destruct (if String.prefix "episode/" (String c url) then _ else _)
    as [id'|] eqn:Hhere.
  - intros [= ->]. apply matchHere_Some in Hhere as (Hne & Hurl & Hid).
    destruct (takeAlnum_spec (dropString 8 (String c url)))
      as (post & Hs & Hpost & Hidem).
    rewrite Hid in Hs, Hidem. split_and!; [done|done|].
    exists "", post. split_and!; [|done|intros ? ? _ ?; simpl in *; lia].
    rewrite Hurl at 1. by rewrite Hs at 1.
  - intros H. destruct (IH H) as (Hne & Hid & pre & post & -> & Hpost & Hleft).
    split_and!; [done|done|]. exists (String c pre), post.
    split_and!; [done|done|]. intros [|c1 pre1] rest1 Hurl Hlen.
    + by apply (matchHere_None _ rest1) in Hhere.
    + rewrite !append_cons in Hurl. injection Hurl as -> Hurl.
      apply (Hleft pre1 rest1 Hurl). simpl in Hlen. lia.
Qed.

Lemma matchEpisode_None (url : string) :
  matchEpisode url = None →
  ∀ pre rest, url = pre +:+ "episode/" +:+ rest → takeAlnum rest = "".
Proof.
  intros H pre. revert url H.
  induction pre as [|c pre IH]; intros url H rest ->.
  - change ("" +:+ "episode/" +:+ rest) with ("episode/" +:+ rest) in H.
    destruct (takeAlnum rest) eqn:Hrest; [done|].
    rewrite matchEpisode_here in H by (by rewrite Hrest). done.
  - rewrite matchEpisode_eq in H. apply (IH (pre +:+ "episode/" +:+ rest)); [|done].
    change (String c pre +:+ "episode/" +:+ rest) with
      (String c (pre +:+ "episode/" +:+ rest)) in H.
    destruct (if String.prefix "episode/" (String c (pre +:+ "episode/" +:+ rest))
              then _ else _); done.
Qed.

End Urls.

(** X3, [extractEpisodeId]: it leaves the world alone.  The identifier that
    it returns is the longest run of letters and digits after the first
    [episode/] of the URL that is followed by a letter or digit; it throws
    'Invalid Spotify episode URL' when no [episode/] of the URL is followed
    by a letter or digit. *)
Theorem episode_id_is_first_alphanumeric_run (url : string) (w : World) :
  (extractEpisodeId url w).1 = w ∧
  match (extractEpisodeId url w).2 with
  | Ok id =>
      id ≠ "" ∧ takeAlnum id = id ∧
      ∃ pre post,
        url = pre +:+ "episode/" +:+ id +:+ post ∧ takeAlnum post = "" ∧
        ∀ pre1 rest1,
          url = pre1 +:+ "episode/" +:+ rest1 →
          (String.length pre1 < String.length pre)%nat →
          takeAlnum rest1 = ""
  | Throw message =>
      message = "Invalid Spotify episode URL" ∧
      ∀ pre rest, url = pre +:+ "episode/" +:+ rest → takeAlnum rest = ""
  end.
Proof.
  unfold extractEpisodeId.
  destruct (matchEpisode url) as [id|] eqn:H; (split; [done|]); cbn [snd].
  - by apply matchEpisode_Some.
  - split; [done|]. by apply matchEpisode_None.
Qed.

(** X4, [isValidSpotifyUrl] of the page and [extractEpisodeId] of the
    server: a URL that the page accepts is [http://] or [https://], then
    [open.spotify.com/episode/], then a non-empty identifier of letters and
    digits, then something that does not start with a letter or digit; and
    the server extracts that identifier from it without throwing. *)
Theorem validated_url_has_an_episode_id (url : string) (w : World) :
  isValidSpotifyUrl url = true →
  ∃ scheme id rest,
    (scheme = "https://" ∨ scheme = "http://") ∧
    url = scheme +:+ "open.spotify.com/episode/" +:+ id +:+ rest ∧
    id ≠ "" ∧ takeAlnum id = id ∧ takeAlnum rest = "" ∧
    extractEpisodeId url w = (w, Ok id).
Proof.
  unfold isValidSpotifyUrl. intros H.
  assert (∃ scheme tail,
            (scheme = "https://" ∨ scheme = "http://") ∧
            url = scheme +:+ "open.spotify.com/episode/" +:+ tail ∧
            takeAlnum tail ≠ "") as (scheme & tail & Hscheme & -> & Htail).
  { destruct (String.prefix "https://" url) eqn:Hs.
    - apply andb_prop in H as [Hhost Hid]. apply prefix_split in Hs, Hhost.
      exists "https://", (dropString 25 (dropString 8 url)).
      split_and!; [by left| |by destruct (takeAlnum _)].
      etrans; [exact Hs|]. f_equal. exact Hhost.
    - destruct (String.prefix "http://" url) eqn:Hs'; [|done].
      apply andb_prop in H as [Hhost Hid]. apply prefix_split in Hs', Hhost.
      exists "http://", (dropString 25 (dropString 7 url)).
      split_and!; [by right| |by destruct (takeAlnum _)].
      etrans; [exact Hs'|]. f_equal. exact Hhost. }
  destruct (takeAlnum_spec tail) as (rest & Hsplit & Hrest & Hid).
  exists scheme, (takeAlnum tail), rest.
  split_and!; [done|by rewrite Hsplit at 1|done|done|done|].
  unfold extractEpisodeId.
  assert (matchEpisode (scheme +:+ "open.spotify.com/episode/" +:+ tail)
          = Some (takeAlnum tail)) as ->; [|done].
  destruct Hscheme as [-> | ->];
    lazy beta iota delta [String.append];
    rewrite !matchEpisode_skip by reflexivity;
    by apply (matchEpisode_here tail).
Qed.

Lemma validated_url_has_an_episode_id_witness :
  isValidSpotifyUrl "https://open.spotify.com/episode/abc123?si=1" = true ∧
  ∃ scheme id rest,
    (scheme = "https://" ∨ scheme = "http://") ∧
    "https://open.spotify.com/episode/abc123?si=1"
      = scheme +:+ "open.spotify.com/episode/" +:+ id +:+ rest ∧
    id ≠ "" ∧ takeAlnum id = id ∧ takeAlnum rest = "" ∧
    extractEpisodeId "https://open.spotify.com/episode/abc123?si=1" emptyWorld
      = (emptyWorld, Ok id).
Proof.
  split; [reflexivity|].
  exact (validated_url_has_an_episode_id
           "https://open.spotify.com/episode/abc123?si=1" emptyWorld eq_refl).
Defined.

(** ** The edges of a merged text *)

Section Trim.

Lemma trimStart_head (s : jsstring) (c : N) :
  head (trimStart s) = Some c → isWhiteSpace c = false.
Proof.
  induction s as [|x s IH]; [done|]. simpl.
  destruct (isWhiteSpace x) eqn:Hx; [done|]. by intros [= <-].
Qed.

Lemma trimStart_suffix (s : jsstring) : trimStart s `suffix_of` s.
Proof.
  induction s as [|x s IH]; [done|]. simpl.
  destruct (isWhiteSpace x); [by apply suffix_cons_r|done].
Qed.

Lemma trimEnd_prefix (s : jsstring) : trimEnd s `prefix_of` s.
Proof.
  unfold trimEnd. pose proof (trimStart_suffix (reverse s)) as H.
  apply suffix_prefix_reverse in H. by rewrite reverse_involutive in H.
Qed.

Lemma trimEnd_last (s : jsstring) (c : N) :
  last (trimEnd s) = Some c → isWhiteSpace c = false.
Proof.
  unfold trimEnd. rewrite last_reverse. apply trimStart_head.
Qed.

Lemma trim_edges (s : jsstring) :
  (∀ c, head (trim s) = Some c → isWhiteSpace c = false) ∧
  (∀ c, last (trim s) = Some c → isWhiteSpace c = false).
Proof.
  unfold trim. split; [|apply trimEnd_last].
  intros c Hc. apply (trimStart_head s).
  destruct (trimEnd_prefix (trimStart s)) as [k Hk].
  rewrite Hk. by destruct (trimEnd (trimStart s)).
Qed.

End Trim.

(** X5, [mergeTranscriptions]: unless it is given exactly one transcription,
    its result neither starts nor ends with whitespace. *)
Theorem merge_of_several_is_trimmed (ts : list Transcription) :
  length ts ≠ 1%nat →
  (∀ c, head (mergeTranscriptions ts) = Some c → isWhiteSpace c = false) ∧
  (∀ c, last (mergeTranscriptions ts) = Some c → isWhiteSpace c = false).
Proof.
  intros Hlen. destruct ts as [|t0 [|t1 ts]]; [|done|]; apply trim_edges.
Qed.

Lemma merge_of_several_is_trimmed_witness :
  length [ {| text := lit " a " |}; {| text := lit " b " |} ] ≠ 1%nat ∧
  (∀ c, head (mergeTranscriptions
                [ {| text := lit " a " |}; {| text := lit " b " |} ]) = Some c →
        isWhiteSpace c = false) ∧
  (∀ c, last (mergeTranscriptions
                [ {| text := lit " a " |}; {| text := lit " b " |} ]) = Some c →
        isWhiteSpace c = false).
Proof.
  assert (H : length [ {| text := lit " a " |}; {| text := lit " b " |} ] ≠ 1%nat)
    by (simpl; lia).
  split; [exact H|].
  exact (merge_of_several_is_trimmed
           [ {| text := lit " a " |}; {| text := lit " b " |} ] H).
Defined.

(** ** The pieces of a merged text *)

Section Pieces.

Lemma join_space_cons (w : jsstring) (ws : list jsstring) :
  ws ≠ [] → join_space (w :: ws) = w ++ SPACE :: join_space ws.
Proof. by destruct ws. Qed.

Lemma join_split_space (s : jsstring) : join_space (split_space s) = s.
Proof.
  induction s as [|c s IH]; [done|]. simpl.
  destruct (c =? SPACE)%N eqn:Hc.
  - apply N.eqb_eq in Hc as ->.
    rewrite join_space_cons by apply split_space_nonempty. by rewrite IH.
  - pose proof (split_space_nonempty s) as Hne.
    destruct (split_space s) as [|w ws]; [done|].
    destruct ws as [|w' ws]; simpl in *; by rewrite <- IH.
Qed.

Lemma join_space_app (a b : list jsstring) :
  a ≠ [] → b ≠ [] →
  join_space (a ++ b) = join_space a ++ SPACE :: join_space b.
Proof.
  intros Ha Hb. induction a as [|w a IH]; [done|].
  destruct a as [|w' a].
  - simpl. by destruct b.
  - rewrite <- app_comm_cons. rewrite !join_space_cons by done.
    rewrite IH by done. by rewrite <- app_assoc.
Qed.

End Pieces.

(** X6, [mergeTranscriptions]: when every later transcription has more than
    20 space-separated pieces, the merged text is, up to the final trim, the
    join by single spaces of all the pieces of the first text followed by
    the pieces of each later text after its 20th, in order; no other piece
    is dropped, added or moved. *)
Theorem merge_joins_the_kept_pieces (t0 : Transcription)
    (rest : list Transcription) :
  rest ≠ [] →
  Forall (λ t, (20 < length (split_space (text t)))%nat) rest →
  mergeTranscriptions (t0 :: rest) =
  trim (join_space
          (split_space (text t0) ++
           concat ((λ t, drop 20 (split_space (text t))) <$> rest))).
Proof.
  intros Hne Hlong. destruct rest as [|t1 rest]; [done|]. clear Hne.
  rewrite mergeTranscriptions_many. f_equal.
  generalize (t1 :: rest) Hlong. clear.
  intros ts. rewrite <- (join_split_space (text t0)) at 1.
  generalize (split_space_nonempty (text t0)).
  generalize (split_space (text t0)). clear.
  induction ts as [|t ts IH]; intros ws Hws Hlong.
  - simpl. by rewrite !app_nil_r.
  - apply Forall_cons in Hlong as [Ht Hlong].
    rewrite !fmap_cons. cbn [concat].
    assert (drop 20 (split_space (text t)) ≠ []) as Hkept.
    { intros H. apply (f_equal length) in H. rewrite length_drop in H.
      simpl in H. lia. }
    rewrite (assoc_L (++) ws). rewrite <- IH; [|by destruct ws|done].
    rewrite join_space_app by done.
    rewrite <- app_assoc. reflexivity.
Qed.

Lemma merge_joins_the_kept_pieces_witness :
  [sampleLater] ≠ [] ∧
  Forall (λ t, (20 < length (split_space (text t)))%nat)
    [sampleLater] ∧
  mergeTranscriptions [ {| text := lit "a" |}; sampleLater ] =
  trim (join_space
          (split_space (text {| text := lit "a" |}) ++
           concat ((λ t, drop 20 (split_space (text t))) <$> [sampleLater]))).
Proof.
  assert (H1 : [sampleLater] ≠ []) by done.
  assert (H2 : Forall (λ t, (20 < length (split_space (text t)))%nat)
                 [sampleLater]).
  { apply Forall_singleton. vm_compute. lia. }
  split; [exact H1|]. split; [exact H2|].
  exact (merge_joins_the_kept_pieces {| text := lit "a" |} _ H1 H2).
Defined.

(** X7.  A job touches no entry of the job table but its own: whatever
    [POST /api/transcript] is given and however its calls to the outside
    answer, the entry of every other job id is afterwards what it was
    before, and the job has set no timer. *)
Theorem job_leaves_other_jobs_alone (env : Env) (jobId : string)
    (spotifyUrl rssUrl : option string) (w : World) :
  let w' := (postTranscript env jobId spotifyUrl rssUrl w).1 in
  (∀ j, j ≠ jobId → progressStore w' !! j = progressStore w !! j) ∧
  timers w' = timers w.
Proof.
  split.
  - apply (closure_postTranscript (keepsOthers jobId)); intros;
      first [apply keepsOthers_updateProgress|apply keepsOthers_setProperty|
             by intros ? ?].
  - destruct (keepsJobs_postTranscript env jobId spotifyUrl rssUrl w)
      as (Ht & _ & _). done.
Qed.

(** ** The snapshot and the console *)

Section Mirrors.

Variable jobId : string.

Lemma lastPublished_app step tr1 tr2 :
  lastPublished jobId step (tr1 ++ tr2) =
  match lastPublished jobId step tr2 with
  | Some pm => Some pm
  | None => lastPublished jobId step tr1
  end.
Proof.
  unfold lastPublished. rewrite omap_app.
  generalize (omap (λ e, match e with
                   | EvProgress j s p m =>
                       if bool_decide (j = jobId ∧ s = step)
                       then Some (p, m) else None
                   | EvCall _ _ => None
                   end) tr2).
  intros l. destruct l as [|x l] using rev_ind.
  - by rewrite app_nil_r.
  - by rewrite (assoc_L (++)), !last_snoc.
Qed.

Global Instance mirrors_preorder : PreOrder (mirrors jobId).
Proof.
  split.
  - intros w. split; [done|]. exists []. split; [by rewrite app_nil_r|done].
  - intros w1 w2 w3 (Hn1 & tr1 & Hc1 & H1) (Hn2 & tr2 & Hc2 & H2).
    split; [congruence|]. exists (tr1 ++ tr2).
    split; [by rewrite Hc2, Hc1, (assoc_L (++))|].
    intros step Hs1 Hs2. rewrite (H2 step), lastPublished_app by done.
    destruct (lastPublished jobId step tr2) as [[p m]|]; [by rewrite Hn1|].
    by apply H1.
Qed.

Lemma mirrors_silent {A} (m : M A) :
  (∀ w, now (m w).1 = now w ∧ console (m w).1 = console w ∧
        ∀ step, step ≠ "complete" → step ≠ "result" →
          property jobId step (m w).1 = property jobId step w) →
  stable (mirrors jobId) m.
Proof.
  intros H w. destruct (H w) as (Hn & Hc & Hp). split; [done|].
  exists []. split; [by rewrite app_nil_r|]. intros step. apply Hp.
Qed.

Lemma mirrors_updateProgress step p msg :
  stable (mirrors jobId) (updateProgress jobId step p msg).
Proof.
  intros w. split; [done|]. exists [EvProgress jobId step p msg].
  split; [done|]. intros step' _ _. unfold lastPublished, property. simpl.
  rewrite lookup_insert_eq. simpl.
  destruct (decide (step = step')) as [->|Hne].
  - rewrite bool_decide_eq_true_2 by done. simpl. by rewrite lookup_insert_eq.
  - rewrite bool_decide_eq_false_2 by (by intros [_ ?]). simpl.
    rewrite lookup_insert_ne by done.
    by destruct (progressStore w !! jobId).
Qed.

Lemma mirrors_setProperty key v :
  key = "complete" ∨ key = "result" →
  stable (mirrors jobId) (setProperty jobId key v).
Proof.
  intros Hkey. apply mirrors_silent. intros w. unfold setProperty, property.
  destruct (progressStore w !! jobId) as [progress|] eqn:Hjob;
    [|simpl; by rewrite Hjob].
  split_and!; [done|done|]. intros step H1 H2. simpl.
  rewrite lookup_insert_eq. simpl. rewrite lookup_insert_ne; [done|].
  by destruct Hkey as [-> | ->].
Qed.

Lemma mirrors_call {A} c (r : Outcome A) : stable (mirrors jobId) (call c r).
Proof.
  intros w. split; [done|]. exists [EvCall c (failure r)]. by split.
Qed.

Lemma mirrors_setDisk f : stable (mirrors jobId) (modify (setDisk f)).
Proof. by apply mirrors_silent. Qed.

End Mirrors.

(** X8.  The snapshot that the progress stream reads agrees with what the
    job has published: after [POST /api/transcript], for every step name
    other than [complete] and [result], the entry of the step in the job's
    snapshot holds the percentage and the message of the last publication
    of that step during the job, and a step that the job did not publish
    has the entry that it had before. *)
Theorem snapshot_shows_last_publication (env : Env) (jobId : string)
    (spotifyUrl rssUrl : option string) (w : World) :
  let w' := (postTranscript env jobId spotifyUrl rssUrl w).1 in
  ∃ tr, console w' = console w ++ tr ∧
    ∀ step, step ≠ "complete" → step ≠ "result" →
      match lastPublished jobId step tr with
      | Some (p, m) =>
          ∃ timestamp, property jobId step w' = Some (PStep p m timestamp)
      | None => property jobId step w' = property jobId step w
      end.
Proof.
  cbv zeta.
  cut (mirrors jobId w (postTranscript env jobId spotifyUrl rssUrl w).1).
  { intros (_ & tr & Htr & Hsteps). exists tr. split; [done|].
    intros step H1 H2. specialize (Hsteps step H1 H2).
    destruct (lastPublished jobId step tr) as [[p m]|]; [|done].
    by eexists. }
  apply (closure_postTranscript (mirrors jobId)); intros.
  - apply mirrors_updateProgress.
  - apply mirrors_setProperty. by left.
  - apply mirrors_call.
  - apply mirrors_setDisk.
  - apply mirrors_setProperty. by right.
Qed.

(** ** Scratch files of a job *)

Section Hoare.

Lemma hoare_conseq {A} (P P' : World → Prop) (m : M A)
    (Q Q' : Outcome A → World → Prop) :
  hoare P' m Q' → (∀ w, P w → P' w) → (∀ r w, Q' r w → Q r w) → hoare P m Q.
Proof. intros H HP HQ w Hw. by apply HQ, H, HP. Qed.

Lemma hoare_ret {A} (P : World → Prop) (a : A) (Q : Outcome A → World → Prop) :
  (∀ w, P w → Q (Ok a) w) → hoare P (mret a) Q.
Proof. intros H w Hw. by apply H. Qed.

Lemma hoare_throw {A} (P : World → Prop) e (Q : Outcome A → World → Prop) :
  (∀ w, P w → Q (Throw e) w) → hoare P (throw e) Q.
Proof. intros H w Hw. by apply H. Qed.

Lemma settle_run {A} (m : M A) (w : World) :
  settle m w = ((m w).1, Ok (m w).2).
Proof. unfold settle. by destruct (m w). Qed.

Lemma hoare_bind_ret {A B} (P : World → Prop) (a : A) (f : A → M B)
    (Q : Outcome B → World → Prop) :
  hoare P (f a) Q → hoare P (mret a ≫= f) Q.
Proof. intros H. exact H. Qed.

Lemma hoare_bind {A B} (P : World → Prop) (m : M A) (f : A → M B)
    (Q1 : Outcome A → World → Prop) (Q : Outcome B → World → Prop) :
  hoare P m Q1 →
  (∀ a, hoare (Q1 (Ok a)) (f a) Q) →
  (∀ e w, Q1 (Throw e) w → Q (Throw e) w) →
  hoare P (m ≫= f) Q.
Proof.
  intros Hm Hf He w Hw. specialize (Hm w Hw). rewrite bind_run.
  destruct (m w) as [w1 [a|e]]; [by apply Hf|by apply He].
Qed.

Lemma hoare_tryCatch {A} (P : World → Prop) (m : M A) (h : string → M A)
    (Q1 Q : Outcome A → World → Prop) :
  hoare P m Q1 →
  (∀ a w, Q1 (Ok a) w → Q (Ok a) w) →
  (∀ e, hoare (Q1 (Throw e)) (h e) Q) →
  hoare P (tryCatch m h) Q.
Proof.
  intros Hm Ha Hh w Hw. specialize (Hm w Hw). unfold tryCatch.
  destruct (m w) as [w1 [a|e]]; [by apply Ha|by apply Hh].
Qed.

Lemma hoare_settle {A} (P : World → Prop) (m : M A)
    (Q : Outcome A → World → Prop) :
  hoare P m Q →
  hoare P (settle m) (λ r w, match r with Ok r' => Q r' w | Throw _ => False end).
Proof.
  intros Hm w Hw. specialize (Hm w Hw). unfold settle. by destruct (m w).
Qed.

(** A step that respects a preorder keeps what the preorder keeps. *)
Lemma hoare_stable {A} (R : World → World → Prop) (P : World → Prop)
    (m : M A) :
  stable R m → (∀ w w', P w → R w w' → P w') → hoare P m (λ _, P).
Proof. intros Hm HP w Hw. eapply HP; [exact Hw|apply Hm]. Qed.

Lemma hoare_bind_stable {A B} (R : World → World → Prop) (P : World → Prop)
    (m : M A) (f : A → M B) (Q : Outcome B → World → Prop) :
  stable R m → (∀ w w', P w → R w w' → P w') →
  (∀ a, hoare P (f a) Q) →
  (∀ e w, P w → Q (Throw e) w) →
  hoare P (m ≫= f) Q.
Proof.
  intros Hm HP Hf He.
  apply (hoare_bind _ _ _ (λ _, P)); [by eapply hoare_stable|done|done].
Qed.

(** Rules for a publication and for a call, which change the console and
    the job table only. *)

Lemma hoare_bind_updateProgress {B} (P : World → Prop) jobId step p msg
    (f : () → M B) (Q : Outcome B → World → Prop) :
  (∀ w w', P w → keepsFiles w w' → P w') →
  hoare P (f ()) Q →
  hoare P (updateProgress jobId step p msg ≫= f) Q.
Proof.
  intros HP Hf w Hw. rewrite bind_run. cbn [updateProgress].
  apply Hf. eapply HP; [exact Hw|done].
Qed.

Lemma hoare_bind_call {A B} (P : World → Prop) c (r : Outcome A)
    (f : A → M B) (Q : Outcome B → World → Prop) :
  (∀ w w', P w → keepsFiles w w' → P w') →
  (∀ a, r = Ok a → hoare P (f a) Q) →
  (∀ e w, r = Throw e → P w → Q (Throw e) w) →
  hoare P (call c r ≫= f) Q.
Proof.
  intros HP Hf He w Hw. rewrite bind_run. unfold call.
  assert (P (logEvent (EvCall c (failure r)) w)) as Hw'
    by (eapply HP; [exact Hw|done]).
  destruct r as [a|e]; [by apply Hf|by apply He].
Qed.

End Hoare.

Section Result.

Variable env : Env.
Variable jobId : string.

Global Instance staysUnset_preorder : PreOrder (staysUnset jobId).
Proof.
  split; [intros w H; exact H|]. intros w1 w2 w3 H1 H2 H. by apply H2, H1.
Qed.

Lemma staysUnset_silent {A} (m : M A) :
  (∀ w, progressStore (m w).1 = progressStore w) → stable (staysUnset jobId) m.
Proof. intros H w. unfold staysUnset, property. by rewrite H. Qed.

Lemma staysUnset_updateProgress step p msg :
  step ∈ stepOrder → stable (staysUnset jobId) (updateProgress jobId step p msg).
Proof.
  intros Hstep w. unfold staysUnset, property. simpl.
  rewrite lookup_insert_eq. simpl.
  assert (step ≠ "result") as Hne.
  { intros ->. revert Hstep. apply (bool_decide_eq_false_1 _). reflexivity. }
  rewrite lookup_insert_ne by done.
  by destruct (progressStore w !! jobId).
Qed.

Lemma staysUnset_complete :
  stable (staysUnset jobId) (setProperty jobId "complete" PTrue).
Proof.
  intros w. unfold staysUnset, property, setProperty.
  destruct (progressStore w !! jobId) as [progress|] eqn:Hjob;
    [|simpl; by rewrite Hjob].
  simpl. rewrite lookup_insert_eq. simpl. by rewrite lookup_insert_ne.
Qed.

Lemma staysUnset_call {A} c (r : Outcome A) :
  stable (staysUnset jobId) (call c r).
Proof. by apply staysUnset_silent. Qed.

Lemma staysUnset_setDisk f : stable (staysUnset jobId) (modify (setDisk f)).
Proof. by apply staysUnset_silent. Qed.

(** The result is stored by the last step only: a job that had no result
    has one when and only when the handler has stored it and returned. *)
Lemma result_postTranscript spotifyUrl rssUrl :
  hoare (λ w, property jobId "result" w = None)
    (postTranscript env jobId spotifyUrl rssUrl)
    (λ r w, property jobId "result" w = None ∨
            r = Ok () ∧ completedSnapshot jobId w).
Proof.
  set (P := λ w, property jobId "result" w = None).
  assert (∀ w w', P w → staysUnset jobId w w' → P w') as Hclosed
    by (intros w w' Hw H; by apply H).
  assert (∀ A (m : M A), stable (staysUnset jobId) m → hoare P m (λ _, P))
    as Hkeep by (intros A m Hm; by apply (hoare_stable (staysUnset jobId))).
  pose proof staysUnset_updateProgress as H1.
  pose proof staysUnset_complete as H2.
  pose proof (@staysUnset_call) as H3.
  pose proof staysUnset_setDisk as H4.
  unfold postTranscript. destruct (truthy spotifyUrl); cbn [negb];
    [|apply hoare_ret; by left].
  apply (hoare_bind _ _ _ (λ _, P)); [| |by intros e w H; left].
  { apply Hkeep, (stable_settle (staysUnset jobId)).
    apply (stable_bind (staysUnset jobId));
      [by apply (closure_resolveEpisode (staysUnset jobId))|].
    intros [[targetEpisode audioUrl]|]; [|apply (stable_ret (staysUnset jobId))].
    apply (stable_bind (staysUnset jobId));
      [by apply (closure_extractEpisodeId (staysUnset jobId))|].
    intros episodeId. apply (stable_bind (staysUnset jobId));
      [by apply (closure_downloadAudio (staysUnset jobId))|].
    intros. apply (stable_ret (staysUnset jobId)). }
  assert (∀ tempFilePath e,
            hoare P (catchBlock jobId tempFilePath e)
              (λ r w, property jobId "result" w = None ∨
                      r = Ok () ∧ completedSnapshot jobId w)) as Hcatch.
  { intros tempFilePath e. eapply hoare_conseq;
      [apply Hkeep; by apply (closure_catchBlock (staysUnset jobId))|done|].
    intros r w Hw. by left. }
  intros [[[targetEpisode tempFilePath]|]|e];
    [|apply hoare_ret; by left|apply Hcatch].
  apply (hoare_bind _ _ _ (λ _, P)); [| |by intros e w H; left].
  { apply Hkeep, (stable_settle (staysUnset jobId)).
    apply (stable_bind (staysUnset jobId));
      [by apply (closure_processTranscription (staysUnset jobId))|].
    intros transcript. apply (stable_bind (staysUnset jobId)).
    - apply (stable_tryCatch (staysUnset jobId));
        [by apply (closure_summariseWithGemini (staysUnset jobId))|].
      intros. apply (stable_ret (staysUnset jobId)).
    - intros summary. apply (stable_bind (staysUnset jobId));
        [by apply (closure_cleanupFile (staysUnset jobId))|].
      intros. apply (stable_ret (staysUnset jobId)). }
  intros [[transcript summary]|e]; [|apply Hcatch].
  intros w _. rewrite bind_run, settle_run.
  destruct (course_storeResult jobId
              {| episode_title := title targetEpisode;
                 episode_published := pubDate targetEpisode;
                 episode_duration := itunes_duration targetEpisode;
                 transcript := transcript;
                 summary := summary |} "Transcription complete!" w)
    as (tr & _ & Hrun).
  destruct (Hrun Running eq_refl) as (Hok & _ & Hsnap).
  cbn [fst snd]. rewrite Hok. right. by split.
Qed.

End Result.

(** X12.  What [GET /api/result/:jobId] answers once the handler of
    [POST /api/transcript] is done, for a job id that was unused: without a
    Spotify URL no snapshot was made and the answer is 404; otherwise the
    answer is 200 with the stored result, or 500 with the message of the
    error that the job has published. *)
Theorem result_is_ready_when_the_job_ends (env : Env) (jobId : string)
    (spotifyUrl rssUrl : option string) (w : World) :
  progressStore w !! jobId = None →
  let w' := (postTranscript env jobId spotifyUrl rssUrl w).1 in
  if truthy spotifyUrl then
    (∃ result, (getResult jobId w').2 = R200 (PResult result)) ∨
    (∃ message, (getResult jobId w').2 = R500 (Some message) ∧
                failedSnapshot jobId message w')
  else (getResult jobId w').2 = R404.
Proof.
  intros Hfresh. cbv zeta.
  destruct (truthy spotifyUrl) eqn:Hurl.
  2:{ unfold postTranscript. rewrite Hurl. cbn. unfold getResult.
      by rewrite Hfresh. }
  assert (∀ w', completedSnapshot jobId w' →
                ∃ result, (getResult jobId w').2 = R200 (PResult result))
    as Hdone.
  { intros w' (progress & result & Hjob & _ & Hres). exists result.
    unfold getResult. by rewrite Hjob, Hres. }
  destruct (course_postTranscript env jobId spotifyUrl rssUrl Hurl w)
    as (tr & _ & Hend).
  destruct (Hend Running eq_refl) as [[_ Hsnap]|(caught & message & _ & Hsnap)];
    [left; by apply Hdone|].
  destruct (result_postTranscript env jobId spotifyUrl rssUrl w)
    as [Hnone|[_ Hsnap']];
    [by unfold property; rewrite Hfresh| |left; by apply Hdone].
  right. exists message. split; [|done].
  destruct Hsnap as (progress & timestamp & Hjob & _ & Herr).
  unfold property in Hnone. rewrite Hjob in Hnone. simpl in Hnone.
  unfold getResult. by rewrite Hjob, Hnone, Herr.
Qed.

Lemma result_is_ready_when_the_job_ends_witness :
  progressStore emptyWorld !! "job1" = None ∧
  ((∃ result, (getResult "job1" completedWorld).2 = R200 (PResult result)) ∨
   (∃ message, (getResult "job1" completedWorld).2 = R500 (Some message) ∧
               failedSnapshot "job1" message completedWorld)).
Proof.
  split; [reflexivity|].
  exact (result_is_ready_when_the_job_ends
           (sampleEnv 1000 (Ok {| text := lit " hello world" |}) (Ok 500%N))
           "job1" sampleUrl None emptyWorld eq_refl).
Defined.

(** ** The paths of the scratch files *)

Section Paths.

Lemma append_assoc' (a b c : string) : (a +:+ b) +:+ c = a +:+ (b +:+ c).
Proof.
  induction a as [|x a IH]; [done|]. rewrite !append_cons. by f_equal.
Qed.

Lemma append_inv_head (a x y : string) : a +:+ x = a +:+ y → x = y.
Proof.
  induction a as [|c a IH]; [done|]. rewrite !append_cons.
  intros [= H]. by apply IH.
Qed.

Lemma noDot_app (a b : string) : noDot (a +:+ b) = noDot a && noDot b.
Proof.
  induction a as [|c a IH]; [done|]. rewrite append_cons. simpl.
  by rewrite IH, andb_assoc.
Qed.

Lemma isAlnum_noDot (c : Ascii.ascii) :
  isAlnum c = true → Ascii.eqb c DOT = false.
Proof.
  destruct (Ascii.eqb c DOT) eqn:H; [|done].
  apply Ascii.eqb_eq in H as ->. done.
Qed.

Lemma takeAlnum_noDot (s : string) : noDot (takeAlnum s) = true.
Proof.
  induction s as [|c s IH]; [done|]. simpl.
  destruct (isAlnum c) eqn:Hc; [|done]. simpl.
  by rewrite (isAlnum_noDot c Hc), IH.
Qed.

Lemma pretty_N_go_noDot (x : N) : ∀ s,
  noDot s = true → noDot (pretty_N_go x s) = true.
Proof.
  induction (N.lt_wf_0 x) as [x _ IH]; intros s Hs.
  assert (x = 0 ∨ 0 < x)%N as [->|Hx] by lia.
  - by rewrite pretty_N_go_0.
  - rewrite pretty_N_go_step by done. apply IH; [by apply N.div_lt|].
    simpl. rewrite Hs. unfold pretty_N_char. by repeat case_match.
Qed.

Lemma pretty_N_noDot (x : N) : noDot (pretty x) = true.
Proof.
  unfold pretty, pretty_N. case_decide; [done|]. by apply pretty_N_go_noDot.
Qed.

Lemma pretty_nat_noDot (i : nat) : noDot (pretty i) = true.
Proof. apply pretty_N_noDot. Qed.

Lemma pretty_Z_noDot (z : Z) : noDot (pretty z) = true.
Proof.
  destruct z as [|p|p]; [done|apply pretty_N_noDot|].
  change (pretty (Z.neg p)) with ("-" +:+ pretty (N.pos p)).
  rewrite noDot_app. by rewrite pretty_N_noDot.
Qed.

Lemma replaceFirst_cons (pat rep : string) (c : Ascii.ascii) (s : string) :
  replaceFirst pat rep (String c s) =
  if String.prefix pat (String c s)
  then rep +:+ dropString (String.length pat) (String c s)
  else String c (replaceFirst pat rep s).
Proof. reflexivity. Qed.

(** In a path without full stop before its extension, the first [.mp3] is
    the extension. *)
Lemma replaceFirst_extension (a rep rest : string) :
  noDot a = true →
  replaceFirst ".mp3" rep (a +:+ ".mp3" +:+ rest) = a +:+ rep +:+ rest.
Proof.
  intros Ha. induction a as [|c a IH].
  - change ("" +:+ ".mp3" +:+ rest) with (".mp3" +:+ rest).
    cbn [replaceFirst].
    change (String.prefix ".mp3" (".mp3" +:+ rest)) with (String.prefix "" rest).
    by destruct rest.
  - simpl in Ha. apply andb_prop in Ha as [Hc Ha].
    rewrite !(append_cons c a), replaceFirst_cons.
    assert (String.prefix ".mp3" (String c (a +:+ ".mp3" +:+ rest)) = false)
      as ->.
    { cbn [String.prefix]. fold DOT.
      destruct (Ascii.ascii_dec DOT c) as [<-|]; [|done].
      by rewrite Ascii.eqb_refl in Hc. }
    f_equal. by apply IH.
Qed.

Lemma append_inv_extension (a b : string) :
  noDot a = true → noDot b = true → a +:+ ".mp3" = b +:+ ".mp3" → a = b.
Proof.
  revert b. induction a as [|c a IH]; intros [|d b] Ha Hb.
  - done.
  - rewrite (append_cons d b). intros [= <- _]. done.
  - rewrite (append_cons c a). intros [= -> _]. done.
  - rewrite (append_cons c a), (append_cons d b).
    simpl in Ha, Hb. apply andb_prop in Ha as [_ Ha], Hb as [_ Hb].
    intros [= -> H]. f_equal. by apply IH.
Qed.

Lemma append_nil_r' (s : string) : s +:+ "" = s.
Proof. induction s as [|c s IH]; [done|]. rewrite append_cons. by f_equal. Qed.

Lemma replaceFirst_extension' (a rep : string) :
  noDot a = true → replaceFirst ".mp3" rep (a +:+ ".mp3") = a +:+ rep.
Proof.
  intros Ha. pose proof (replaceFirst_extension a rep "" Ha) as H.
  by rewrite !append_nil_r' in H.
Qed.

(** The paths derived from a path [a.mp3] whose stem [a] has no full
    stop. *)
Lemma chunkPath_stem (a : string) (i : nat) :
  noDot a = true →
  chunkPath (a +:+ ".mp3") i = a +:+ "_chunk_" +:+ pretty i +:+ ".mp3".
Proof. apply replaceFirst_extension'. Qed.

Lemma compressedPath_stem (a : string) :
  noDot a = true →
  compressedPath (a +:+ ".mp3") = (a +:+ "_compressed") +:+ ".mp3".
Proof.
  intros Ha. unfold compressedPath. rewrite replaceFirst_extension' by done.
  by rewrite append_assoc'.
Qed.

Lemma chunkPath_inj (a : string) (i j : nat) :
  noDot a = true →
  chunkPath (a +:+ ".mp3") i = chunkPath (a +:+ ".mp3") j → i = j.
Proof.
  intros Ha. rewrite !chunkPath_stem by done.
  intros H%append_inv_head. injection H as H.
  apply append_inv_extension in H; [|apply pretty_nat_noDot..].
  by apply (inj pretty).
Qed.

Lemma chunkPath_fresh (a : string) (i : nat) :
  noDot a = true → chunkPath (a +:+ ".mp3") i ≠ a +:+ ".mp3".
Proof. intros Ha. rewrite chunkPath_stem by done. by intros H%append_inv_head. Qed.

Lemma stem_noDot (episodeId : string) (t : Z) :
  takeAlnum episodeId = episodeId → noDot (stem episodeId t) = true.
Proof.
  intros Hid. unfold stem. rewrite !noDot_app, <- Hid, takeAlnum_noDot.
  by rewrite pretty_Z_noDot.
Qed.

Lemma downloadPath_stem (episodeId : string) (t : Z) :
  downloadPath episodeId t = stem episodeId t +:+ ".mp3".
Proof. unfold downloadPath, stem. by rewrite !append_assoc'. Qed.

End Paths.

Section ChunkPaths.

Variable env : Env.
Variable jobId : string.

Lemma paths_splitLoop inputPath n todo : ∀ i chunks,
  hoare (λ _, True) (splitLoop env inputPath jobId n todo i chunks)
    (λ r _, match r with
            | Ok chunks' =>
                chunks' = chunks ++ (chunkPath inputPath <$> seq i todo)
            | Throw _ => True
            end).
Proof.
  induction todo as [|todo IH]; intros i chunks; cbn [splitLoop].
  - apply hoare_ret. intros w _. by rewrite app_nil_r.
  - apply hoare_bind_call; [done| |done]. intros size _.
    apply (hoare_bind _ _ _ (λ _ _, True)); [done| |done]. intros [].
    apply hoare_bind_updateProgress; [done|].
    eapply hoare_conseq; [apply IH|done|].
    intros [chunks'|e] w; [|done]. intros ->.
    by rewrite <- app_assoc.
Qed.

Lemma paths_splitAudioIntoChunks inputPath (w : World) :
  match (splitAudioIntoChunks env inputPath jobId w).2 with
  | Ok chunks => chunks = chunkPath inputPath <$> seq 0 (length chunks)
  | Throw _ => True
  end.
Proof.
  revert w.
  cut (hoare (λ _, True) (splitAudioIntoChunks env inputPath jobId)
         (λ r _, match r with
                 | Ok chunks =>
                     chunks = chunkPath inputPath <$> seq 0 (length chunks)
                 | Throw _ => True
                 end)); [intros H w; by apply H|].
  unfold splitAudioIntoChunks, getAudioDuration.
  apply hoare_bind_call; [done| |done]. intros duration _.
  apply hoare_bind_updateProgress; [done|].
  eapply hoare_bind; [apply paths_splitLoop|intros chunks|done].
  cbv beta. apply hoare_bind_updateProgress; [by intros ? ? ->|].
  apply hoare_ret. intros w ->. cbn [app].
  by rewrite length_fmap, length_seq.
Qed.

End ChunkPaths.

(** X11.  The scratch files of a job have distinct names.  For an
    alphanumeric episode id, the compressed file differs from the download;
    and the chunks cut from either of them are
    [<input without .mp3>_chunk_<i>.mp3] for [i = 0, 1, ...], pairwise
    distinct and different from both the download and the compressed file,
    so that no cut or compression overwrites its own input. *)
Theorem scratch_paths_do_not_collide (env : Env) (jobId episodeId : string)
    (t : Z) (w : World) :
  takeAlnum episodeId = episodeId →
  let source := downloadPath episodeId t in
  compressedPath source ≠ source ∧
  ∀ inputPath chunks,
    inputPath = source ∨ inputPath = compressedPath source →
    (splitAudioIntoChunks env inputPath jobId w).2 = Ok chunks →
    chunks = chunkPath inputPath <$> seq 0 (length chunks) ∧
    NoDup chunks ∧ (source ∉ chunks) ∧ (compressedPath source ∉ chunks).
Proof.
  intros Hid. cbv zeta. rewrite downloadPath_stem.
  pose proof (stem_noDot episodeId t Hid) as Ha.
  set (a := stem episodeId t) in *.
  assert (noDot (a +:+ "_compressed") = true) as Ha'
    by (by rewrite noDot_app, Ha).
  rewrite compressedPath_stem by done.
  split.
  { rewrite append_assoc'. by intros H%append_inv_head. }
  intros inputPath chunks Hinput Hrun.
  pose proof (paths_splitAudioIntoChunks env jobId inputPath w) as Hpaths.
  rewrite Hrun in Hpaths. split; [done|]. rewrite Hpaths.
  generalize (length chunks). intros n.
  destruct Hinput as [-> | ->]; split_and!.
  - apply (NoDup_fmap_2_strong _); [|apply NoDup_seq].
    intros i j _ _. by apply chunkPath_inj.
  - intros (i & H & _)%list_elem_of_fmap. symmetry in H.
    by apply chunkPath_fresh in H.
  - intros (i & H & _)%list_elem_of_fmap. symmetry in H. revert H.
    rewrite chunkPath_stem, append_assoc' by done.
    by intros H%append_inv_head.
  - apply (NoDup_fmap_2_strong _); [|apply NoDup_seq].
    intros i j _ _. by apply chunkPath_inj.
  - intros (i & H & _)%list_elem_of_fmap. symmetry in H. revert H.
    rewrite chunkPath_stem, !append_assoc' by done.
    by intros H%append_inv_head.
  - intros (i & H & _)%list_elem_of_fmap. symmetry in H.
    by apply chunkPath_fresh in H.
Qed.

Lemma scratch_paths_do_not_collide_witness :
  takeAlnum "abc123" = "abc123" ∧
  let env := sampleEnv 30000000 (Throw "rate limit") (Ok 500%N) in
  let source := downloadPath "abc123" 1700000000000 in
  compressedPath source ≠ source ∧
  ∀ inputPath chunks,
    inputPath = source ∨ inputPath = compressedPath source →
    (splitAudioIntoChunks env inputPath "job1" emptyWorld).2 = Ok chunks →
    chunks = chunkPath inputPath <$> seq 0 (length chunks) ∧
    NoDup chunks ∧ (source ∉ chunks) ∧ (compressedPath source ∉ chunks).
Proof.
  split; [reflexivity|].
  exact (scratch_paths_do_not_collide
           (sampleEnv 30000000 (Throw "rate limit") (Ok 500%N))
           "job1" "abc123" 1700000000000 emptyWorld eq_refl).
Defined.

(** ** The summary *)

(** X13.  [summariseWithGemini] never fails and always closes its step:
    for a job id that is not empty it returns (a summary or [null]), and
    the last percentage it publishes is 100 for the step [summary].
    Without [GEMINI_API_KEY] it returns [null] and calls nothing; and it
    returns a summary only after a successful call of the model. *)
Theorem summary_always_ends_at_100 (env : Env) (transcript : jsstring)
    (episodeTitle : option string) (jobId : string) (w : World) :
  jobId ≠ "" →
  let run := summariseWithGemini env transcript episodeTitle jobId w in
  ∃ summary tr,
    run.2 = Ok summary ∧
    console run.1 = console w ++ tr ∧
    last (publications tr) = Some ("summary", 100) ∧
    (GEMINI_API_KEY env = false →
       summary = None ∧ ∀ c failed, EvCall c failed ∉ tr) ∧
    (is_Some summary → EvCall CGemini None ∈ tr).
Proof.
  intros Hjob. cbv zeta. unfold summariseWithGemini, sendWebhook.
  assert (truthy (Some jobId) = true) as -> by (by destruct jobId).
  destruct (GEMINI_API_KEY env); cbn [negb].
  2:{ eexists None, _. split_and!; [reflexivity|reflexivity|reflexivity| |].
      - intros _. split; [done|]. intros c failed.
        by intros [=]%list_elem_of_singleton.
      - by intros []. }
  assert (∀ c failed (l : list Event), EvCall c failed ∈ EvCall c failed :: l)
    as Hhere by (intros; left).
  destruct (geminiGenerate env transcript episodeTitle) as [[parts|]|e] eqn:Hg;
    [destruct (concat parts) as [|c summaryText] eqn:Hparts|..];
    destruct (WEBHOOK_URL env);
    try destruct (webhookPost env ("Summary: " +:+ default "undefined" episodeTitle))
      as [[]|?];
    try destruct (webhookPost env
                    ("Error Summarising: " +:+ default "undefined" episodeTitle))
      as [[]|?];
    unfold tryCatch, call, mbind, M_bind, mret, M_ret; cbn;
    rewrite ?Hg; cbn; rewrite ?Hparts; cbn;
    eexists _, _;
    (split_and!;
     [reflexivity|by rewrite <- ?app_assoc|reflexivity|done|
      first [by intros [? [=]]|intros _; set_solver]]).
Qed.

Lemma summary_always_ends_at_100_witness :
  "job1" ≠ "" ∧
  let env := sampleEnv 1000 (Ok {| text := lit "hello" |}) (Ok 500%N) in
  let run := summariseWithGemini env (lit "hello") (Some "Ep") "job1"
               emptyWorld in
  ∃ summary tr,
    run.2 = Ok summary ∧
    console run.1 = console emptyWorld ++ tr ∧
    last (publications tr) = Some ("summary", 100) ∧
    (GEMINI_API_KEY env = false →
       summary = None ∧ ∀ c failed, EvCall c failed ∉ tr) ∧
    (is_Some summary → EvCall CGemini None ∈ tr).
Proof.
  assert (H : "job1" ≠ "") by discriminate.
  split; [exact H|].
  exact (summary_always_ends_at_100
           (sampleEnv 1000 (Ok {| text := lit "hello" |}) (Ok 500%N))
           (lit "hello") (Some "Ep") "job1" emptyWorld H).
Defined.

(** ** The progress stream *)

Section Stream.

Variable jobId : string.

Lemma foldl_tick_finished (ws : list World) (s : Stream) :
  polling s = false → foldl (tick jobId) s ws = s.
Proof.
  intros H. induction ws as [|w ws IH]; [done|]. simpl. unfold tick at 2.
  by rewrite H.
Qed.

Lemma pollAll_from (ws : list World) : ∀ s,
  polling s = true →
  let snapshots := omap (λ w, progressStore w !! jobId) ws in
  written (foldl (tick jobId) s ws)
    = written s ++ (FProgress <$> untilComplete snapshots) ∧
  (polling (foldl (tick jobId) s ws) = false ↔
   Exists (λ progress, is_Some (progress !! "complete")) snapshots) ∧
  finished (foldl (tick jobId) s ws)
    = finished s || negb (polling (foldl (tick jobId) s ws)).
Proof.
  induction ws as [|w ws IH]; intros s Hs; cbn zeta.
  - simpl. rewrite app_nil_r, Hs. split_and!; [done| |by rewrite orb_false_r].
    split; [done|]. by intros ?%Exists_nil.
  - cbn [foldl omap].
    assert (tick jobId s w = onInterval jobId w s) as ->
      by (unfold tick; by rewrite Hs).
    unfold onInterval.
    cbn [omap list_omap].
    destruct (progressStore w !! jobId) as [progress|] eqn:Hjob;
      [|by apply IH].
    cbn [untilComplete]. case_bool_decide as Hc.
    + rewrite foldl_tick_finished by done. cbn.
      split_and!; [done| |by rewrite orb_true_r].
      split; [intros _; by left|done].
    + match goal with |- context [foldl _ ?s' ws] =>
        destruct (IH s' Hs) as (Hw & Hp & Hf) end.
      cbn [written finished] in Hw, Hf. rewrite Hw, Hf, fmap_cons.
      split_and!; [by rewrite <- app_assoc| |done].
      rewrite Hp. split; [by right|]. by intros [?|?]%Exists_cons.
Qed.

Lemma foldl_streamStep_ended (evs : list StreamEvent) (s : Stream) :
  polling s = false → finished s = true →
  foldl (streamStep jobId) s evs = s.
Proof.
  intros Hp Hf. induction evs as [|[w|] evs IH]; [done|..]; cbn [foldl].
  - unfold streamStep, tick. by rewrite Hp.
  - assert (streamStep jobId s Close = s) as ->; [|done].
    destruct s as [ws p f]. simpl in *. by subst.
Qed.

Lemma runStream_ticks (evs : list StreamEvent) : ∀ s,
  foldl (streamStep jobId) s evs =
  if disconnects evs
  then onClose (foldl (tick jobId) s (ticksBeforeClose evs))
  else foldl (tick jobId) s (ticksBeforeClose evs).
Proof.
  induction evs as [|[w|] evs IH]; intros s.
  - done.
  - cbn [foldl ticksBeforeClose streamStep disconnects existsb orb].
    apply IH.
  - cbn [foldl ticksBeforeClose streamStep disconnects existsb orb].
    by apply foldl_streamStep_ended.
Qed.

End Stream.

(** X14.  What [GET /api/progress/:jobId] writes.  Over any sequence of
    events of the connection, ticks of the interval in some state of the
    server and the disconnection of the client, the stream writes the
    [connected] frame and then one frame for each snapshot of the job found
    at a tick before the client disconnects, up to and including the first
    snapshot that has [complete], and nothing after it; ticks at which the
    job has no snapshot write nothing.  The response is ended, and the
    interval cleared, exactly when the client has disconnected or a tick
    before that has found a snapshot with [complete]. *)
Theorem stream_sends_snapshots_until_complete (jobId : string)
    (evs : list StreamEvent) :
  let snapshots :=
    omap (λ w, progressStore w !! jobId) (ticksBeforeClose evs) in
  written (runStream jobId evs)
    = FConnected :: (FProgress <$> untilComplete snapshots) ∧
  (finished (runStream jobId evs) = true ↔
   disconnects evs = true ∨
   Exists (λ progress, is_Some (progress !! "complete")) snapshots) ∧
  polling (runStream jobId evs) = negb (finished (runStream jobId evs)).
Proof.
  cbv zeta. unfold runStream. rewrite runStream_ticks.
  destruct (pollAll_from jobId (ticksBeforeClose evs) openStream eq_refl)
    as (Hw & Hp & Hf).
  cbn [finished openStream orb] in Hf. cbn [written openStream app] in Hw.
  destruct (disconnects evs).
  - cbn [onClose written finished polling]. split_and!; [done| |done].
    split; [by left|done].
  - split_and!; [done| |].
    + rewrite Hf, <- Hp. destruct (polling _); simpl; naive_solver.
    + rewrite Hf. by destruct (polling _).
Qed.

(** X15.  A stream that polls after the job is over ends at its first
    tick: once the handler of [POST /api/transcript] is done (with a Spotify
    URL), one tick writes a single progress frame after [connected], whose
    snapshot has [complete: true] and a [result] or an [error], clears the
    interval and ends the response. *)
Theorem stream_ends_after_the_job (env : Env) (jobId : string)
    (spotifyUrl rssUrl : option string) (w : World) :
  truthy spotifyUrl = true →
  let w' := (postTranscript env jobId spotifyUrl rssUrl w).1 in
  ∃ progress,
    pollAll jobId [w'] =
      {| written := [FConnected; FProgress progress]; polling := false;
         finished := true |} ∧
    progress !! "complete" = Some PTrue ∧
    (is_Some (progress !! "result") ∨ is_Some (progress !! "error")).
Proof.
  intros Hurl. cbv zeta.
  destruct (course_postTranscript env jobId spotifyUrl rssUrl Hurl w)
    as (tr & _ & Hend).
  assert (∃ progress,
            progressStore (postTranscript env jobId spotifyUrl rssUrl w).1
              !! jobId = Some progress ∧
            progress !! "complete" = Some PTrue ∧
            (is_Some (progress !! "result") ∨ is_Some (progress !! "error")))
    as (progress & Hjob & Hc & Hr).
  { destruct (Hend Running eq_refl)
      as [[_ (progress & result & ? & ? & ?)]|
          (caught & message & _ & progress & ts & ? & ? & ?)];
      exists progress; split_and!; try done; [left|right]; by eexists. }
  exists progress. split; [|done].
  unfold pollAll, tick, onInterval. cbn [foldl openStream polling].
  rewrite Hjob, Hc. by rewrite bool_decide_eq_true_2 by (by eexists).
Qed.

Lemma stream_ends_after_the_job_witness :
  truthy sampleUrl = true ∧
  ∃ progress,
    pollAll "job1" [completedWorld] =
      {| written := [FConnected; FProgress progress]; polling := false;
         finished := true |} ∧
    progress !! "complete" = Some PTrue ∧
    (is_Some (progress !! "result") ∨ is_Some (progress !! "error")).
Proof.
  split; [reflexivity|].
  exact (stream_ends_after_the_job
           (sampleEnv 1000 (Ok {| text := lit " hello world" |}) (Ok 500%N))
           "job1" sampleUrl None emptyWorld eq_refl).
Defined.

(** X16.  A stream for a job id that is in the job table at none of its
    ticks is never ended by the server: nothing is written after the
    [connected] frame, and the interval keeps running and the response stays
    open until the client disconnects, however many ticks pass. *)
Theorem stream_of_unknown_job_stays_open (jobId : string)
    (evs : list StreamEvent) :
  Forall (λ ev, match ev with
                | Tick w => progressStore w !! jobId = None
                | Close => True
                end) evs →
  runStream jobId evs =
  if disconnects evs then onClose openStream else openStream.
Proof.
  intros Hall. unfold runStream. rewrite runStream_ticks.
  assert (foldl (tick jobId) openStream (ticksBeforeClose evs) = openStream)
    as ->; [|done].
  generalize openStream.
  induction evs as [|[w|] evs IH]; intros s; [done| |done].
  apply Forall_cons in Hall as [Hw Hall]. cbn [ticksBeforeClose foldl].
  rewrite <- (IH Hall s) at 2. f_equal.
  unfold tick, onInterval. rewrite Hw. by destruct (polling s).
Qed.

Lemma stream_of_unknown_job_stays_open_witness :
  Forall (λ ev, match ev with
                | Tick w => progressStore w !! "job2" = None
                | Close => True
                end)
    [Tick emptyWorld; Tick completedWorld; Close; Tick emptyWorld] ∧
  runStream "job2"
    [Tick emptyWorld; Tick completedWorld; Close; Tick emptyWorld]
  = onClose openStream.
Proof.
  assert (H : Forall (λ ev, match ev with
                | Tick w => progressStore w !! "job2" = None
                | Close => True
                end)
    [Tick emptyWorld; Tick completedWorld; Close; Tick emptyWorld]).
  { repeat apply Forall_cons_2; [vm_compute; reflexivity..|apply Forall_nil_2]. }
  split; [exact H|].
  exact (stream_of_unknown_job_stays_open "job2" _ H).
Defined.

(** ** The page *)

Section Escape.

Lemma replaceAll_app c rep s1 s2 :
  replaceAll c rep (s1 ++ s2) = replaceAll c rep s1 ++ replaceAll c rep s2.
Proof. apply bind_app. Qed.

Lemma escapeHtml_app s1 s2 :
  escapeHtml (s1 ++ s2) = escapeHtml s1 ++ escapeHtml s2.
Proof. unfold escapeHtml. by rewrite !replaceAll_app. Qed.

Lemma escapeHtml_unit c : escapeHtml [c] = entity c.
Proof.
  unfold escapeHtml, entity, replaceAll. cbn [mbind list_bind app].
  destruct (c =? AMP)%N eqn:H1; [reflexivity|].
  cbn [mbind list_bind app].
  destruct (c =? LT)%N eqn:H2; [reflexivity|].
  cbn [mbind list_bind app].
  destruct (c =? GT)%N eqn:H3; reflexivity.
Qed.

Lemma escapeHtml_entities s : escapeHtml s = s ≫= entity.
Proof.
  induction s as [|c s IH]; [done|].
  change (c :: s) with ([c] ++ s). rewrite escapeHtml_app, escapeHtml_unit, IH.
  reflexivity.
Qed.

Lemma entity_no_brackets c : (LT ∉ entity c) ∧ (GT ∉ entity c).
Proof.
  unfold entity.
  destruct (c =? AMP)%N eqn:H1; [split; vm_compute; set_solver|].
  destruct (c =? LT)%N eqn:H2; [split; vm_compute; set_solver|].
  destruct (c =? GT)%N eqn:H3; [split; vm_compute; set_solver|].
  apply N.eqb_neq in H2, H3. split; set_solver.
Qed.

Lemma entity_inj c c' rest rest' :
  entity c ++ rest = entity c' ++ rest' → c = c' ∧ rest = rest'.
Proof.
  unfold entity.
  destruct (c =? AMP)%N eqn:H1; destruct (c' =? AMP)%N eqn:H1';
    [apply N.eqb_eq in H1, H1'; subst; by intros [= ->] | | |].
  - destruct (c' =? LT)%N; [by intros [=]|].
    destruct (c' =? GT)%N; [by intros [=]|].
    apply N.eqb_neq in H1'. intros [= <-]. done.
  - destruct (c =? LT)%N; [by intros [=]|].
    destruct (c =? GT)%N; [by intros [=]|].
    apply N.eqb_neq in H1. intros [= ->]. done.
  - destruct (c =? LT)%N eqn:H2; destruct (c' =? LT)%N eqn:H2';
      [apply N.eqb_eq in H2, H2'; subst; by intros [= ->] | | |].
    + destruct (c' =? GT)%N; [by intros [=]|].
      apply N.eqb_neq in H1'. intros [= <-]. done.
    + destruct (c =? GT)%N; [by intros [=]|].
      apply N.eqb_neq in H1. intros [= ->]. done.
    + destruct (c =? GT)%N eqn:H3; destruct (c' =? GT)%N eqn:H3';
        [apply N.eqb_eq in H3, H3'; subst; by intros [= ->] | | |].
      * apply N.eqb_neq in H1'. intros [= <-]. done.
      * apply N.eqb_neq in H1. intros [= ->]. done.
      * by intros [= -> ->].
Qed.

End Escape.

Lemma escapeHtml_no_brackets (text : jsstring) :
  (LT ∉ escapeHtml text) ∧ (GT ∉ escapeHtml text).
Proof.
  rewrite escapeHtml_entities. induction text as [|c text [IH1 IH2]].
  - split; set_solver.
  - cbn [mbind list_bind]. destruct (entity_no_brackets c) as [H1 H2].
    split; intros [?|?]%elem_of_app; done.
Qed.

(** X19.  [escapeHtml] leaves no markup in a text: its result contains
    neither [<] nor [>], for every input; and a text without [&], [<] and
    [>] is returned unchanged. *)
Theorem escapeHtml_leaves_no_angle_bracket (text : jsstring) :
  (LT ∉ escapeHtml text) ∧ (GT ∉ escapeHtml text) ∧
  ((∀ c, c ∈ text → c ≠ AMP ∧ c ≠ LT ∧ c ≠ GT) → escapeHtml text = text).
Proof.
  destruct (escapeHtml_no_brackets text) as [H1 H2].
  split_and!; [done|done|]. clear H1 H2.
  rewrite escapeHtml_entities. induction text as [|c text IH]; [done|].
  intros H. destruct (H c) as (Ha & Hl & Hg); [left|].
  change ((c :: text) ≫= entity) with (entity c ++ (text ≫= entity)).
  rewrite IH by (intros c' Hc'; apply H; by right).
  unfold entity. apply N.eqb_neq in Ha, Hl, Hg. by rewrite Ha, Hl, Hg.
Qed.

(** X20.  [escapeHtml] loses nothing: two texts with the same escaped form
    are the same text (the ampersand is escaped first, so that an entity
    typed by the user and a character escaped by the function cannot be
    confused). *)
Theorem escapeHtml_is_injective (text1 text2 : jsstring) :
  escapeHtml text1 = escapeHtml text2 → text1 = text2.
Proof.
  rewrite !escapeHtml_entities. revert text2.
  induction text1 as [|c s IH]; intros [|c' s'].
  - done.
  - change ((c' :: s') ≫= entity) with (entity c' ++ (s' ≫= entity)).
    unfold entity. intros H. symmetry in H.
    repeat case_match; discriminate H.
  - change ((c :: s) ≫= entity) with (entity c ++ (s ≫= entity)).
    unfold entity. intros H.
    repeat case_match; discriminate H.
  - change ((c :: s) ≫= entity) with (entity c ++ (s ≫= entity)).
    change ((c' :: s') ≫= entity) with (entity c' ++ (s' ≫= entity)).
    intros [-> H]%entity_inj. f_equal. by apply IH.
Qed.

Lemma escapeHtml_is_injective_witness :
  escapeHtml (lit "a<b") = escapeHtml (lit "a<b") ∧ lit "a<b" = lit "a<b".
Proof.
  split; [reflexivity|].
  exact (escapeHtml_is_injective (lit "a<b") (lit "a<b") eq_refl).
Defined.

Section Render.

Lemma listsNest_app ks1 ks2 b :
  listsNest b (ks1 ++ ks2) = listsNest b ks1 ≫= λ b', listsNest b' ks2.
Proof.
  revert b. induction ks1 as [|k ks1 IH]; intros b; [done|].
  cbn [app listsNest]. destruct k, b; try done; by case_bool_decide.
Qed.

Lemma rendered_closeList htmlParts inList :
  rendered htmlParts inList → rendered (closeList htmlParts inList) false.
Proof.
  intros (ks & -> & Hnest & Hok). destruct inList; [|by exists ks].
  exists (ks ++ [KListEnd]). split_and!.
  - by rewrite fmap_app.
  - by rewrite listsNest_app, Hnest.
  - apply Forall_app. split; [done|]. by apply Forall_singleton.
Qed.

Lemma rendered_push htmlParts k :
  match k with KBreak => True | KElement tag _ => tag ≠ "li" | _ => False end →
  partOk k →
  rendered htmlParts false → rendered (htmlParts ++ [partOf k]) false.
Proof.
  intros Hk Hok (ks & -> & Hnest & Hoks). exists (ks ++ [k]). split_and!.
  - by rewrite fmap_app.
  - rewrite listsNest_app, Hnest. destruct k; try done. simpl.
    by rewrite (bool_decide_eq_false_2 (tag = "li")).
  - apply Forall_app. split; [done|]. by apply Forall_singleton.
Qed.

Lemma rendered_item htmlParts inList content :
  LT ∉ content → GT ∉ content →
  rendered htmlParts inList →
  rendered ((if inList then htmlParts else htmlParts ++ [lit "<ul>"])
              ++ [lit "<li>" ++ content ++ lit "</li>"]) true.
Proof.
  intros H1 H2 (ks & -> & Hnest & Hoks).
  exists ((if inList then ks else ks ++ [KListStart]) ++ [KElement "li" content]).
  split_and!.
  - destruct inList; by rewrite !fmap_app.
  - destruct inList; rewrite !listsNest_app, Hnest; done.
  - apply Forall_app. split.
    + destruct inList; [done|]. apply Forall_app. split; [done|].
      by apply Forall_singleton.
    + apply Forall_singleton. split_and!; [set_solver|done|done].
Qed.

Lemma renderLines_rendered lines : ∀ htmlParts inList,
  rendered htmlParts inList →
  rendered (renderLines lines htmlParts inList) false.
Proof.
  induction lines as [|rawLine lines IH]; intros htmlParts inList H.
  - by apply rendered_closeList.
  - cbn [renderLines].
    destruct (bool_decide (trim (trimEnd rawLine) = [])).
    { apply IH, (rendered_push _ KBreak);
        [done|done|by apply rendered_closeList]. }
    destruct (startsWith (lit "### ") (trimEnd rawLine)).
    { apply IH, (rendered_push _ (KElement "h3" _));
        [done| |by apply rendered_closeList].
      split; [set_solver|apply escapeHtml_no_brackets]. }
    destruct (startsWith (lit "## ") (trimEnd rawLine)).
    { apply IH, (rendered_push _ (KElement "h2" _));
        [done| |by apply rendered_closeList].
      split; [set_solver|apply escapeHtml_no_brackets]. }
    destruct (startsWith (lit "- ") (trimEnd rawLine)).
    { apply IH, rendered_item; [apply escapeHtml_no_brackets..|done]. }
    apply IH, (rendered_push _ (KElement "p" _));
      [done| |by apply rendered_closeList].
    split; [set_solver|apply escapeHtml_no_brackets].
Qed.

End Render.

(** X21.  [renderSummaryMarkdown] produces balanced markup without foreign
    tags, for every summary text: its result is the parts below joined by
    newlines, each of them a [<br>], a [<ul>], a [</ul>] or an element
    [h3], [h2], [li] or [p]; every [<ul>] is closed, no list is opened
    inside a list, list items occur only inside a list and everything else
    only outside; and the text inside an element holds neither [<] nor
    [>]. *)
Theorem rendered_summary_is_well_formed (markdown : jsstring) :
  ∃ ks, renderSummaryMarkdown markdown = join_newline (partOf <$> ks) ∧
        wellFormed ks.
Proof.
  unfold renderSummaryMarkdown, renderedParts. case_bool_decide as Hempty.
  { exists []. by split. }
  destruct (renderLines_rendered
              (split_on (λ c, (c =? NEWLINE)%N) markdown) [] false)
    as (ks & Hparts & Hnest & Hok).
  { exists []. by split_and!. }
  exists ks. split; [by rewrite Hparts|]. by split.
Qed.

(** ** Finding the feed *)

Import Discovery.

Section Discover.

Variable dirs : Directories.
Variable podcastName : string.

Lemma bestFeedLoop_run results : ∀ seen bestFeed bestScore w,
  bestSoFar dirs podcastName seen bestFeed bestScore →
  (bestFeedLoop dirs podcastName results bestFeed bestScore w).1 = w ∧
  match (bestFeedLoop dirs podcastName results bestFeed bestScore w).2 with
  | Ok (feed, score) => bestSoFar dirs podcastName (seen ++ results) feed score
  | Throw _ => True
  end.
Proof.
  induction results as [|podcast results IH];
    intros seen bestFeed bestScore w [Hmax Hbest].
  - simpl. by rewrite app_nil_r.
  - cbn [bestFeedLoop].
    destruct (collectionName podcast) as [name|] eqn:Hname; [|done].
    rewrite cons_middle, (assoc_L (++)).
    destruct (Qle_bool (similarity dirs name podcastName) bestScore) eqn:Hle;
      cbn [negb]; apply IH; split.
    + intros p n [Hp|Hp%list_elem_of_singleton]%elem_of_app Hn;
        [by eapply Hmax|].
      subst p. rewrite Hname in Hn. injection Hn as <-.
      by apply Qle_bool_iff.
    + destruct Hbest as [?|(p & n & Hp & ? & ? & ?)]; [by left|].
      right. exists p, n. split_and!; try done. apply elem_of_app. by left.
    + assert (bestScore < similarity dirs name podcastName)%Q as Hlt.
      { apply Qnot_le_lt. intros H%Qle_bool_iff. congruence. }
      intros p n [Hp|Hp%list_elem_of_singleton]%elem_of_app Hn.
      * apply Qlt_le_weak. eapply Qle_lt_trans; [by eapply Hmax|done].
      * subst p. rewrite Hname in Hn. injection Hn as <-. apply Qle_refl.
    + right. exists podcast, name. split_and!; try done.
      apply elem_of_app. right. by left.
Qed.

End Discover.

(** X17.  [searchApplePodcasts] never fails, and a feed that it returns is
    the feed of a podcast among the iTunes results whose name is at least
    0.4 similar to the name searched for and at least as similar as the
    name of every other result. *)
Theorem apple_feed_is_best_and_similar (dirs : Directories)
    (podcastName : string) (w : World) :
  let run := searchApplePodcasts dirs podcastName w in
  ∃ found, run.2 = Ok found ∧
    ∀ feed, found = Some feed →
      ∃ results podcast name,
        itunesSearch dirs podcastName = Ok (Some results) ∧
        podcast ∈ results ∧ collectionName podcast = Some name ∧
        feedUrl podcast = Some feed ∧
        (4 # 10 <= similarity dirs name podcastName)%Q ∧
        ∀ other name', other ∈ results → collectionName other = Some name' →
          (similarity dirs name' podcastName
           <= similarity dirs name podcastName)%Q.
Proof.
  cbv zeta. unfold searchApplePodcasts, tryCatch. rewrite bind_run.
  unfold call at 1.
  destruct (itunesSearch dirs podcastName) as [[results|]|e] eqn:Hsearch;
    cbn [failure]; [|by exists None..].
  destruct results as [|podcast results]; [by exists None|].
  rewrite bind_run.
  match goal with |- context [bestFeedLoop _ _ ?rs None 0%Q ?w'] =>
    destruct (bestFeedLoop_run dirs podcastName rs [] None 0%Q w')
      as [_ Hloop];
      [|destruct (bestFeedLoop dirs podcastName rs None 0%Q w')
          as [w1 [[bestFeed bestScore]|e]]]
  end.
  { split; [by intros ? ? ?%elem_of_nil|by left]. }
  2:{ by exists None. }
  cbn [snd fst app] in *.
  destruct (Qle_bool (4 # 10) bestScore) eqn:Hle; cbn [negb];
    [|by exists None].
  exists bestFeed. split; [done|]. intros feed ->.
  apply Qle_bool_iff in Hle. destruct Hloop as [Hmax [[[=] _]|Hbest]].
  destruct Hbest as (p & n & Hp & Hn & Hfeed & ->).
  by exists (podcast :: results), p, n.
Qed.

(** The iTunes search returns, and does nothing but its one request. *)
Lemma apple_search_run (dirs : Directories) (podcastName : string)
    (w : World) :
  ∃ found,
    searchApplePodcasts dirs podcastName w
    = (logEvent (EvCall (CAxiosGet ITUNES_URL)
                   (failure (itunesSearch dirs podcastName))) w, Ok found).
Proof.
  unfold searchApplePodcasts, tryCatch. rewrite bind_run. unfold call at 1.
  destruct (itunesSearch dirs podcastName) as [[[|podcast results]|]|e];
    cbn [failure]; try (by exists None).
  rewrite bind_run.
  match goal with |- context [bestFeedLoop _ _ ?rs None 0%Q ?w'] =>
    destruct (bestFeedLoop_run dirs podcastName rs [] None 0%Q w')
      as [Hw _];
      [|destruct (bestFeedLoop dirs podcastName rs None 0%Q w')
          as [w1 [[bestFeed bestScore]|e]]]
  end.
  { split; [by intros ? ? ?%elem_of_nil|by left]. }
  - cbn [fst snd] in *. subst w1.
    destruct (Qle_bool (4 # 10) bestScore); cbn [negb]; by eexists.
  - cbn [fst snd] in *. subst w1. by exists None.
Qed.

(** The Podcast Index search returns: without its keys nothing,
    otherwise the feeds of the answer to its one request. *)
Lemma podcast_index_run (dirs : Directories) (podcastName : string)
    (w : World) :
  searchPodcastIndex dirs podcastName w =
  if PODCAST_INDEX_KEY dirs && PODCAST_INDEX_SECRET dirs
  then (logEvent (EvCall (CAxiosGet PODCAST_INDEX_URL)
                    (failure (podcastIndexSearch dirs podcastName))) w,
        Ok match podcastIndexSearch dirs podcastName with
           | Ok (Some feeds) => feeds
           | _ => []
           end)
  else (w, Ok []).
Proof.
  unfold searchPodcastIndex, tryCatch.
  destruct (PODCAST_INDEX_KEY dirs), (PODCAST_INDEX_SECRET dirs); try done.
  cbn [negb orb andb]. rewrite bind_run. unfold call.
  by destruct (podcastIndexSearch dirs podcastName) as [[feeds|]|e].
Qed.

(** X18.  [findRssFeed] never fails and changes neither the job table nor
    the disk.  Without both Podcast Index keys it does not call the Podcast
    Index; with both keys and a Podcast Index answer that is not empty it
    returns the [url] of the first feed without asking iTunes. *)
Theorem feed_search_never_fails (dirs : Directories) (podcastName : string)
    (w : World) :
  let run := findRssFeed dirs podcastName w in
  ∃ found tr,
    run.2 = Ok found ∧
    console run.1 = console w ++ tr ∧
    progressStore run.1 = progressStore w ∧ disk run.1 = disk w ∧
    (PODCAST_INDEX_KEY dirs && PODCAST_INDEX_SECRET dirs = false →
       ∀ failed, EvCall (CAxiosGet PODCAST_INDEX_URL) failed ∉ tr) ∧
    (∀ first rest,
       PODCAST_INDEX_KEY dirs && PODCAST_INDEX_SECRET dirs = true →
       podcastIndexSearch dirs podcastName = Ok (Some (first :: rest)) →
       found = url first ∧ tr = [EvCall (CAxiosGet PODCAST_INDEX_URL) None]).
Proof.
  cbv zeta. unfold findRssFeed. rewrite bind_run, podcast_index_run.
  destruct (apple_search_run dirs podcastName w) as [found0 Happle0].
  destruct (apple_search_run dirs podcastName
              (logEvent (EvCall (CAxiosGet PODCAST_INDEX_URL)
                           (failure (podcastIndexSearch dirs podcastName))) w))
    as [found1 Happle1].
  destruct (PODCAST_INDEX_KEY dirs && PODCAST_INDEX_SECRET dirs) eqn:Hkeys.
  - destruct (podcastIndexSearch dirs podcastName) as [[[|first rest]|]|e];
      cbn [failure] in *.
    2:{ exists (url first), [EvCall (CAxiosGet PODCAST_INDEX_URL) None].
        split_and!; [done..|]. by intros ? ? _ [= -> ->]. }
    all: rewrite bind_run, Happle1.
    all: exists (if truthy found1 then found1 else None).
    all: eexists [_; _].
    all: split_and!;
           [by destruct (truthy found1)
           |destruct (truthy found1); cbn; by rewrite <- app_assoc
           |by destruct (truthy found1)|by destruct (truthy found1)
           |done|by intros ? ? _ [=]].
  - rewrite bind_run, Happle0.
    exists (if truthy found0 then found0 else None).
    eexists [_].
    split_and!; [by destruct (truthy found0)..| |done].
    intros _ failed [=]%list_elem_of_singleton.
Qed.
